(** * py-pva: population viability analysis, two sexes, age classes

    A shallow embedding of [src/population.py], [src/catastrophe.py],
    [src/vital_rates.py] and [src/simulation.py], and the properties of
    the one-generation transition, of the replicate loop and of the
    summary table.

    Numeric model.  Counts (numpy integer arrays) are mathematical
    integers [Z]; rates and every other Python [float] are exact
    rationals [Q] (no NaN among the inputs).  Python's [round] is
    round-half-to-even, [ndarray.astype(int)] truncates toward zero.
    The code computes in 64-bit integers and in binary64 instead: the
    statements that depend on it are made on inputs in the machine range
    (section "The range of the machine arithmetic"), where no integer
    leaves the 64-bit range and every count is a binary64 value, and
    they specify a rounded product up to the rounding of its
    floating-point value.

    Effects.  numpy's global generator is a state threaded through every
    call; a Python exception ([IndexError] from an index out of range,
    [ValueError] from a sampler called outside its domain) aborts the
    computation.  Both live in the monad [M].  The generator itself is
    abstract: an instance of [RandomSource] gives the state type and one
    function per sampler, constrained only by the support of each
    distribution.  Objects changed in place ([Population], the arrays
    handed to [Catastrophe.apply]) are returned as new values. *)

From Stdlib Require Import ZArith QArith Qround Lia Lqa Bool List Sorted.
From stdpp Require Import base list.
Import ListNotations.

Local Open Scope Z_scope.

(** ** Numbers *)

Module Num.

(** Python's [round(x)] on a float: nearest integer, ties to even. *)
Definition py_round (x : Q) : Z :=
  let f := Qfloor x in
  match Qcompare (x - inject_Z f) (1 # 2) with
  | Lt => f
  | Gt => f + 1
  | Eq => if Z.even f then f else f + 1
  end.

(** [ndarray.astype(int)] on a float: truncation toward zero. *)
Definition astype_int (x : Q) : Z := Z.quot (Qnum x) (Z.pos (Qden x)).

Definition Qltb (x y : Q) : bool := negb (Qle_bool y x).

(** [np.clip(x, lo, hi)] and [np.clip(x, lo, None)] on one element. *)
Definition clip (lo hi x : Q) : Q :=
  if Qltb x lo then lo else if Qltb hi x then hi else x.
Definition clip_below (lo x : Q) : Q := if Qltb x lo then lo else x.

(** [ndarray.sum()] of an integer array. *)
Definition sum (l : list Z) : Z := fold_right Z.add 0 l.

(** [range(a, b)]. *)
Definition py_range (a b : Z) : list Z :=
  map (fun k => a + Z.of_nat k) (seq 0 (Z.to_nat (b - a))).

End Num.
Export Num.

(** ** Exceptions, results and the monad of the random source *)

Inductive exn : Set := IndexError | ValueError.

Inductive result (A : Type) : Type :=
| Ok (a : A)
| Raise (e : exn).
Arguments Ok {A} a.
Arguments Raise {A} e.

(** The value of a result, forgetting the generator state. *)
Definition value {A S : Type} (r : result (A * S)) : result A :=
  match r with
  | Ok (a, _) => Ok a
  | Raise e => Raise e
  end.

(** numpy's global generator: the state and the raw samplers, each
  returning its draw and the next state.  The laws say only that a draw
  lies in the support of its distribution. *)
Class RandomSource : Type := {
  rng : Type;
  seed_state : Z -> rng;
  draw_random : rng -> Q * rng;
  draw_binomial : Z -> Q -> rng -> Z * rng;
  draw_poisson : Q -> rng -> Z * rng;
  draw_normal : Q -> Q -> rng -> Q * rng;
  draw_randint : Z -> Z -> rng -> Z * rng;
  random_support : forall g,
    (0 <= fst (draw_random g))%Q /\ (fst (draw_random g) < 1)%Q;
  binomial_support : forall n p g,
    0 <= n -> (0 <= p)%Q -> (p <= 1)%Q ->
    0 <= fst (draw_binomial n p g) <= n;
  poisson_support : forall lam g,
    (0 <= lam)%Q -> 0 <= fst (draw_poisson lam g);
  randint_support : forall lo hi g,
    lo < hi -> lo <= fst (draw_randint lo hi g) < hi
}.

Section Model.

Context {RS : RandomSource}.

Definition M (A : Type) : Type := rng -> result (A * rng).

Definition ret {A} (a : A) : M A := fun g => Ok (a, g).

Definition raise {A} (e : exn) : M A := fun _ => Raise e.

Definition bind {A B} (m : M A) (k : A -> M B) : M B :=
  fun g =>
    match m g with
    | Ok (a, g') => k a g'
    | Raise e => Raise e
    end.

Definition lift_draw {A} (d : rng -> A * rng) : M A := fun g => Ok (d g).

End Model.

Notation "x <- m ;; k" := (bind m (fun x => k))
  (at level 100, m at next level, right associativity).

Section Program.

Context {RS : RandomSource}.

(** A [for] loop over a list of indices, threading the loop state. *)
Fixpoint for_each {S I : Type} (body : S -> I -> M S) (l : list I) (s : S)
  : M S :=
  match l with
  | [] => ret s
  | i :: l' => s' <- body s i ;; for_each body l' s'
  end.

(** A list comprehension [[f(i) for i in l]]. *)
Fixpoint comprehension {A I : Type} (f : I -> M A) (l : list I)
  : M (list A) :=
  match l with
  | [] => ret []
  | i :: l' => a <- f i ;; r <- comprehension f l' ;; ret (a :: r)
  end.

(** *** numpy arrays: indexing with Python's negative indices *)

Definition norm_index (n : nat) (i : Z) : option nat :=
  if (0 <=? i) && (i <? Z.of_nat n) then Some (Z.to_nat i)
  else if (- Z.of_nat n <=? i) && (i <? 0) then Some (Z.to_nat (Z.of_nat n + i))
  else None.

Definition getitem {A} (a : list A) (i : Z) : M A :=
  match norm_index (length a) i with
  | Some k => match a !! k with
              | Some x => ret x
              | None => raise IndexError
              end
  | None => raise IndexError
  end.

Definition setitem {A} (a : list A) (i : Z) (v : A) : M (list A) :=
  match norm_index (length a) i with
  | Some k => ret (<[k := v]> a)
  | None => raise IndexError
  end.

(** [a[i] += v] *)
Definition iadd (a : list Z) (i : Z) (v : Z) : M (list Z) :=
  old <- getitem a i ;; setitem a i (old + v).

(** *** [np.random]: argument checks, then the raw sampler *)

Definition np_random_seed (s : Z) : M unit :=
  if (s <? 0) || (2 ^ 32 <=? s) then raise ValueError
  else fun _ => Ok (tt, seed_state s).

Definition np_random_random : M Q := lift_draw draw_random.

Definition np_random_binomial (n : Z) (p : Q) : M Z :=
  if (n <? 0) || Qltb p 0 || Qltb 1 p then raise ValueError
  else lift_draw (draw_binomial n p).

Definition np_random_poisson (lam : Q) : M Z :=
  if Qltb lam 0 then raise ValueError
  else lift_draw (draw_poisson lam).

(** [np.random.normal(loc, scale, size=n)]: [n] draws in order. *)
Definition np_random_normal (loc scale : Q) (size : nat) : M (list Q) :=
  if Qltb scale 0 then raise ValueError
  else comprehension (fun _ : nat => lift_draw (draw_normal loc scale))
         (seq 0 size).

Definition np_random_randint (lo hi : Z) : M Z :=
  if hi <=? lo then raise ValueError
  else lift_draw (draw_randint lo hi).

(** ** [src/vital_rates.py] *)

Record VitalRates : Type := {
  female_survival : list Q;
  male_survival : list Q;
  female_fertility : list Q;
  male_fertility : list Q;
  env_sd_survival : Q;
  env_sd_fertility : Q
}.

(** The dataclass constructor: it stores its arguments and checks
    nothing. *)
Definition VitalRates_init (fs ms ff mf : list Q) (sd_s sd_f : Q)
  : result VitalRates :=
  Ok {| female_survival := fs; male_survival := ms;
        female_fertility := ff; male_fertility := mf;
        env_sd_survival := sd_s; env_sd_fertility := sd_f |}.

Definition rates : Type := list Q * list Q * list Q * list Q.

(** Elementwise product of two arrays of one shape. *)
Definition times (a b : list Q) : list Q := zip_with Qmult a b.

Definition apply_environmental_noise (self : VitalRates) : M rates :=
  sv <- (if Qltb 0 (env_sd_survival self) then
           f_survival_noise <-
             np_random_normal 1 (env_sd_survival self)
               (length (female_survival self)) ;;
           m_survival_noise <-
             np_random_normal 1 (env_sd_survival self)
               (length (male_survival self)) ;;
           ret (map (clip 0 1) (times (female_survival self) f_survival_noise),
                map (clip 0 1) (times (male_survival self) m_survival_noise))
         else ret (female_survival self, male_survival self)) ;;
  ft <- (if Qltb 0 (env_sd_fertility self) then
           f_fertility_noise <-
             np_random_normal 1 (env_sd_fertility self)
               (length (female_fertility self)) ;;
           m_fertility_noise <-
             np_random_normal 1 (env_sd_fertility self)
               (length (male_fertility self)) ;;
           ret (map (clip_below 0)
                  (times (female_fertility self) f_fertility_noise),
                map (clip_below 0)
                  (times (male_fertility self) m_fertility_noise))
         else ret (female_fertility self, male_fertility self)) ;;
  ret (fst sv, snd sv, fst ft, snd ft).

(** ** [src/catastrophe.py] *)

Record Catastrophe : Type := {
  probability : Q;
  mortality_rate : Q
}.

(** The dataclass constructor: it stores its arguments and checks
    nothing. *)
Definition Catastrophe_init (p m : Q) : result Catastrophe :=
  Ok {| probability := p; mortality_rate := m |}.

Definition occurs (self : Catastrophe) : M bool :=
  u <- np_random_random ;; ret (Qltb u (probability self)).

(** One iteration of the loop of [Catastrophe.apply]. *)
Definition apply_class (self : Catastrophe) (demo_noise : bool)
  (st : list Z * list Z) (i : Z) : M (list Z * list Z) :=
  let '(new_f, new_m) := st in
  if demo_noise then
    fi <- getitem new_f i ;;
    v <- np_random_binomial fi (1 - mortality_rate self) ;;
    new_f <- setitem new_f i v ;;
    mi <- getitem new_m i ;;
    v <- np_random_binomial mi (1 - mortality_rate self) ;;
    new_m <- setitem new_m i v ;;
    ret (new_f, new_m)
  else
    fi <- getitem new_f i ;;
    new_f <- setitem new_f i
               (py_round (inject_Z fi * (1 - mortality_rate self))) ;;
    mi <- getitem new_m i ;;
    new_m <- setitem new_m i
               (py_round (inject_Z mi * (1 - mortality_rate self))) ;;
    ret (new_f, new_m).

(** [Catastrophe.apply]: the arrays are changed in place; the model
    returns them. *)
Definition apply (self : Catastrophe) (new_f new_m : list Z)
  (demo_noise : bool) : M (list Z * list Z) :=
  b <- occurs self ;;
  if b then
    for_each (apply_class self demo_noise)
      (py_range 0 (Z.of_nat (length new_f))) (new_f, new_m)
  else ret (new_f, new_m).

(** ** [src/population.py] *)

Record Population : Type := {
  female : list Z;
  male : list Z;
  carrying_capacity : option Z;
  reproduction_age : Z;
  male_birth_prop : Q
}.

(** The survivors of class [i] of both sexes (the loop body and the
    block for the last class, [i = -1], are the same code). *)
Definition class_survivors (self : Population) (demo_noise : bool)
  (f_survival m_survival : list Q) (i : Z) : M (Z * Z) :=
  if demo_noise then
    fi <- getitem (female self) i ;;
    sf <- getitem f_survival i ;;
    surv_f <- np_random_binomial fi sf ;;
    mi <- getitem (male self) i ;;
    sm <- getitem m_survival i ;;
    surv_m <- np_random_binomial mi sm ;;
    ret (surv_f, surv_m)
  else
    fi <- getitem (female self) i ;;
    sf <- getitem f_survival i ;;
    mi <- getitem (male self) i ;;
    sm <- getitem m_survival i ;;
    ret (py_round (inject_Z fi * sf), py_round (inject_Z mi * sm)).

(** Body of the survival loop: class [i] ages into class [i + 1]. *)
Definition survival_body (self : Population) (demo_noise : bool)
  (f_survival m_survival : list Q)
  (st : list Z * list Z) (i : Z) : M (list Z * list Z) :=
  let '(new_f, new_m) := st in
  surv <- class_survivors self demo_noise f_survival m_survival i ;;
  new_f <- iadd new_f (i + 1) (fst surv) ;;
  new_m <- iadd new_m (i + 1) (snd surv) ;;
  ret (new_f, new_m).

(** The survival block: fresh arrays of zeros, the loop over the classes
    below the last, then the last class, added into the last slot. *)
Definition survival (self : Population) (demo_noise : bool)
  (f_survival m_survival : list Q) : M (list Z * list Z) :=
  let age_classes := Z.of_nat (length (female self)) in
  let new_f := map (fun _ => 0) (female self) in
  let new_m := map (fun _ => 0) (male self) in
  st <- for_each (survival_body self demo_noise f_survival m_survival)
          (py_range 0 (age_classes - 1)) (new_f, new_m) ;;
  let '(new_f, new_m) := st in
  surv <- class_survivors self demo_noise f_survival m_survival (-1) ;;
  new_f <- iadd new_f (-1) (fst surv) ;;
  new_m <- iadd new_m (-1) (snd surv) ;;
  ret (new_f, new_m).

(** Body of the reproduction loop: births of the females of class [i],
    read from the new array. *)
Definition reproduction_body (demo_noise : bool) (new_f : list Z)
  (f_fertility : list Q) (births : Z) (i : Z) : M Z :=
  n_females <- getitem new_f i ;;
  rate <- getitem f_fertility i ;;
  births_i <- (if demo_noise
               then np_random_poisson (inject_Z n_females * rate)
               else ret (py_round (inject_Z n_females * rate))) ;;
  ret (births + births_i).

(** The reproduction block: total births, their split by sex, and the
    assignment to class 0. *)
Definition reproduction (self : Population) (demo_noise : bool)
  (f_fertility : list Q) (new_f new_m : list Z) : M (list Z * list Z) :=
  let age_classes := Z.of_nat (length (female self)) in
  births <- for_each (reproduction_body demo_noise new_f f_fertility)
              (py_range (reproduction_age self) age_classes) 0 ;;
  n_male_births <-
    (if 0 <? births then
       if demo_noise then np_random_binomial births (male_birth_prop self)
       else ret (py_round (inject_Z births * male_birth_prop self))
     else ret 0) ;;
  let n_female_births := if 0 <? births then births - n_male_births else 0 in
  new_f <- setitem new_f 0 n_female_births ;;
  new_m <- setitem new_m 0 n_male_births ;;
  ret (new_f, new_m).

(** The carrying-capacity block. *)
Definition enforce_capacity (self : Population) (demo_noise : bool)
  (new_f new_m : list Z) : M (list Z * list Z) :=
  let age_classes := Z.of_nat (length (female self)) in
  match carrying_capacity self with
  | Some K =>
      let total := sum new_f + sum new_m in
      if (K <? total) && (0 <? total) then
        let ratio := (inject_Z K / inject_Z total)%Q in
        if demo_noise then
          scaled_f <- comprehension
                        (fun i => c <- getitem new_f i ;;
                                  np_random_binomial c ratio)
                        (py_range 0 age_classes) ;;
          scaled_m <- comprehension
                        (fun i => c <- getitem new_m i ;;
                                  np_random_binomial c ratio)
                        (py_range 0 age_classes) ;;
          ret (scaled_f, scaled_m)
        else
          ret (map (fun c => astype_int (inject_Z c * ratio)) new_f,
               map (fun c => astype_int (inject_Z c * ratio)) new_m)
      else ret (new_f, new_m)
  | None => ret (new_f, new_m)
  end.

(** The rates of this generation. *)
Definition effective_rates (vital_rates : VitalRates) (env_noise : bool)
  : M rates :=
  if env_noise then apply_environmental_noise vital_rates
  else ret (female_survival vital_rates, male_survival vital_rates,
            female_fertility vital_rates, male_fertility vital_rates).

(** [Population.advance_generation]: [self] is changed in place; the
    model returns the new object. *)
Definition advance_generation (self : Population) (vital_rates : VitalRates)
  (catastrophe : option Catastrophe) (demo_noise env_noise : bool)
  : M Population :=
  r <- effective_rates vital_rates env_noise ;;
  let '(f_survival, m_survival, f_fertility, m_fertility) := r in
  st <- survival self demo_noise f_survival m_survival ;;
  st <- reproduction self demo_noise f_fertility (fst st) (snd st) ;;
  st <- match catastrophe with
        | Some c => apply c (fst st) (snd st) demo_noise
        | None => ret st
        end ;;
  st <- enforce_capacity self demo_noise (fst st) (snd st) ;;
  ret {| female := fst st; male := snd st;
         carrying_capacity := carrying_capacity self;
         reproduction_age := reproduction_age self;
         male_birth_prop := male_birth_prop self |}.

Definition total_population (self : Population) : Z :=
  sum (female self) + sum (male self).

Definition is_extinct (self : Population) (q_threshold : Z) : bool :=
  total_population self <=? q_threshold.

(** ** [src/simulation.py] *)

(** One row of a trajectory data frame. *)
Record row : Type := {
  generation : Z;
  row_female : Z;
  row_male : Z;
  row_total : Z
}.

(** An extinction time: [np.inf] or the generation of the break. *)
Inductive ext_time : Set := Never | At (gen : Z).

Record SimulationResult : Type := {
  trajectories : list (list row);
  extinction_times : list ext_time;
  result_q_threshold : Z
}.

(** The fields of a [Simulation] after [__init__]. *)
Record Simulation : Type := {
  vital_rates : VitalRates;
  initial_females : list Z;
  initial_males : list Z;
  catastrophe : option Catastrophe;
  sim_carrying_capacity : option Z;
  n_generations : Z;
  q_threshold : Z;
  n_replicates : Z;
  demo_noise : bool;
  env_noise : bool;
  seed : option Z
}.

Definition record_of (gen : Z) (pop : Population) : row :=
  {| generation := gen;
     row_female := sum (female pop);
     row_male := sum (male pop);
     row_total := total_population pop |}.

Definition zero_row (gen : Z) : row :=
  {| generation := gen; row_female := 0; row_male := 0; row_total := 0 |}.

(** The loop [for gen in range(1, n_generations + 1)] with its [break]:
    the records so far and the extinction time. *)
Fixpoint generation_loop (self : Simulation) (gens : list Z)
  (pop : Population) (records : list row) : M (list row * ext_time) :=
  match gens with
  | [] => ret (records, Never)
  | gen :: gens' =>
      pop <- advance_generation pop (vital_rates self) (catastrophe self)
               (demo_noise self) (env_noise self) ;;
      let records := records ++ [record_of gen pop] in
      if is_extinct pop (q_threshold self) then ret (records, At gen)
      else generation_loop self gens' pop records
  end.

(** The zero rows appended after an early extinction. *)
Definition pad (self : Simulation) (records : list row)
  (extinct_at : ext_time) : list row :=
  match extinct_at with
  | At g =>
      if g <? n_generations self then
        records ++ map zero_row (py_range (g + 1) (n_generations self + 1))
      else records
  | Never => records
  end.

Definition replicate_seed (base_seed replicate : Z) : Z :=
  (base_seed + replicate) mod (2 ^ 32 - 1).

Definition initial_population (self : Simulation) : Population :=
  {| female := initial_females self;
     male := initial_males self;
     carrying_capacity := sim_carrying_capacity self;
     reproduction_age := 1;
     male_birth_prop := 1 # 2 |}.

(** One replicate, from the freshly seeded generator on. *)
Definition simulate_replicate (self : Simulation) : M (list row * ext_time) :=
  let pop := initial_population self in
  let records := [record_of 0 pop] in
  r <- generation_loop self (py_range 1 (n_generations self + 1)) pop records ;;
  let '(records, extinct_at) := r in
  ret (pad self records extinct_at, extinct_at).

(** The body of the loop over replicates. *)
Definition run_replicate (self : Simulation) (base_seed replicate : Z)
  : M (list row * ext_time) :=
  _ <- np_random_seed (replicate_seed base_seed replicate) ;;
  simulate_replicate self.

(** [self.seed if self.seed is not None else np.random.randint(...)] *)
Definition resolve_base_seed (self : Simulation) : M Z :=
  match seed self with
  | Some s => ret s
  | None => np_random_randint 0 (2 ^ 32 - 1)
  end.

Definition run (self : Simulation) : M SimulationResult :=
  base_seed <- resolve_base_seed self ;;
  acc <- for_each
           (fun (acc : list (list row) * list ext_time) replicate =>
              r <- run_replicate self base_seed replicate ;;
              ret (fst acc ++ [fst r], snd acc ++ [snd r]))
           (py_range 0 (n_replicates self)) ([], []) ;;
  ret {| trajectories := fst acc;
         extinction_times := snd acc;
         result_q_threshold := q_threshold self |}.

End Program.

(** *** [SimulationResult.summary] *)

(** A Python float that may be the NaN sentinel. *)
Inductive pyfloat : Set := NaN | Fin (q : Q).

Record Summary : Type := {
  replicates : Z;
  extinct : Z;
  extinction_probability : pyfloat;
  mean_time_to_extinction : pyfloat;
  median_time_to_extinction : pyfloat
}.

(** [[t for t in extinction_times if t < np.inf]] *)
Fixpoint finite_times (l : list ext_time) : list Z :=
  match l with
  | [] => []
  | Never :: l' => finite_times l'
  | At t :: l' => t :: finite_times l'
  end.

(** [sum(1 for t in extinction_times if t < np.inf)] *)
Fixpoint count_finite (l : list ext_time) : Z :=
  match l with
  | [] => 0
  | Never :: l' => count_finite l'
  | At _ :: l' => 1 + count_finite l'
  end.

Fixpoint insert_sorted (x : Z) (l : list Z) : list Z :=
  match l with
  | [] => [x]
  | y :: l' => if x <=? y then x :: l else y :: insert_sorted x l'
  end.

Definition np_sort (l : list Z) : list Z := fold_right insert_sorted [] l.

Definition np_mean (l : list Z) : Q :=
  (inject_Z (sum l) / inject_Z (Z.of_nat (length l)))%Q.

(** [np.median]: the middle of the sorted values, the mean of the two
    middle ones for an even number of them. *)
Definition np_median (l : list Z) : Q :=
  let s := np_sort l in
  let n := length l in
  let lo := nth (n / 2 - 1)%nat s 0 in
  let hi := nth (n / 2)%nat s 0 in
  if Nat.even n then ((inject_Z lo + inject_Z hi) / 2)%Q else inject_Z hi.

Definition summary (self : SimulationResult) : Summary :=
  let n_replicates := Z.of_nat (length (extinction_times self)) in
  let n_extinct := count_finite (extinction_times self) in
  let extinction_probability :=
    if n_replicates =? 0 then NaN
    else Fin (inject_Z n_extinct / inject_Z n_replicates)%Q in
  let times := finite_times (extinction_times self) in
  let mean_time := match times with [] => NaN | _ => Fin (np_mean times) end in
  let median_time :=
    match times with [] => NaN | _ => Fin (np_median times) end in
  {| replicates := n_replicates;
     extinct := n_extinct;
     extinction_probability := extinction_probability;
     mean_time_to_extinction := mean_time;
     median_time_to_extinction := median_time |}.

(** ** A concrete random source

    The state is a tape of pending raw draws followed by a linear
    congruential generator.  Each sampler maps the next raw draw into the
    support of its distribution, so every outcome the real samplers can
    produce is reached by some tape. *)

Module Tape.

Record state : Type := { pending : list Z; lcg : Z }.

Definition next (g : state) : Z * state :=
  match pending g with
  | z :: t => (z, {| pending := t; lcg := lcg g |})
  | [] =>
      let x := (1103515245 * lcg g + 12345) mod 2 ^ 31 in
      (x / 65536, {| pending := []; lcg := x |})
  end.

Definition seeded (s : Z) : state := {| pending := []; lcg := s |}.

Definition random (g : state) : Q * state :=
  let '(z, g') := next g in (Z.modulo z 1000 # 1000, g').

Definition binomial (n : Z) (p : Q) (g : state) : Z * state :=
  let '(z, g') := next g in
  (if Qle_bool p 0 then 0
   else if Qle_bool 1 p then n
   else Z.modulo z (n + 1), g').

Definition poisson (lam : Q) (g : state) : Z * state :=
  let '(z, g') := next g in
  (if Qle_bool lam 0 then 0 else Z.abs z, g').

Definition normal (loc scale : Q) (g : state) : Q * state :=
  let '(z, g') := next g in
  ((loc + scale * (inject_Z (Z.modulo z 7 - 3) / 2))%Q, g').

Definition randint (lo hi : Z) (g : state) : Z * state :=
  let '(z, g') := next g in (lo + Z.modulo z (hi - lo), g').

End Tape.

Module TapeLaws.
Import Tape.

Lemma random_ok (g : state) :
  (0 <= fst (random g))%Q /\ (fst (random g) < 1)%Q.
Proof.
  unfold random. destruct (next g) as [z g']. simpl.
  pose proof (Z.mod_pos_bound z 1000 ltac:(lia)) as Hb.
  split; [unfold Qle | unfold Qlt]; simpl; lia.
Qed.

Lemma binomial_ok (n : Z) (p : Q) (g : state) :
  0 <= n -> (0 <= p)%Q -> (p <= 1)%Q -> 0 <= fst (binomial n p g) <= n.
Proof.
  intros Hn _ _. unfold binomial. destruct (next g) as [z g']. simpl.
  destruct (Qle_bool p 0); [lia|].
  destruct (Qle_bool 1 p); [lia|].
  pose proof (Z.mod_pos_bound z (n + 1) ltac:(lia)). lia.
Qed.

Lemma poisson_ok (lam : Q) (g : state) :
  (0 <= lam)%Q -> 0 <= fst (poisson lam g).
Proof.
  intros _. unfold poisson. destruct (next g) as [z g']. simpl.
  destruct (Qle_bool lam 0); lia.
Qed.

Lemma randint_ok (lo hi : Z) (g : state) :
  lo < hi -> lo <= fst (randint lo hi g) < hi.
Proof.
  intros H. unfold randint. destruct (next g) as [z g']. simpl.
  pose proof (Z.mod_pos_bound z (hi - lo) ltac:(lia)). lia.
Qed.

End TapeLaws.

Definition tape_source : RandomSource :=
  {| rng := Tape.state;
     seed_state := Tape.seeded;
     draw_random := Tape.random;
     draw_binomial := Tape.binomial;
     draw_poisson := Tape.poisson;
     draw_normal := Tape.normal;
     draw_randint := Tape.randint;
     random_support := TapeLaws.random_ok;
     binomial_support := TapeLaws.binomial_ok;
     poisson_support := TapeLaws.poisson_ok;
     randint_support := TapeLaws.randint_ok |}.

(** A tape state holding the given pending draws. *)
Definition tape (l : list Z) : @rng tape_source :=
  {| Tape.pending := l; Tape.lcg := 0 |}.

(** * Verification *)

(** ** Arithmetic of rounding and scaling *)

Lemma Qltb_lt (x y : Q) : Qltb x y = true <-> (x < y)%Q.
Proof.
  unfold Qltb. rewrite negb_true_iff. split.
  - intros H. apply Qnot_le_lt. intros Hle.
    apply Qle_bool_iff in Hle. congruence.
  - intros H. destruct (Qle_bool y x) eqn:E; [|reflexivity].
    apply Qle_bool_iff in E. exfalso. exact (Qlt_not_le _ _ H E).
Qed.

Lemma Qltb_ge (x y : Q) : Qltb x y = false <-> (y <= x)%Q.
Proof.
  unfold Qltb. rewrite negb_false_iff. apply Qle_bool_iff.
Qed.

Lemma Qfloor_nonneg (x : Q) : (0 <= x)%Q -> 0 <= Qfloor x.
Proof.
  intros H. change 0 with (Qfloor (inject_Z 0)) at 1.
  apply Qfloor_resp_le. exact H.
Qed.

Lemma py_round_nonneg (x : Q) : (0 <= x)%Q -> 0 <= py_round x.
Proof.
  intros H. unfold py_round. pose proof (Qfloor_nonneg x H).
  destruct (Qcompare _ _); [destruct (Z.even _)| |]; lia.
Qed.

Lemma py_round_le (x : Q) (n : Z) : (x <= inject_Z n)%Q -> py_round x <= n.
Proof.
  intros H. unfold py_round.
  assert (Hf : Qfloor x <= n).
  { rewrite <- (Qfloor_Z n). apply Qfloor_resp_le. exact H. }
  destruct (Z.eq_dec (Qfloor x) n) as [E|E].
  - assert (Hx : (x - inject_Z (Qfloor x) < 1 # 2)%Q).
    { rewrite E. lra. }
    destruct (Qcompare _ _) eqn:Ec; [|lia|].
    + apply Qeq_alt in Ec. lra.
    + apply Qgt_alt in Ec. lra.
  - destruct (Qcompare _ _); [destruct (Z.even _)| |]; lia.
Qed.

Lemma astype_int_scaled (c K T : Z) :
  0 <= c -> 0 <= K -> 0 < T ->
  astype_int (inject_Z c * (inject_Z K / inject_Z T)) = (c * K) / T.
Proof.
  intros Hc HK HT. destruct T as [|T|T]; try lia.
  unfold astype_int, Qdiv, Qmult, Qinv, inject_Z. simpl.
  rewrite Z.quot_div_nonneg by lia.
  f_equal. lia.
Qed.

Lemma ratio_unit (K T : Z) :
  0 <= K -> K < T -> (0 <= inject_Z K / inject_Z T)%Q /\
                     (inject_Z K / inject_Z T <= 1)%Q.
Proof.
  intros HK HT.
  assert (H0 : (0 < inject_Z T)%Q).
  { change 0%Q with (inject_Z 0). rewrite <- Zlt_Qlt. lia. }
  split.
  - apply Qle_shift_div_l; [exact H0|].
    rewrite Qmult_0_l. change 0%Q with (inject_Z 0). rewrite <- Zle_Qle. lia.
  - apply Qle_shift_div_r; [exact H0|].
    rewrite Qmult_1_l. rewrite <- Zle_Qle. lia.
Qed.

Lemma Qmult_nonneg (x y : Q) : (0 <= x)%Q -> (0 <= y)%Q -> (0 <= x * y)%Q.
Proof. intros. apply Qmult_le_0_compat; assumption. Qed.

Lemma inject_Z_nonneg (n : Z) : 0 <= n -> (0 <= inject_Z n)%Q.
Proof. intros. change 0%Q with (inject_Z 0). rewrite <- Zle_Qle. lia. Qed.

Lemma scaled_le (n : Z) (p : Q) :
  0 <= n -> (p <= 1)%Q -> (inject_Z n * p <= inject_Z n)%Q.
Proof.
  intros Hn Hp. pose proof (inject_Z_nonneg n Hn). nra.
Qed.

(** ** Sums *)

Lemma sum_app (l1 l2 : list Z) : sum (l1 ++ l2) = sum l1 + sum l2.
Proof. induction l1 as [|x l1 IH]; simpl; lia. Qed.

Lemma sum_nonneg (l : list Z) : Forall (fun c => 0 <= c) l -> 0 <= sum l.
Proof. induction 1; simpl; lia. Qed.

(** Scaling every count by [K / T] and rounding down gives at most
    [K / T] of the whole. *)
Lemma sum_scaled (K T : Z) (l : list Z) :
  0 < T -> T * sum (map (fun c => (c * K) / T) l) <= K * sum l.
Proof.
  intros HT. induction l as [|c l IH]; simpl; [lia|].
  pose proof (Z.mul_div_le (c * K) T HT). lia.
Qed.

(** ** Ranges and indices *)

Lemma py_range_length (a b : Z) : length (py_range a b) = Z.to_nat (b - a).
Proof. unfold py_range. rewrite length_map, length_seq. reflexivity. Qed.

Lemma py_range_lookup (a b : Z) (k : nat) (i : Z) :
  py_range a b !! k = Some i -> i = a + Z.of_nat k /\ i < b.
Proof.
  unfold py_range. rewrite list_lookup_fmap.
  destruct (seq 0 (Z.to_nat (b - a)) !! k) as [j|] eqn:E; [|discriminate].
  apply lookup_seq in E. destruct E as [-> Hlt]. simpl.
  intros [= <-]. lia.
Qed.

(** The index reached after the prefix [done] of a range. *)
Lemma py_range_split (a b : Z) (done rest : list Z) (i : Z) :
  py_range a b = done ++ i :: rest ->
  i = a + Z.of_nat (length done) /\ i < b.
Proof.
  intros H. apply (py_range_lookup a b (length done) i).
  rewrite H. apply list_lookup_middle. reflexivity.
Qed.

Lemma py_range_cons (a b : Z) :
  a < b -> py_range a b = a :: py_range (a + 1) b.
Proof.
  intros H. unfold py_range.
  replace (Z.to_nat (b - a)) with (S (Z.to_nat (b - (a + 1)))) by lia.
  simpl. f_equal; [lia|].
  rewrite <- seq_shift, map_map. apply map_ext. intros k. lia.
Qed.

Lemma norm_index_nat (n k : nat) :
  (k < n)%nat -> norm_index n (Z.of_nat k) = Some k.
Proof.
  intros H. unfold norm_index.
  replace (0 <=? Z.of_nat k) with true by (symmetry; apply Z.leb_le; lia).
  replace (Z.of_nat k <? Z.of_nat n) with true
    by (symmetry; apply Z.ltb_lt; lia).
  simpl. f_equal. lia.
Qed.

Lemma norm_index_last (n : nat) :
  (0 < n)%nat -> norm_index n (-1) = Some (n - 1)%nat.
Proof.
  intros H. unfold norm_index.
  replace (0 <=? -1) with false by reflexivity. simpl.
  replace (- Z.of_nat n <=? -1) with true by (symmetry; apply Z.leb_le; lia).
  simpl. f_equal. lia.
Qed.

(** ** A logic of computations that return *)

Section Logic.

Context {RS : RandomSource}.

(** [returns m P]: from every generator state, [m] raises nothing and
    its value satisfies [P]. *)
Definition returns {A} (m : M A) (P : A -> Prop) : Prop :=
  forall g, exists a g', m g = Ok (a, g') /\ P a.

Lemma returns_ret {A} (a : A) (P : A -> Prop) : P a -> returns (ret a) P.
Proof. intros H g. exists a, g. split; [reflexivity|exact H]. Qed.

Lemma returns_bind {A B} (m : M A) (k : A -> M B) (P : A -> Prop)
  (R : B -> Prop) :
  returns m P -> (forall a, P a -> returns (k a) R) -> returns (bind m k) R.
Proof.
  intros Hm Hk g. destruct (Hm g) as (a & g1 & E & Ha).
  destruct (Hk a Ha g1) as (b & g2 & E2 & Hb).
  exists b, g2. unfold bind. rewrite E. split; assumption.
Qed.

Lemma bind_ret_l {A B} (a : A) (k : A -> M B) : bind (ret a) k = k a.
Proof. reflexivity. Qed.

Lemma returns_weaken {A} (m : M A) (P R : A -> Prop) :
  returns m P -> (forall a, P a -> R a) -> returns m R.
Proof.
  intros Hm H g. destruct (Hm g) as (a & g1 & E & Ha).
  exists a, g1. split; [exact E|apply H, Ha].
Qed.

(** Loop rule: the invariant is indexed by the indices already done. *)
Lemma returns_for_each_from {S I} (body : S -> I -> M S)
  (Inv : list I -> S -> Prop) (l pre : list I) (s : S) :
  Inv pre s ->
  (forall done i rest s', pre ++ l = done ++ i :: rest -> Inv done s' ->
                          returns (body s' i) (Inv (done ++ [i]))) ->
  returns (for_each body l s) (Inv (pre ++ l)).
Proof.
  revert pre s. induction l as [|i l IH]; intros pre s H0 Hstep.
  - rewrite app_nil_r. apply returns_ret, H0.
  - simpl. eapply returns_bind.
    + eapply Hstep; [reflexivity|exact H0].
    + intros s' Hs'. replace (pre ++ i :: l) with ((pre ++ [i]) ++ l)
        by (rewrite <- app_assoc; reflexivity).
      apply IH; [exact Hs'|].
      intros done j rest s'' E. apply (Hstep done j rest).
      rewrite <- E, <- app_assoc. reflexivity.
Qed.

Lemma returns_for_each {S I} (body : S -> I -> M S)
  (Inv : list I -> S -> Prop) (l : list I) (s : S) :
  Inv [] s ->
  (forall done i rest s', l = done ++ i :: rest -> Inv done s' ->
                          returns (body s' i) (Inv (done ++ [i]))) ->
  returns (for_each body l s) (Inv l).
Proof. intros H0 Hstep. exact (returns_for_each_from body Inv l [] s H0 Hstep). Qed.

Lemma returns_comprehension {A I} (f : I -> M A) (P : I -> A -> Prop)
  (l : list I) :
  (forall i, In i l -> returns (f i) (P i)) ->
  returns (comprehension f l) (fun r => Forall2 P l r).
Proof.
  induction l as [|i l IH]; intros H; simpl.
  - apply returns_ret. constructor.
  - eapply returns_bind; [apply H; left; reflexivity|].
    intros a Ha. eapply returns_bind; [apply IH; intros; apply H; right; assumption|].
    intros r Hr. apply returns_ret. constructor; assumption.
Qed.

(** *** Array access *)

Lemma getitem_eq {A} (a : list A) (i : Z) (k : nat) (x : A) :
  norm_index (length a) i = Some k -> a !! k = Some x -> getitem a i = ret x.
Proof. intros H1 H2. unfold getitem. rewrite H1, H2. reflexivity. Qed.

Lemma setitem_eq {A} (a : list A) (i : Z) (k : nat) (v : A) :
  norm_index (length a) i = Some k -> setitem a i v = ret (<[k := v]> a).
Proof. intros H1. unfold setitem. rewrite H1. reflexivity. Qed.

Lemma insert_as_alter (f : Z -> Z) (a : list Z) (k : nat) (x : Z) :
  a !! k = Some x -> <[k := f x]> a = alter f k a.
Proof.
  revert k. induction a as [|y a IH]; intros [|k] H; simpl in *;
    try discriminate.
  - injection H as ->. reflexivity.
  - f_equal. apply IH, H.
Qed.

Lemma iadd_eq (a : list Z) (i : Z) (k : nat) (v : Z) :
  norm_index (length a) i = Some k -> (k < length a)%nat ->
  iadd a i v = ret (alter (fun x => x + v) k a).
Proof.
  intros H1 H2. destruct (lookup_lt_is_Some_2 a k H2) as [x Hx].
  unfold iadd. rewrite (getitem_eq a i k x H1 Hx). simpl.
  change (bind (ret x) (fun old => setitem a i (old + v)))
    with (setitem a i (x + v)).
  rewrite (setitem_eq a i k _ H1).
  rewrite (insert_as_alter (fun x => x + v) a k x Hx). reflexivity.
Qed.

(** *** Samplers *)

Lemma returns_binomial (n : Z) (p : Q) :
  0 <= n -> (0 <= p)%Q -> (p <= 1)%Q ->
  returns (np_random_binomial n p)
    (fun r => (exists g, r = fst (draw_binomial n p g)) /\ 0 <= r <= n).
Proof.
  intros Hn Hp0 Hp1 g. unfold np_random_binomial.
  replace (n <? 0) with false by (symmetry; apply Z.ltb_ge; lia).
  rewrite (proj2 (Qltb_ge p 0) Hp0), (proj2 (Qltb_ge 1 p) Hp1). simpl.
  unfold lift_draw. destruct (draw_binomial n p g) as [r g'] eqn:E.
  exists r, g'. split; [reflexivity|].
  pose proof (binomial_support n p g Hn Hp0 Hp1) as Hs. rewrite E in Hs.
  split; [exists g; rewrite E; reflexivity|exact Hs].
Qed.

Lemma returns_poisson (lam : Q) :
  (0 <= lam)%Q ->
  returns (np_random_poisson lam)
    (fun r => (exists g, r = fst (draw_poisson lam g)) /\ 0 <= r).
Proof.
  intros Hl g. unfold np_random_poisson.
  rewrite (proj2 (Qltb_ge lam 0) Hl). unfold lift_draw.
  destruct (draw_poisson lam g) as [r g'] eqn:E.
  exists r, g'. split; [reflexivity|].
  pose proof (poisson_support lam g Hl) as Hs. rewrite E in Hs.
  split; [exists g; rewrite E; reflexivity|exact Hs].
Qed.

Lemma returns_normal (loc scale : Q) (n : nat) :
  (0 <= scale)%Q ->
  returns (np_random_normal loc scale n) (fun l => length l = n).
Proof.
  intros Hs. unfold np_random_normal. rewrite (proj2 (Qltb_ge scale 0) Hs).
  eapply returns_weaken.
  - apply (returns_comprehension _ (fun _ _ => True)).
    intros i _ g. unfold lift_draw. destruct (draw_normal loc scale g) as [x g'].
    exists x, g'. split; [reflexivity|exact I].
  - intros l H. apply Forall2_length in H. rewrite length_seq in H. lia.
Qed.

Lemma returns_random :
  returns np_random_random (fun u => (0 <= u)%Q /\ (u < 1)%Q).
Proof.
  intros g. unfold np_random_random, lift_draw.
  destruct (draw_random g) as [u g'] eqn:E. exists u, g'.
  split; [reflexivity|]. pose proof (random_support g) as H.
  rewrite E in H. exact H.
Qed.

End Logic.

(** ** The blocks of [advance_generation] *)

Section Transition.

Context {RS : RandomSource}.

(** [s] is what the code computes for the survivors among [n]
    individuals at rate [p]: a binomial draw under demographic noise, the
    rounded product without. *)
Definition survivor_draw (demo_noise : bool) (n : Z) (p : Q) (s : Z) : Prop :=
  if demo_noise then exists g, s = fst (draw_binomial n p g)
  else s = py_round (inject_Z n * p).

(** [b] is what the code computes for the births of [n] females at
    fertility [rate]. *)
Definition birth_draw (demo_noise : bool) (n : Z) (rate : Q) (b : Z) : Prop :=
  if demo_noise then exists g, b = fst (draw_poisson (inject_Z n * rate) g)
  else b = py_round (inject_Z n * rate).

(** [s] is the number of survivors of class [k] of the array [cnt]. *)
Definition class_survival (demo_noise : bool) (cnt : list Z) (rate : list Q)
  (k : nat) (s : Z) : Prop :=
  exists n p, cnt !! k = Some n /\ rate !! k = Some p /\
              survivor_draw demo_noise n p s /\ 0 <= s <= n.

(** The array after aging: survivors [sv] of the classes below the last
    move up one class, the survivors [s_last] of the last class are added
    to the last slot. *)
Definition plus_group (sv : list Z) (s_last : Z) : list Z :=
  alter (fun x => x + s_last) (length sv) (0 :: sv).

Definition nonneg (l : list Z) : Prop := Forall (fun c => 0 <= c) l.
Definition unit_rates (l : list Q) : Prop :=
  Forall (fun s => (0 <= s)%Q /\ (s <= 1)%Q) l.
Definition nonneg_rates (l : list Q) : Prop := Forall (fun r => (0 <= r)%Q) l.

Lemma returns_survivors (demo_noise : bool) (n : Z) (p : Q) :
  0 <= n -> (0 <= p)%Q -> (p <= 1)%Q ->
  returns (if demo_noise then np_random_binomial n p
           else ret (py_round (inject_Z n * p)))
    (fun s => survivor_draw demo_noise n p s /\ 0 <= s <= n).
Proof.
  intros Hn Hp0 Hp1. destruct demo_noise; simpl.
  - apply returns_binomial; assumption.
  - apply returns_ret. split; [reflexivity|]. split.
    + apply py_round_nonneg, Qmult_nonneg; [apply inject_Z_nonneg|]; assumption.
    + apply py_round_le, scaled_le; assumption.
Qed.

Lemma class_survivors_spec (self : Population) (demo_noise : bool)
  (fs ms : list Q) (i : Z) (k : nat) :
  norm_index (length (female self)) i = Some k ->
  (k < length (female self))%nat ->
  length (male self) = length (female self) ->
  length fs = length (female self) ->
  length ms = length (female self) ->
  nonneg (female self) -> nonneg (male self) ->
  unit_rates fs -> unit_rates ms ->
  returns (class_survivors self demo_noise fs ms i)
    (fun sv => class_survival demo_noise (female self) fs k (fst sv) /\
               class_survival demo_noise (male self) ms k (snd sv)).
Proof.
  intros Hi Hk Hm Hfs Hms Hnf Hnm Hrf Hrm.
  destruct (lookup_lt_is_Some_2 (female self) k Hk) as [fi Hfi].
  destruct (lookup_lt_is_Some_2 (male self) k ltac:(lia)) as [mi Hmi].
  destruct (lookup_lt_is_Some_2 fs k ltac:(lia)) as [sf Hsf].
  destruct (lookup_lt_is_Some_2 ms k ltac:(lia)) as [sm Hsm].
  pose proof (Forall_lookup_1 _ _ _ _ Hnf Hfi) as Hfi0.
  pose proof (Forall_lookup_1 _ _ _ _ Hnm Hmi) as Hmi0.
  pose proof (Forall_lookup_1 _ _ _ _ Hrf Hsf) as [Hsf0 Hsf1].
  pose proof (Forall_lookup_1 _ _ _ _ Hrm Hsm) as [Hsm0 Hsm1].
  assert (Gf : getitem (female self) i = ret fi)
    by (eapply getitem_eq; eassumption).
  assert (Gm : getitem (male self) i = ret mi).
  { eapply getitem_eq; [rewrite Hm|]; eassumption. }
  assert (Gsf : getitem fs i = ret sf).
  { eapply getitem_eq; [rewrite Hfs|]; eassumption. }
  assert (Gsm : getitem ms i = ret sm).
  { eapply getitem_eq; [rewrite Hms|]; eassumption. }
  pose proof (returns_survivors demo_noise fi sf Hfi0 Hsf0 Hsf1) as Rf.
  pose proof (returns_survivors demo_noise mi sm Hmi0 Hsm0 Hsm1) as Rm.
  unfold class_survivors. rewrite Gf, Gsf, Gm, Gsm.
  destruct demo_noise.
  - change (returns
              (surv_f <- np_random_binomial fi sf ;;
               surv_m <- np_random_binomial mi sm ;; ret (surv_f, surv_m))
              (fun sv => class_survival true (female self) fs k (fst sv) /\
                         class_survival true (male self) ms k (snd sv))).
    eapply returns_bind; [exact Rf|]. intros a [Ha1 Ha2].
    eapply returns_bind; [exact Rm|]. intros b [Hb1 Hb2].
    apply returns_ret. split; [exists fi, sf|exists mi, sm]; auto.
  - apply returns_ret.
    destruct (Rf (seed_state 0)) as (a & ? & Ea & Ha1 & Ha2).
    destruct (Rm (seed_state 0)) as (b & ? & Eb & Hb1 & Hb2).
    injection Ea as <- _. injection Eb as <- _.
    split; [exists fi, sf|exists mi, sm]; auto.
Qed.

Lemma zeros_replicate {A} (l : list A) :
  map (fun _ => 0) l = replicate (length l) 0.
Proof. induction l as [|x l IH]; simpl; [reflexivity|f_equal; exact IH]. Qed.

(** One slot of the survival loop filled. *)
Lemma alter_next_slot (sv : list Z) (v : Z) (r : nat) :
  alter (fun x => x + v) (S (length sv)) (0 :: sv ++ replicate (S r) 0)
  = 0 :: (sv ++ [v]) ++ replicate r 0.
Proof.
  simpl. f_equal. rewrite <- app_assoc. simpl.
  induction sv as [|x sv IH]; simpl; [reflexivity|].
  f_equal. exact IH.
Qed.

Lemma iadd_next_slot (sv : list Z) (v : Z) (r : nat) (i : Z) :
  i = Z.of_nat (length sv) ->
  iadd (0 :: sv ++ replicate (S r) 0) (i + 1) v
  = ret (0 :: (sv ++ [v]) ++ replicate r 0).
Proof.
  intros ->.
  assert (L : length (0 :: sv ++ replicate (S r) 0) = S (length sv + S r)).
  { change (length (0 :: sv ++ replicate (S r) 0))
      with (S (length (sv ++ replicate (S r) 0))).
    rewrite length_app, length_replicate. reflexivity. }
  rewrite (iadd_eq _ _ (S (length sv)) v).
  - rewrite alter_next_slot. reflexivity.
  - rewrite L. replace (Z.of_nat (length sv) + 1) with (Z.of_nat (S (length sv))) by lia.
    apply norm_index_nat. lia.
  - rewrite L. lia.
Qed.

Lemma iadd_last_slot (sv : list Z) (v : Z) :
  iadd (0 :: sv) (-1) v = ret (plus_group sv v).
Proof.
  rewrite (iadd_eq _ _ (length sv) v); [reflexivity| |simpl; lia].
  simpl length. rewrite norm_index_last by lia. f_equal. lia.
Qed.

Lemma plus_group_length (sv : list Z) (s : Z) :
  length (plus_group sv s) = S (length sv).
Proof. unfold plus_group. rewrite length_alter. reflexivity. Qed.

Lemma nonneg_alter (l : list Z) (k : nat) (v : Z) :
  nonneg l -> 0 <= v -> nonneg (alter (fun x => x + v) k l).
Proof.
  intros Hl Hv. revert k. induction Hl as [|x l Hx Hl IH]; intros k.
  - constructor.
  - destruct k as [|k]; simpl; constructor; try assumption; [lia|apply IH].
Qed.

Lemma nonneg_insert (l : list Z) (k : nat) (v : Z) :
  nonneg l -> 0 <= v -> nonneg (<[k := v]> l).
Proof.
  intros Hl Hv. revert k. induction Hl as [|x l Hx Hl IH]; intros k.
  - constructor.
  - destruct k as [|k]; simpl; constructor; try assumption. apply IH.
Qed.

(** What the survival block returns. *)
Definition survival_post (self : Population) (demo_noise : bool)
  (fs ms : list Q) (st : list Z * list Z) : Prop :=
  let A := length (female self) in
  exists sf sm s_f s_m,
    Forall2
      (fun i s => class_survival demo_noise (female self) fs (Z.to_nat i) s)
      (py_range 0 (Z.of_nat A - 1)) sf /\
    Forall2
      (fun i s => class_survival demo_noise (male self) ms (Z.to_nat i) s)
      (py_range 0 (Z.of_nat A - 1)) sm /\
    class_survival demo_noise (female self) fs (A - 1) s_f /\
    class_survival demo_noise (male self) ms (A - 1) s_m /\
    fst st = plus_group sf s_f /\ snd st = plus_group sm s_m.

Lemma survival_spec (self : Population) (demo_noise : bool) (fs ms : list Q) :
  (0 < length (female self))%nat ->
  length (male self) = length (female self) ->
  length fs = length (female self) ->
  length ms = length (female self) ->
  nonneg (female self) -> nonneg (male self) ->
  unit_rates fs -> unit_rates ms ->
  returns (survival self demo_noise fs ms)
    (survival_post self demo_noise fs ms).
Proof.
  intros HA Hm Hfs Hms Hnf Hnm Hrf Hrm.
  set (A := length (female self)) in *.
  unfold survival. fold A.
  set (Inv := fun (done : list Z) (st : list Z * list Z) =>
    exists sf sm,
      Forall2
        (fun i s => class_survival demo_noise (female self) fs (Z.to_nat i) s)
        done sf /\
      Forall2
        (fun i s => class_survival demo_noise (male self) ms (Z.to_nat i) s)
        done sm /\
      fst st = 0 :: sf ++ replicate (A - 1 - length done) 0 /\
      snd st = 0 :: sm ++ replicate (A - 1 - length done) 0).
  eapply returns_bind.
  - apply (returns_for_each _ Inv).
    + exists [], []. repeat split; try constructor; simpl;
        rewrite zeros_replicate; [fold A|rewrite Hm; fold A];
        replace (A - 1 - 0)%nat with (A - 1)%nat by lia;
        destruct A; [lia| |lia|]; simpl; rewrite Nat.sub_0_r; reflexivity.
    + intros done i rest [nf nm] Hsplit (sf & sm & Hsf & Hsm & Ef & Em).
      simpl in Ef, Em. subst nf nm.
      apply py_range_split in Hsplit. destruct Hsplit as [Hi Hlt].
      pose proof (Forall2_length _ _ _ Hsf) as Lf.
      pose proof (Forall2_length _ _ _ Hsm) as Lm.
      set (k := length done) in *.
      assert (Hk : (k < A - 1)%nat) by lia.
      assert (Hi' : i = Z.of_nat k) by lia.
      unfold survival_body.
      eapply returns_bind.
      * apply (class_survivors_spec self demo_noise fs ms i k); try assumption.
        -- fold A. rewrite Hi'. apply norm_index_nat. lia.
        -- fold A. lia.
      * intros [a b] [Ha Hb]. simpl in Ha, Hb. simpl fst. simpl snd.
        replace (A - 1 - k)%nat with (S (A - 1 - S k)) by lia.
        rewrite (iadd_next_slot sf a) by lia.
        rewrite (iadd_next_slot sm b) by lia.
        apply returns_ret. exists (sf ++ [a]), (sm ++ [b]).
        assert (Ek : Z.to_nat i = k) by lia.
        assert (El : (A - 1 - length (done ++ [i]) = A - 1 - S k)%nat).
        { rewrite length_app. simpl. lia. }
        split; [|split; [|split]].
        -- apply Forall2_app; [exact Hsf|]. constructor; [|constructor].
           rewrite Ek. exact Ha.
        -- apply Forall2_app; [exact Hsm|]. constructor; [|constructor].
           rewrite Ek. exact Hb.
        -- simpl fst. rewrite El. reflexivity.
        -- simpl snd. rewrite El. reflexivity.
  - intros [nf nm] (sf & sm & Hsf & Hsm & Ef & Em). simpl in Ef, Em.
    pose proof (Forall2_length _ _ _ Hsf) as Lf.
    pose proof (Forall2_length _ _ _ Hsm) as Lm.
    rewrite py_range_length in Lf, Lm, Ef, Em.
    replace (A - 1 - Z.to_nat (Z.of_nat A - 1 - 0))%nat with 0%nat in Ef, Em by lia.
    simpl in Ef, Em. rewrite app_nil_r in Ef, Em. subst nf nm.
    eapply returns_bind.
    + apply (class_survivors_spec self demo_noise fs ms (-1) (A - 1)); try assumption.
      * fold A. apply norm_index_last. lia.
      * fold A. lia.
    + intros [a b] [Ha Hb]. simpl in Ha, Hb. simpl fst. simpl snd.
      rewrite iadd_last_slot, iadd_last_slot.
      apply returns_ret. exists sf, sm, a, b. fold A.
      repeat split; assumption.
Qed.

(** *** Reproduction *)

(** [b] is the number of births of the females of class [i] of the array
    [nf]. *)
Definition class_births (demo_noise : bool) (nf : list Z) (ff : list Q)
  (i : Z) (b : Z) : Prop :=
  exists n rate, nf !! Z.to_nat i = Some n /\ ff !! Z.to_nat i = Some rate /\
                 birth_draw demo_noise n rate b /\ 0 <= b.

(** What the reproduction block returns from the aged arrays [nf], [nm]:
    the births [bs] class by class, of which [n_male] are male. *)
Definition reproduction_post (self : Population) (demo_noise : bool)
  (ff : list Q) (nf nm : list Z) (st : list Z * list Z) : Prop :=
  exists bs n_male,
    Forall2 (class_births demo_noise nf ff)
      (py_range (reproduction_age self) (Z.of_nat (length (female self)))) bs /\
    (0 < sum bs ->
     survivor_draw demo_noise (sum bs) (male_birth_prop self) n_male) /\
    0 <= n_male <= sum bs /\
    fst st = <[0%nat := sum bs - n_male]> nf /\
    snd st = <[0%nat := n_male]> nm.

Lemma returns_births (demo_noise : bool) (n : Z) (rate : Q) :
  0 <= n -> (0 <= rate)%Q ->
  returns (if demo_noise then np_random_poisson (inject_Z n * rate)
           else ret (py_round (inject_Z n * rate)))
    (fun b => birth_draw demo_noise n rate b /\ 0 <= b).
Proof.
  intros Hn Hr.
  assert (H : (0 <= inject_Z n * rate)%Q)
    by (apply Qmult_nonneg; [apply inject_Z_nonneg|]; assumption).
  destruct demo_noise; simpl.
  - apply returns_poisson, H.
  - apply returns_ret. split; [reflexivity|apply py_round_nonneg, H].
Qed.

Lemma reproduction_spec (self : Population) (demo_noise : bool)
  (ff : list Q) (nf nm : list Z) :
  (0 < length (female self))%nat ->
  length nf = length (female self) ->
  length nm = length (female self) ->
  length ff = length (female self) ->
  nonneg nf -> nonneg_rates ff ->
  0 <= reproduction_age self ->
  (0 <= male_birth_prop self)%Q -> (male_birth_prop self <= 1)%Q ->
  returns (reproduction self demo_noise ff nf nm)
    (reproduction_post self demo_noise ff nf nm).
Proof.
  intros HA Lnf Lnm Lff Hnf Hff Hra Hp0 Hp1.
  set (A := length (female self)) in *.
  unfold reproduction. fold A.
  set (Inv := fun (done : list Z) (births : Z) =>
    exists bs, Forall2 (class_births demo_noise nf ff) done bs /\
               births = sum bs /\ 0 <= births).
  eapply returns_bind.
  - apply (returns_for_each _ Inv).
    + exists []. repeat split; [constructor|simpl; lia].
    + intros done i rest births Hsplit (bs & Hbs & -> & Hb0).
      apply py_range_split in Hsplit. destruct Hsplit as [Hi Hlt].
      assert (Hk : (Z.to_nat i < A)%nat) by lia.
      assert (Hn : norm_index A i = Some (Z.to_nat i)).
      { rewrite <- (norm_index_nat A (Z.to_nat i) Hk). f_equal. lia. }
      destruct (lookup_lt_is_Some_2 nf (Z.to_nat i) ltac:(lia)) as [n Hnl].
      destruct (lookup_lt_is_Some_2 ff (Z.to_nat i) ltac:(lia)) as [rate Hrl].
      pose proof (Forall_lookup_1 _ _ _ _ Hnf Hnl) as Hn0.
      pose proof (Forall_lookup_1 _ _ _ _ Hff Hrl) as Hr0.
      unfold reproduction_body.
      rewrite (getitem_eq nf i (Z.to_nat i) n) by (rewrite ?Lnf; assumption).
      rewrite (getitem_eq ff i (Z.to_nat i) rate) by (rewrite ?Lff; assumption).
      change (returns
                (births_i <- (if demo_noise
                              then np_random_poisson (inject_Z n * rate)
                              else ret (py_round (inject_Z n * rate))) ;;
                 ret (sum bs + births_i))
                (Inv (done ++ [i]))).
      eapply returns_bind; [apply returns_births; assumption|].
      intros b [Hb Hb1]. apply returns_ret. exists (bs ++ [b]).
      split; [|split].
      * apply Forall2_app; [exact Hbs|]. constructor; [|constructor].
        exists n, rate. auto.
      * rewrite sum_app. simpl. lia.
      * lia.
  - intros births (bs & Hbs & -> & Hb0).
    assert (N0f : norm_index (length nf) 0 = Some 0%nat).
    { rewrite Lnf. apply (norm_index_nat A 0). lia. }
    assert (N0m : norm_index (length nm) 0 = Some 0%nat).
    { rewrite Lnm. apply (norm_index_nat A 0). lia. }
    destruct (0 <? sum bs) eqn:Epos.
    + apply Z.ltb_lt in Epos.
      eapply returns_bind.
      * apply (returns_survivors demo_noise (sum bs) (male_birth_prop self));
          [lia|assumption|assumption].
      * intros n_male [Hd Hr].
        rewrite (setitem_eq nf 0 0 _ N0f).
        rewrite (setitem_eq nm 0 0 _ N0m).
        apply returns_ret. exists bs, n_male. auto.
    + apply Z.ltb_ge in Epos. rewrite bind_ret_l.
      rewrite (setitem_eq nf 0 0 _ N0f), (setitem_eq nm 0 0 _ N0m).
      apply returns_ret. exists bs, 0. simpl.
      replace (sum bs - 0) with 0 by lia.
      split; [exact Hbs|]. split; [lia|]. split; [lia|]. split; reflexivity.
Qed.

(** *** Catastrophe and carrying capacity *)

(** Every count of [l'] lies between zero and the count of [l] in the
    same class. *)
Definition shrunk (l l' : list Z) : Prop :=
  Forall2 (fun c c' => 0 <= c' <= c) l l'.

Lemma shrunk_refl (l : list Z) : nonneg l -> shrunk l l.
Proof. induction 1; constructor; [lia|assumption]. Qed.

Lemma shrunk_nonneg (l l' : list Z) : shrunk l l' -> nonneg l'.
Proof. induction 1; constructor; [lia|assumption]. Qed.

Lemma shrunk_length (l l' : list Z) : shrunk l l' -> length l' = length l.
Proof. intros H. symmetry. exact (Forall2_length _ _ _ H). Qed.

Lemma shrunk_update (l l' : list Z) (k : nat) (c' v : Z) :
  shrunk l l' -> l' !! k = Some c' -> 0 <= v <= c' ->
  shrunk l (<[k := v]> l').
Proof.
  intros H. revert k. induction H as [|c d l l' Hcd H IH]; intros k Hk Hv.
  - discriminate.
  - destruct k as [|k]; simpl in *.
    + injection Hk as ->. constructor; [lia|assumption].
    + constructor; [assumption|]. apply IH; assumption.
Qed.

(** What [Catastrophe.apply] returns from the arrays [st]. *)
Definition catastrophe_post (cat : option Catastrophe)
  (st st' : list Z * list Z) : Prop :=
  match cat with
  | Some _ => shrunk (fst st) (fst st') /\ shrunk (snd st) (snd st')
  | None => st' = st
  end.

Lemma apply_spec (c : Catastrophe) (demo_noise : bool) (nf nm : list Z) :
  length nm = length nf -> nonneg nf -> nonneg nm ->
  (0 <= mortality_rate c)%Q -> (mortality_rate c <= 1)%Q ->
  returns (apply c nf nm demo_noise)
    (fun st' => shrunk nf (fst st') /\ shrunk nm (snd st')).
Proof.
  intros Lm Hnf Hnm Hm0 Hm1.
  assert (Hs0 : (0 <= 1 - mortality_rate c)%Q) by lra.
  assert (Hs1 : (1 - mortality_rate c <= 1)%Q) by lra.
  unfold apply, occurs.
  eapply returns_bind.
  { eapply returns_bind; [apply returns_random|].
    intros u _. apply (returns_ret _ (fun _ => True)). exact I. }
  intros fires _. destruct fires.
  2:{ apply returns_ret. split; apply shrunk_refl; assumption. }
  set (Inv := fun (_ : list Z) (st' : list Z * list Z) =>
                shrunk nf (fst st') /\ shrunk nm (snd st')).
  apply (returns_for_each _ Inv).
  { split; apply shrunk_refl; assumption. }
  intros done i rest [f' m'] Hsplit [Hf Hm]. simpl in Hf, Hm.
  apply py_range_split in Hsplit. destruct Hsplit as [Hi Hlt].
  pose proof (shrunk_length _ _ Hf) as Lf'.
  pose proof (shrunk_length _ _ Hm) as Lm'.
  assert (Hk : (Z.to_nat i < length nf)%nat) by lia.
  assert (Nf : norm_index (length f') i = Some (Z.to_nat i)).
  { rewrite Lf', <- (norm_index_nat _ _ Hk). f_equal. lia. }
  assert (Nm : norm_index (length m') i = Some (Z.to_nat i)).
  { rewrite Lm', Lm, <- (norm_index_nat _ _ Hk). f_equal. lia. }
  destruct (lookup_lt_is_Some_2 f' (Z.to_nat i) ltac:(lia)) as [fi Hfi].
  destruct (lookup_lt_is_Some_2 m' (Z.to_nat i) ltac:(lia)) as [mi Hmi].
  pose proof (Forall_lookup_1 _ _ _ _ (shrunk_nonneg _ _ Hf) Hfi) as Hfi0.
  pose proof (Forall_lookup_1 _ _ _ _ (shrunk_nonneg _ _ Hm) Hmi) as Hmi0.
  pose proof (returns_survivors demo_noise fi _ Hfi0 Hs0 Hs1) as Rf.
  pose proof (returns_survivors demo_noise mi _ Hmi0 Hs0 Hs1) as Rm.
  unfold apply_class. destruct demo_noise.
  - rewrite (getitem_eq f' i _ fi Nf Hfi), bind_ret_l.
    eapply returns_bind; [exact Rf|]. intros a [_ Ha].
    rewrite (setitem_eq f' i _ a Nf), bind_ret_l.
    rewrite (getitem_eq m' i _ mi Nm Hmi), bind_ret_l.
    eapply returns_bind; [exact Rm|]. intros b [_ Hb].
    rewrite (setitem_eq m' i _ b Nm), bind_ret_l.
    apply returns_ret. split; simpl; eapply shrunk_update; eassumption.
  - rewrite (getitem_eq f' i _ fi Nf Hfi), bind_ret_l.
    rewrite (setitem_eq f' i _ _ Nf), bind_ret_l.
    rewrite (getitem_eq m' i _ mi Nm Hmi), bind_ret_l.
    rewrite (setitem_eq m' i _ _ Nm), bind_ret_l.
    destruct (Rf (seed_state 0)) as (a & ? & Ea & _ & Ha).
    destruct (Rm (seed_state 0)) as (b & ? & Eb & _ & Hb).
    injection Ea as <- _. injection Eb as <- _.
    apply returns_ret. split; simpl; eapply shrunk_update; eassumption.
Qed.

(** What the carrying-capacity block returns from the arrays [st]. *)
Definition capacity_post (self : Population) (demo_noise : bool)
  (st st' : list Z * list Z) : Prop :=
  shrunk (fst st) (fst st') /\ shrunk (snd st) (snd st') /\
  (carrying_capacity self = None -> st' = st) /\
  forall K, carrying_capacity self = Some K ->
            (sum (fst st) + sum (snd st) <= K -> st' = st) /\
            (demo_noise = false -> sum (fst st') + sum (snd st') <= K).

Lemma scaled_counts (K T : Z) (l : list Z) :
  nonneg l -> 0 <= K -> 0 < T ->
  map (fun c => astype_int (inject_Z c * (inject_Z K / inject_Z T))) l
  = map (fun c => (c * K) / T) l.
Proof.
  intros Hl HK HT. induction Hl as [|c l Hc Hl IH]; simpl; [reflexivity|].
  rewrite IH, astype_int_scaled by assumption. reflexivity.
Qed.

Lemma shrunk_scaled (K T : Z) (l : list Z) :
  nonneg l -> 0 <= K -> K < T ->
  shrunk l (map (fun c => (c * K) / T) l).
Proof.
  intros Hl HK HT. induction Hl as [|c l Hc Hl IH]; simpl; constructor;
    [|exact IH].
  split.
  - apply Z.div_pos; nia.
  - apply Z.div_le_upper_bound; nia.
Qed.

Lemma shrunk_by_index (l r : list Z) :
  Forall2 (fun i c' => exists c, l !! Z.to_nat i = Some c /\ 0 <= c' <= c)
    (py_range 0 (Z.of_nat (length l))) r ->
  shrunk l r.
Proof.
  intros H. pose proof (Forall2_length _ _ _ H) as L.
  rewrite py_range_length in L.
  apply Forall2_same_length_lookup. split; [lia|].
  intros k c c' Hc Hc'.
  destruct (Forall2_lookup_r _ _ _ _ _ H Hc') as (i & Hi & c0 & Hc0 & Hb).
  apply py_range_lookup in Hi. destruct Hi as [-> _].
  replace (Z.to_nat (0 + Z.of_nat k)) with k in Hc0 by lia.
  rewrite Hc in Hc0. injection Hc0 as <-. exact Hb.
Qed.

Lemma thinning_spec (l : list Z) (ratio : Q) :
  nonneg l -> (0 <= ratio)%Q -> (ratio <= 1)%Q ->
  returns
    (comprehension (fun i => c <- getitem l i ;; np_random_binomial c ratio)
       (py_range 0 (Z.of_nat (length l))))
    (shrunk l).
Proof.
  intros Hl H0 H1. eapply returns_weaken; [|apply shrunk_by_index].
  apply returns_comprehension. intros i Hi.
  apply list_elem_of_In, list_elem_of_lookup in Hi. destruct Hi as [k Hk].
  pose proof (lookup_lt_Some _ _ _ Hk) as Hlt. rewrite py_range_length in Hlt.
  apply py_range_lookup in Hk. destruct Hk as [-> _].
  assert (Hk : (k < length l)%nat) by lia.
  destruct (lookup_lt_is_Some_2 l k Hk) as [c Hc].
  pose proof (Forall_lookup_1 _ _ _ _ Hl Hc) as Hc0.
  rewrite (getitem_eq l _ k c); [|apply (norm_index_nat _ _ Hk)|exact Hc].
  rewrite bind_ret_l. eapply returns_weaken; [apply returns_binomial; assumption|].
  intros r [_ Hr]. exists c. replace (Z.to_nat (0 + Z.of_nat k)) with k by lia.
  auto.
Qed.

Lemma enforce_capacity_spec (self : Population) (demo_noise : bool)
  (nf nm : list Z) :
  length nf = length (female self) -> length nm = length (female self) ->
  nonneg nf -> nonneg nm ->
  (forall K, carrying_capacity self = Some K -> 0 <= K) ->
  returns (enforce_capacity self demo_noise nf nm)
    (capacity_post self demo_noise (nf, nm)).
Proof.
  intros Lf Lm Hnf Hnm HK. unfold enforce_capacity, capacity_post.
  destruct (carrying_capacity self) as [K|] eqn:EK.
  2:{ apply returns_ret. simpl.
      split; [apply shrunk_refl; assumption|].
      split; [apply shrunk_refl; assumption|].
      split; [reflexivity|]. intros K' [=]. }
  specialize (HK K eq_refl).
  set (T := sum nf + sum nm).
  destruct ((K <? T) && (0 <? T)) eqn:Eg.
  2:{ apply returns_ret. simpl.
      split; [apply shrunk_refl; assumption|].
      split; [apply shrunk_refl; assumption|].
      split; [intros [=]|]. intros K' [= <-]. split; [reflexivity|].
      intros _. fold T. apply andb_false_iff in Eg.
      pose proof (sum_nonneg _ Hnf). pose proof (sum_nonneg _ Hnm).
      destruct Eg as [Eg|Eg]; [apply Z.ltb_ge in Eg|apply Z.ltb_ge in Eg];
        unfold T in *; lia. }
  apply andb_true_iff in Eg. destruct Eg as [E1 E2].
  apply Z.ltb_lt in E1. apply Z.ltb_lt in E2.
  destruct (ratio_unit K T HK E1) as [Hr0 Hr1].
  destruct demo_noise.
  - rewrite <- Lf at 1. rewrite <- Lm.
    eapply returns_bind; [apply thinning_spec; assumption|]. intros f' Hf.
    eapply returns_bind; [apply thinning_spec; assumption|]. intros m' Hm.
    apply returns_ret. simpl.
    split; [exact Hf|]. split; [exact Hm|]. split; [intros [=]|].
    intros K' [= <-]. fold T. split; [lia|discriminate].
  - apply returns_ret. simpl.
    rewrite !scaled_counts by assumption.
    split; [apply shrunk_scaled; assumption|].
    split; [apply shrunk_scaled; assumption|].
    split; [intros [=]|]. intros K' [= <-]. fold T. split; [lia|].
    intros _. pose proof (sum_scaled K T nf E2). pose proof (sum_scaled K T nm E2).
    unfold T in *. nia.
Qed.

(** *** The rates of a generation *)

Definition r_fs (r : rates) : list Q := fst (fst (fst r)).
Definition r_ms (r : rates) : list Q := snd (fst (fst r)).
Definition r_ff (r : rates) : list Q := snd (fst r).

Definition baseline (vr : VitalRates) : rates :=
  (female_survival vr, male_survival vr, female_fertility vr,
   male_fertility vr).

(** What [effective_rates] returns: arrays of the baseline's shape, with
    survival in [0, 1] and fertility non-negative; the baseline itself
    without environmental noise. *)
Definition rates_post (vr : VitalRates) (env_noise : bool) (r : rates)
  : Prop :=
  length (r_fs r) = length (female_survival vr) /\
  length (r_ms r) = length (male_survival vr) /\
  length (r_ff r) = length (female_fertility vr) /\
  unit_rates (r_fs r) /\ unit_rates (r_ms r) /\ nonneg_rates (r_ff r) /\
  (env_noise = false -> r = baseline vr).

Lemma clip_unit (x : Q) : (0 <= clip 0 1 x)%Q /\ (clip 0 1 x <= 1)%Q.
Proof.
  unfold clip. destruct (Qltb x 0) eqn:E0; [lra|].
  apply Qltb_ge in E0. destruct (Qltb 1 x) eqn:E1; [lra|].
  apply Qltb_ge in E1. lra.
Qed.

Lemma clip_below_nonneg (x : Q) : (0 <= clip_below 0 x)%Q.
Proof.
  unfold clip_below. destruct (Qltb x 0) eqn:E0; [lra|].
  apply Qltb_ge in E0. exact E0.
Qed.

Lemma clipped_unit (l : list Q) : unit_rates (map (clip 0 1) l).
Proof. induction l; simpl; constructor; [apply clip_unit|assumption]. Qed.

Lemma clipped_nonneg (l : list Q) : nonneg_rates (map (clip_below 0) l).
Proof.
  induction l; simpl; constructor; [apply clip_below_nonneg|assumption].
Qed.

Lemma times_length (a b : list Q) :
  length b = length a -> length (times a b) = length a.
Proof.
  intros H. unfold times. revert b H.
  induction a as [|x a IH]; intros [|y b] H; simpl in *; try lia.
  rewrite IH; lia.
Qed.

Lemma effective_rates_spec (vr : VitalRates) (env_noise : bool) :
  unit_rates (female_survival vr) -> unit_rates (male_survival vr) ->
  nonneg_rates (female_fertility vr) ->
  returns (effective_rates vr env_noise) (rates_post vr env_noise).
Proof.
  intros Hfs Hms Hff. unfold effective_rates. destruct env_noise.
  2:{ apply returns_ret. unfold rates_post, r_fs, r_ms, r_ff. simpl.
      repeat split; assumption. }
  unfold apply_environmental_noise.
  eapply (returns_bind _ _
            (fun sv => length (fst sv) = length (female_survival vr) /\
                       length (snd sv) = length (male_survival vr) /\
                       unit_rates (fst sv) /\ unit_rates (snd sv))).
  { destruct (Qltb 0 (env_sd_survival vr)) eqn:E.
    - apply Qltb_lt in E.
      eapply returns_bind; [apply returns_normal; lra|]. intros n1 L1.
      eapply returns_bind; [apply returns_normal; lra|]. intros n2 L2.
      apply returns_ret. simpl.
      rewrite !length_map, !times_length by assumption.
      repeat split; apply clipped_unit.
    - apply returns_ret. simpl. repeat split; assumption. }
  intros sv (L1 & L2 & U1 & U2).
  eapply (returns_bind _ _
            (fun ft => length (fst ft) = length (female_fertility vr) /\
                       nonneg_rates (fst ft))).
  { destruct (Qltb 0 (env_sd_fertility vr)) eqn:E.
    - apply Qltb_lt in E.
      eapply returns_bind; [apply returns_normal; lra|]. intros n1 L3.
      eapply returns_bind; [apply returns_normal; lra|]. intros n2 L4.
      apply returns_ret. simpl.
      rewrite !length_map, !times_length by assumption.
      split; [reflexivity|apply clipped_nonneg].
    - apply returns_ret. simpl. split; [reflexivity|assumption]. }
  intros ft (L3 & U3). apply returns_ret.
  unfold rates_post, r_fs, r_ms, r_ff. simpl.
  repeat split; try assumption. discriminate.
Qed.

(** *** The whole transition *)

(** The input domain of the data model: one common number of age
    classes, at least one; non-negative counts; survival rates in
    [0, 1]; non-negative fertility; a birth proportion and a mortality
    fraction in [0, 1]; a non-negative capacity and reproduction age. *)
Record well_formed (self : Population) (vr : VitalRates)
  (cat : option Catastrophe) : Prop := {
  wf_classes : (0 < length (female self))%nat;
  wf_male : length (male self) = length (female self);
  wf_fs : length (female_survival vr) = length (female self);
  wf_ms : length (male_survival vr) = length (female self);
  wf_ff : length (female_fertility vr) = length (female self);
  wf_female_counts : nonneg (female self);
  wf_male_counts : nonneg (male self);
  wf_female_survival : unit_rates (female_survival vr);
  wf_male_survival : unit_rates (male_survival vr);
  wf_fertility : nonneg_rates (female_fertility vr);
  wf_prop : (0 <= male_birth_prop self)%Q /\ (male_birth_prop self <= 1)%Q;
  wf_reproduction_age : 0 <= reproduction_age self;
  wf_capacity : forall K, carrying_capacity self = Some K -> 0 <= K;
  wf_mortality :
    forall c, cat = Some c ->
              (0 <= mortality_rate c)%Q /\ (mortality_rate c <= 1)%Q
}.

(** The new object, given the final arrays. *)
Definition updated (self : Population) (st : list Z * list Z) : Population :=
  {| female := fst st; male := snd st;
     carrying_capacity := carrying_capacity self;
     reproduction_age := reproduction_age self;
     male_birth_prop := male_birth_prop self |}.

(** What [advance_generation] returns, block by block. *)
Definition advance_post (self : Population) (vr : VitalRates)
  (cat : option Catastrophe) (demo_noise env_noise : bool)
  (self' : Population) : Prop :=
  exists r st1 st2 st3 st4,
    rates_post vr env_noise r /\
    survival_post self demo_noise (r_fs r) (r_ms r) st1 /\
    reproduction_post self demo_noise (r_ff r) (fst st1) (snd st1) st2 /\
    catastrophe_post cat st2 st3 /\
    capacity_post self demo_noise st3 st4 /\
    self' = updated self st4.

Lemma plus_group_nonneg (sv : list Z) (s : Z) :
  nonneg sv -> 0 <= s -> nonneg (plus_group sv s).
Proof.
  intros Hsv Hs. unfold plus_group. apply nonneg_alter; [|exact Hs].
  constructor; [lia|exact Hsv].
Qed.

Lemma survivors_nonneg (demo_noise : bool) (cnt : list Z) (rate : list Q)
  (l sv : list Z) :
  Forall2 (fun i s => class_survival demo_noise cnt rate (Z.to_nat i) s) l sv ->
  nonneg sv.
Proof.
  induction 1 as [|i s l sv (n & p & _ & _ & _ & Hs) _ IH]; constructor;
    [lia|exact IH].
Qed.

Lemma survival_post_shape (self : Population) (demo_noise : bool)
  (fs ms : list Q) (st : list Z * list Z) :
  (0 < length (female self))%nat ->
  survival_post self demo_noise fs ms st ->
  length (fst st) = length (female self) /\
  length (snd st) = length (female self) /\
  nonneg (fst st) /\ nonneg (snd st).
Proof.
  intros HA (sf & sm & s_f & s_m & Hsf & Hsm & Hf & Hm & -> & ->).
  pose proof (Forall2_length _ _ _ Hsf) as Lf.
  pose proof (Forall2_length _ _ _ Hsm) as Lm.
  rewrite py_range_length in Lf, Lm.
  destruct Hf as (? & ? & _ & _ & _ & Hf). destruct Hm as (? & ? & _ & _ & _ & Hm).
  rewrite !plus_group_length.
  split; [lia|]. split; [lia|].
  split; apply plus_group_nonneg; try lia;
    eapply survivors_nonneg; eassumption.
Qed.

Lemma reproduction_post_shape (self : Population) (demo_noise : bool)
  (ff : list Q) (nf nm st : list Z * list Z) :
  nonneg (fst nf) -> nonneg (snd nf) ->
  reproduction_post self demo_noise ff (fst nf) (snd nf) st ->
  length (fst st) = length (fst nf) /\ length (snd st) = length (snd nf) /\
  nonneg (fst st) /\ nonneg (snd st).
Proof.
  intros Hf Hm (bs & n_male & _ & _ & Hb & -> & ->).
  rewrite !length_insert. repeat split; try reflexivity;
    apply nonneg_insert; try assumption; lia.
Qed.

Lemma advance_generation_spec (self : Population) (vr : VitalRates)
  (cat : option Catastrophe) (demo_noise env_noise : bool) :
  well_formed self vr cat ->
  returns (advance_generation self vr cat demo_noise env_noise)
    (advance_post self vr cat demo_noise env_noise).
Proof.
  intros W. destruct W. unfold advance_generation.
  eapply returns_bind; [apply effective_rates_spec; assumption|].
  intros [[[fs ms] ff] mf] Hr.
  pose proof Hr as (L1 & L2 & L3 & U1 & U2 & U3 & _).
  unfold r_fs, r_ms, r_ff in L1, L2, L3, U1, U2, U3. simpl in L1, L2, L3, U1, U2, U3.
  eapply returns_bind.
  { apply (survival_spec self demo_noise fs ms); try assumption; lia. }
  intros st1 H1.
  destruct (survival_post_shape _ _ _ _ _ wf_classes0 H1) as (A1 & A2 & A3 & A4).
  eapply returns_bind.
  { apply (reproduction_spec self demo_noise ff (fst st1) (snd st1));
      try assumption; try lia; apply wf_prop0. }
  intros st2 H2.
  destruct (reproduction_post_shape _ _ _ st1 st1 st2 A3 A4 H2)
    as (B1 & B2 & B3 & B4).
  eapply (returns_bind _ _ (catastrophe_post cat st2)).
  { destruct cat as [c|]; simpl.
    - destruct (wf_mortality0 c eq_refl).
      apply apply_spec; try assumption; lia.
    - apply returns_ret. reflexivity. }
  intros st3 H3.
  assert (C : length (fst st3) = length (female self) /\
              length (snd st3) = length (female self) /\
              nonneg (fst st3) /\ nonneg (snd st3)).
  { destruct cat; simpl in H3.
    - destruct H3 as [Hf Hm].
      rewrite (shrunk_length _ _ Hf), (shrunk_length _ _ Hm).
      repeat split; try lia; eapply shrunk_nonneg; eassumption.
    - subst st3. repeat split; try assumption; lia. }
  destruct C as (C1 & C2 & C3 & C4).
  eapply returns_bind.
  { apply (enforce_capacity_spec self demo_noise (fst st3) (snd st3));
      assumption. }
  intros st4 H4. apply returns_ret.
  exists (fs, ms, ff, mf), st1, st2, st3, st4.
  destruct st3 as [f3 m3].
  split; [exact Hr|]. split; [exact H1|]. split; [exact H2|].
  split; [exact H3|]. split; [exact H4|]. reflexivity.
Qed.

Lemma advance_post_shape (self self' : Population) (vr : VitalRates)
  (cat : option Catastrophe) (demo_noise env_noise : bool) :
  well_formed self vr cat ->
  advance_post self vr cat demo_noise env_noise self' ->
  length (female self') = length (female self) /\
  length (male self') = length (female self) /\
  nonneg (female self') /\ nonneg (male self').
Proof.
  intros W (r & st1 & st2 & st3 & st4 & Hr & H1 & H2 & H3 & H4 & ->).
  destruct W.
  destruct (survival_post_shape _ _ _ _ _ wf_classes0 H1) as (A1 & A2 & A3 & A4).
  destruct (reproduction_post_shape _ _ _ st1 st1 st2 A3 A4 H2)
    as (B1 & B2 & B3 & B4).
  assert (C : length (fst st3) = length (female self) /\
              length (snd st3) = length (female self) /\
              nonneg (fst st3) /\ nonneg (snd st3)).
  { destruct cat; simpl in H3.
    - destruct H3 as [Hf Hm].
      rewrite (shrunk_length _ _ Hf), (shrunk_length _ _ Hm).
      repeat split; try lia; eapply shrunk_nonneg; eassumption.
    - subst st3. repeat split; try assumption; lia. }
  destruct C as (C1 & C2 & C3 & C4).
  destruct H4 as (Hf & Hm & _). simpl.
  rewrite (shrunk_length _ _ Hf), (shrunk_length _ _ Hm).
  repeat split; try assumption; eapply shrunk_nonneg; eassumption.
Qed.

(** The transition keeps its input domain. *)
Lemma advance_post_well_formed (self self' : Population) (vr : VitalRates)
  (cat : option Catastrophe) (demo_noise env_noise : bool) :
  well_formed self vr cat ->
  advance_post self vr cat demo_noise env_noise self' ->
  well_formed self' vr cat.
Proof.
  intros W H.
  destruct (advance_post_shape _ _ _ _ _ _ W H) as (L1 & L2 & N1 & N2).
  destruct H as (r & st1 & st2 & st3 & st4 & _ & _ & _ & _ & _ & E).
  destruct W. subst self'. simpl in *.
  constructor; simpl; try assumption; lia.
Qed.

Lemma advance_post_capacity (self self' : Population) (vr : VitalRates)
  (cat : option Catastrophe) (env_noise : bool) (K : Z) :
  advance_post self vr cat false env_noise self' ->
  carrying_capacity self = Some K ->
  total_population self' <= K.
Proof.
  intros (r & st1 & st2 & st3 & st4 & _ & _ & _ & _ & H4 & ->) HK.
  destruct H4 as (_ & _ & _ & H4). destruct (H4 K HK) as [_ Hb].
  unfold total_population. simpl. apply Hb. reflexivity.
Qed.

End Transition.

(** ** Computations whose value ignores the generator *)

Section Independence.

Context {RS : RandomSource}.

(** The value of [m] (or the exception it raises) is the same from every
    generator state. *)
Definition state_independent {A} (m : M A) : Prop :=
  forall g g', value (m g) = value (m g').

Lemma si_ret {A} (a : A) : state_independent (ret a).
Proof. intros g g'. reflexivity. Qed.

Lemma si_raise {A} (e : exn) : state_independent (raise (A := A) e).
Proof. intros g g'. reflexivity. Qed.

Lemma si_bind {A B} (m : M A) (k : A -> M B) :
  state_independent m -> (forall a, state_independent (k a)) ->
  state_independent (bind m k).
Proof.
  intros Hm Hk g g'. unfold bind. specialize (Hm g g').
  destruct (m g) as [[a g1]|e], (m g') as [[a' g1']|e']; simpl in Hm;
    try discriminate.
  - injection Hm as <-. apply Hk.
  - injection Hm as <-. reflexivity.
Qed.

Lemma si_for_each {S I} (body : S -> I -> M S) (l : list I) (s : S) :
  (forall s' i, state_independent (body s' i)) ->
  state_independent (for_each body l s).
Proof.
  intros H. revert s. induction l as [|i l IH]; intros s; simpl.
  - apply si_ret.
  - apply si_bind; [apply H|exact IH].
Qed.

Lemma si_getitem {A} (a : list A) (i : Z) : state_independent (getitem a i).
Proof.
  unfold getitem. destruct (norm_index _ _); [|apply si_raise].
  destruct (a !! n); [apply si_ret|apply si_raise].
Qed.

Lemma si_setitem {A} (a : list A) (i : Z) (v : A) :
  state_independent (setitem a i v).
Proof.
  unfold setitem. destruct (norm_index _ _); [apply si_ret|apply si_raise].
Qed.

Lemma si_iadd (a : list Z) (i v : Z) : state_independent (iadd a i v).
Proof.
  unfold iadd. apply si_bind; [apply si_getitem|]. intros. apply si_setitem.
Qed.

(** After [np.random.seed] nothing depends on the earlier state. *)
Lemma si_seeded {A} (s : Z) (k : M A) :
  state_independent (bind (np_random_seed s) (fun _ => k)).
Proof.
  intros g g'. unfold bind, np_random_seed.
  destruct ((s <? 0) || (2 ^ 32 <=? s)); reflexivity.
Qed.

Ltac si_step :=
  first [ apply si_ret | apply si_raise | apply si_getitem | apply si_setitem
        | apply si_iadd | apply si_bind; [|intros ?] ].

Lemma si_class_survivors (self : Population) (fs ms : list Q) (i : Z) :
  state_independent (class_survivors self false fs ms i).
Proof. unfold class_survivors. repeat si_step. Qed.

Lemma si_survival (self : Population) (fs ms : list Q) :
  state_independent (survival self false fs ms).
Proof.
  unfold survival. apply si_bind.
  - apply si_for_each. intros [nf nm] i. unfold survival_body.
    apply si_bind; [apply si_class_survivors|]. intros. repeat si_step.
  - intros [nf nm]. apply si_bind; [apply si_class_survivors|].
    intros. repeat si_step.
Qed.

Lemma si_reproduction (self : Population) (ff : list Q) (nf nm : list Z) :
  state_independent (reproduction self false ff nf nm).
Proof.
  unfold reproduction. apply si_bind.
  - apply si_for_each. intros b i. unfold reproduction_body. repeat si_step.
  - intros births. apply si_bind.
    + destruct (0 <? births); apply si_ret.
    + intros. repeat si_step.
Qed.

Lemma si_enforce_capacity (self : Population) (nf nm : list Z) :
  state_independent (enforce_capacity self false nf nm).
Proof.
  unfold enforce_capacity. destruct (carrying_capacity self); [|apply si_ret].
  destruct (_ && _); apply si_ret.
Qed.

(** A catastrophe whose occurrence is not random: its probability is at
    most 0 (it never fires) or at least 1 (it always fires). *)
Definition certain (c : Catastrophe) : Prop :=
  (probability c <= 0)%Q \/ (1 <= probability c)%Q.

Lemma si_occurs (c : Catastrophe) : certain c -> state_independent (occurs c).
Proof.
  intros Hc g g'. unfold occurs, bind, np_random_random, lift_draw, ret.
  destruct (random_support g) as [H0 H1].
  destruct (random_support g') as [H0' H1'].
  destruct (draw_random g) as [u g1], (draw_random g') as [u' g1'].
  simpl in *. f_equal.
  destruct Hc as [Hc|Hc].
  - rewrite (proj2 (Qltb_ge u _)), (proj2 (Qltb_ge u' _)) by lra. reflexivity.
  - rewrite (proj2 (Qltb_lt u _)), (proj2 (Qltb_lt u' _)) by lra. reflexivity.
Qed.

Lemma si_apply (c : Catastrophe) (nf nm : list Z) :
  certain c -> state_independent (apply c nf nm false).
Proof.
  intros Hc. unfold apply. apply si_bind; [apply si_occurs, Hc|].
  intros [|]; [|apply si_ret].
  apply si_for_each. intros [f' m'] i. unfold apply_class. repeat si_step.
Qed.

Lemma si_advance_generation (self : Population) (vr : VitalRates)
  (cat : option Catastrophe) :
  (forall c, cat = Some c -> certain c) ->
  state_independent (advance_generation self vr cat false false).
Proof.
  intros Hc. unfold advance_generation, effective_rates.
  apply si_bind; [apply si_ret|]. intros [[[fs ms] ff] mf].
  apply si_bind; [apply si_survival|]. intros st1.
  apply si_bind; [apply si_reproduction|]. intros st2.
  apply si_bind.
  { destruct cat as [c|]; [apply si_apply, Hc; reflexivity|apply si_ret]. }
  intros st3. apply si_bind; [apply si_enforce_capacity|]. intros st4.
  apply si_ret.
Qed.

Lemma si_run_replicate (self : Simulation) (base_seed replicate : Z) :
  state_independent (run_replicate self base_seed replicate).
Proof. unfold run_replicate. apply si_seeded. Qed.

Lemma si_run (self : Simulation) (s : Z) :
  seed self = Some s -> state_independent (run self).
Proof.
  intros Hs. unfold run, resolve_base_seed. rewrite Hs.
  apply si_bind; [apply si_ret|]. intros b.
  apply si_bind; [|intros; apply si_ret].
  apply si_for_each. intros acc r.
  apply si_bind; [apply si_run_replicate|]. intros. apply si_ret.
Qed.

End Independence.

(** ** The replicate loop *)

Section Replicates.

Context {RS : RandomSource}.

Lemma bind_Ok {A B} (m : M A) (k : A -> M B) (g g' : rng) (b : B) :
  bind m k g = Ok (b, g') ->
  exists a g1, m g = Ok (a, g1) /\ k a g1 = Ok (b, g').
Proof.
  unfold bind. destruct (m g) as [[a g1]|e]; [|discriminate].
  intros H. exists a, g1. split; [reflexivity|exact H].
Qed.

(** Loop rule for a loop that is known to have returned. *)
Lemma for_each_Ok_from {S I} (body : S -> I -> M S)
  (Inv : list I -> S -> Prop) (l pre : list I) (s s' : S) (g g' : rng) :
  Inv pre s ->
  (forall done i rest s1 g1 s2 g2,
      pre ++ l = done ++ i :: rest -> Inv done s1 ->
      body s1 i g1 = Ok (s2, g2) -> Inv (done ++ [i]) s2) ->
  for_each body l s g = Ok (s', g') -> Inv (pre ++ l) s'.
Proof.
  revert pre s g. induction l as [|i l IH]; intros pre s g H0 Hstep E.
  - simpl in E. injection E as <- _. rewrite app_nil_r. exact H0.
  - simpl in E. apply bind_Ok in E. destruct E as (s1 & g1 & E1 & E2).
    replace (pre ++ i :: l) with ((pre ++ [i]) ++ l)
      by (rewrite <- app_assoc; reflexivity).
    apply (IH (pre ++ [i]) s1 g1).
    + eapply (Hstep pre i l); [reflexivity|exact H0|exact E1].
    + intros done j rest s2 g2 s3 g3 Hsplit. apply (Hstep done j rest).
      rewrite <- Hsplit, <- app_assoc. reflexivity.
    + exact E2.
Qed.

(** The rows recorded by the generation loop over [gens] with threshold
    [q], and the extinction time it leaves: every row but the last is
    above the threshold; the loop ends at the first row at or below it,
    or runs out of generations. *)
Inductive loop_rows (q : Z) : list Z -> list row -> ext_time -> Prop :=
| rows_done : loop_rows q [] [] Never
| rows_break (gen : Z) (gens : list Z) (r : row) :
    generation r = gen -> row_total r <= q ->
    loop_rows q (gen :: gens) [r] (At gen)
| rows_next (gen : Z) (gens : list Z) (r : row) (new : list row)
    (e : ext_time) :
    generation r = gen -> q < row_total r -> loop_rows q gens new e ->
    loop_rows q (gen :: gens) (r :: new) e.

Lemma generation_loop_rows (self : Simulation) (gens : list Z)
  (pop : Population) (records records' : list row) (e : ext_time)
  (g g' : rng) :
  generation_loop self gens pop records g = Ok ((records', e), g') ->
  exists new, records' = records ++ new /\
              loop_rows (q_threshold self) gens new e.
Proof.
  revert pop records g. induction gens as [|gen gens IH]; intros pop records g E.
  - simpl in E. injection E as <- <- _. exists []. rewrite app_nil_r.
    split; [reflexivity|constructor].
  - simpl in E. apply bind_Ok in E. destruct E as (pop1 & g1 & E1 & E2).
    unfold is_extinct in E2.
    destruct (total_population pop1 <=? q_threshold self) eqn:Eq.
    + injection E2 as <- <- _. exists [record_of gen pop1].
      split; [reflexivity|]. constructor; [reflexivity|].
      apply Z.leb_le in Eq. exact Eq.
    + apply IH in E2. destruct E2 as (new & -> & Hnew).
      exists (record_of gen pop1 :: new). rewrite <- app_assoc.
      split; [reflexivity|]. constructor; [reflexivity| |exact Hnew].
      apply Z.leb_gt in Eq. exact Eq.
Qed.


(** Facts about the rows, by position. *)
Lemma loop_rows_lookup (q : Z) (gens : list Z) (new : list row)
  (e : ext_time) :
  loop_rows q gens new e ->
  (length new <= length gens)%nat /\
  (forall k r, new !! k = Some r -> gens !! k = Some (generation r)) /\
  (forall k r, new !! k = Some r -> row_total r <= q ->
               e = At (generation r) /\ length new = S k) /\
  match e with
  | Never => length new = length gens
  | At x => exists k, length new = S k /\ gens !! k = Some x
  end.
Proof.
  induction 1 as [|gen gens r Hg Hq|gen gens r new e Hg Hq H IH].
  - simpl. split; [lia|]. repeat split; intros; discriminate.
  - simpl. split; [lia|]. split; [|split].
    + intros [|k] r' Hk; [|discriminate]. injection Hk as <-.
      simpl. rewrite Hg. reflexivity.
    + intros [|k] r' Hk _; [|discriminate]. injection Hk as <-.
      rewrite Hg. split; reflexivity.
    + exists 0%nat. split; reflexivity.
  - destruct IH as (IH1 & IH2 & IH3 & IH4). simpl. split; [lia|].
    split; [|split].
    + intros [|k] r' Hk; simpl in *.
      * injection Hk as <-. rewrite Hg. reflexivity.
      * apply IH2, Hk.
    + intros [|k] r' Hk Hr; simpl in *.
      * injection Hk as <-. lia.
      * destruct (IH3 k r' Hk Hr) as [-> ->]. split; reflexivity.
    + destruct e as [|x].
      * lia.
      * destruct IH4 as (k & Hk1 & Hk2). exists (S k). simpl. split; [lia|exact Hk2].
Qed.

(** A trajectory as the claims describe it: one row per generation from
    0 to the horizon, and nothing but zero rows after the first
    generation, from 1 on, whose total is at or below the threshold. *)
Definition full_length (self : Simulation) (tr : list row) : Prop :=
  length tr = Z.to_nat (n_generations self + 1) /\
  forall k r, tr !! k = Some r -> generation r = Z.of_nat k.

Definition zero_after_extinction (self : Simulation) (tr : list row) : Prop :=
  forall k r, (1 <= k)%nat -> tr !! k = Some r ->
              row_total r <= q_threshold self ->
              forall j r', (k < j)%nat -> tr !! j = Some r' ->
                           r' = zero_row (Z.of_nat j).

(** The extinction time is a generation from 1 on, or infinite. *)
Definition never_at_zero (self : Simulation) (e : ext_time) : Prop :=
  match e with
  | Never => True
  | At x => 1 <= x <= n_generations self
  end.

(** [tr] and [e] are the trajectory and the extinction time that one
    replicate leaves, started from the generator state [g]. *)
Definition replicate_result (self : Simulation) (g : rng) (tr : list row)
  (e : ext_time) : Prop :=
  exists g', simulate_replicate self g = Ok ((tr, e), g').

Lemma py_range_lookup_Some (a b : Z) (k : nat) :
  (k < Z.to_nat (b - a))%nat -> py_range a b !! k = Some (a + Z.of_nat k).
Proof.
  intros H. unfold py_range. rewrite list_lookup_fmap.
  rewrite lookup_seq_lt by exact H. reflexivity.
Qed.

Lemma padding_lookup (a b : Z) (k : nat) (r : row) :
  map zero_row (py_range a b) !! k = Some r ->
  r = zero_row (a + Z.of_nat k).
Proof.
  rewrite list_lookup_fmap.
  destruct (py_range a b !! k) as [i|] eqn:E; [|discriminate].
  apply py_range_lookup in E. destruct E as [-> _]. simpl.
  intros [= <-]. reflexivity.
Qed.

Lemma replicate_shape (self : Simulation) (g : rng) (tr : list row)
  (e : ext_time) :
  replicate_result self g tr e ->
  exists new,
    loop_rows (q_threshold self) (py_range 1 (n_generations self + 1)) new e /\
    tr = pad self (record_of 0 (initial_population self) :: new) e.
Proof.
  intros [g' E]. unfold simulate_replicate in E.
  apply bind_Ok in E. destruct E as ([records e'] & g1 & E1 & E2).
  injection E2 as <- <- _.
  apply generation_loop_rows in E1. destruct E1 as (new & -> & Hnew).
  exists new. split; [exact Hnew|reflexivity].
Qed.

Lemma replicate_full_length (self : Simulation) (g : rng) (tr : list row)
  (e : ext_time) :
  0 <= n_generations self ->
  replicate_result self g tr e -> full_length self tr.
Proof.
  intros Hn H. apply replicate_shape in H. destruct H as (new & Hnew & ->).
  set (n := n_generations self) in *.
  destruct (loop_rows_lookup _ _ _ _ Hnew) as (L & Hgen & _ & He).
  rewrite py_range_length in L, He.
  assert (Hrow : forall k r,
             (record_of 0 (initial_population self) :: new) !! k = Some r ->
             generation r = Z.of_nat k).
  { intros [|k] r Hk; simpl in Hk.
    - injection Hk as <-. reflexivity.
    - apply Hgen in Hk.
      pose proof (lookup_lt_Some _ _ _ Hk) as Hlt.
      rewrite py_range_length in Hlt.
      rewrite py_range_lookup_Some in Hk by exact Hlt.
      injection Hk as Hk. lia. }
  unfold full_length, pad. fold n. destruct e as [|x].
  - split; [simpl; lia|exact Hrow].
  - destruct He as (k0 & Lk & Hx).
    pose proof (lookup_lt_Some _ _ _ Hx) as Hlt. rewrite py_range_length in Hlt.
    rewrite py_range_lookup_Some in Hx by exact Hlt. injection Hx as Hx.
    destruct (x <? n) eqn:Ex.
    + apply Z.ltb_lt in Ex. split.
      * rewrite length_app, length_map, py_range_length. simpl. lia.
      * intros k r Hk. apply lookup_app_Some in Hk.
        destruct Hk as [Hk|[Hge Hk]]; [apply Hrow, Hk|].
        apply padding_lookup in Hk. subst r. simpl in *. lia.
    + apply Z.ltb_ge in Ex. split; [simpl; lia|exact Hrow].
Qed.

Lemma replicate_zero_after_extinction (self : Simulation) (g : rng)
  (tr : list row) (e : ext_time) :
  replicate_result self g tr e -> zero_after_extinction self tr.
Proof.
  intros H. apply replicate_shape in H. destruct H as (new & Hnew & ->).
  destruct (loop_rows_lookup _ _ _ _ Hnew) as (L & Hgen & Hq & He).
  rewrite py_range_length in L, He.
  intros k r Hk1 Hk Hr j r' Hj Hj'.
  set (row0 := record_of 0 (initial_population self)) in *.
  assert (Hx : forall x, e = At x -> x = Z.of_nat (length new)).
  { intros x ->. destruct He as (k0 & Lk & Hx).
    pose proof (lookup_lt_Some _ _ _ Hx) as Hlt. rewrite py_range_length in Hlt.
    rewrite py_range_lookup_Some in Hx by exact Hlt. injection Hx as Hx. lia. }
  assert (Hpad : forall x, e = At x -> (length (row0 :: new) <= j)%nat ->
                           r' = zero_row (Z.of_nat j)).
  { intros x Ex Hge. pose proof (Hx x Ex) as Hxl. subst e.
    unfold pad in Hj'. destruct (x <? n_generations self).
    - apply lookup_app_Some in Hj'. destruct Hj' as [Hj'|[_ Hj']].
      + apply lookup_lt_Some in Hj'. lia.
      + apply padding_lookup in Hj'. rewrite Hj'. f_equal. simpl in *. lia.
    - apply lookup_lt_Some in Hj'. lia. }
  destruct (decide (k < length (row0 :: new))%nat) as [Hin|Hout].
  - (* the row at or below the threshold is a recorded one: the last *)
    assert (Hk' : (row0 :: new) !! k = Some r).
    { unfold pad in Hk. destruct e as [|x]; [exact Hk|].
      destruct (x <? n_generations self); [|exact Hk].
      rewrite lookup_app_l in Hk by exact Hin. exact Hk. }
    destruct k as [|k]; [lia|]. simpl in Hk'.
    destruct (Hq k r Hk' Hr) as [Ee Ll].
    apply (Hpad _ Ee). simpl. lia.
  - (* it is a padding row: extinction came earlier *)
    destruct e as [|x].
    + unfold pad in Hk. apply lookup_lt_Some in Hk. lia.
    + apply (Hpad x eq_refl). lia.
Qed.

Lemma replicate_never_at_zero (self : Simulation) (g : rng) (tr : list row)
  (e : ext_time) :
  replicate_result self g tr e ->
  tr !! 0%nat = Some (record_of 0 (initial_population self)) /\
  never_at_zero self e.
Proof.
  intros H. apply replicate_shape in H. destruct H as (new & Hnew & ->).
  split.
  - unfold pad. destruct e as [|x]; [reflexivity|].
    destruct (x <? n_generations self); reflexivity.
  - destruct (loop_rows_lookup _ _ _ _ Hnew) as (_ & _ & _ & He).
    destruct e as [|x]; [exact I|]. destruct He as (k0 & _ & Hx).
    apply py_range_lookup in Hx. simpl. lia.
Qed.


(** *** The run as a whole *)

Lemma replicate_seed_range (b r : Z) : 0 <= replicate_seed b r < 2 ^ 32 - 1.
Proof. unfold replicate_seed. apply Z.mod_pos_bound. reflexivity. Qed.

Lemma np_random_seed_eq (b r : Z) (g : rng) :
  np_random_seed (replicate_seed b r) g
  = Ok (tt, seed_state (replicate_seed b r)).
Proof.
  pose proof (replicate_seed_range b r) as H. unfold np_random_seed.
  change (2 ^ 32) with 4294967296 in *.
  replace (replicate_seed b r <? 0) with false
    by (symmetry; apply Z.ltb_ge; lia).
  replace (4294967296 <=? replicate_seed b r) with false
    by (symmetry; apply Z.leb_gt; lia).
  reflexivity.
Qed.

(** The replicates of a run that returned: replicate [k] is simulated
    from the generator seeded with [(base_seed + k) mod (2^32 - 1)]. *)
Definition replicates_of (self : Simulation) (b : Z) (res : SimulationResult)
  : Prop :=
  length (trajectories res) = Z.to_nat (n_replicates self) /\
  length (extinction_times res) = Z.to_nat (n_replicates self) /\
  forall k, (k < Z.to_nat (n_replicates self))%nat ->
            exists tr e,
              trajectories res !! k = Some tr /\
              extinction_times res !! k = Some e /\
              replicate_result self
                (seed_state (replicate_seed b (Z.of_nat k))) tr e.

Lemma run_replicates (self : Simulation) (g g' : rng)
  (res : SimulationResult) :
  run self g = Ok (res, g') ->
  exists b g1, resolve_base_seed self g = Ok (b, g1) /\
               replicates_of self b res.
Proof.
  intros E. unfold run in E.
  apply bind_Ok in E. destruct E as (b & g1 & Eb & E).
  apply bind_Ok in E. destruct E as (acc & g2 & Ea & E).
  injection E as <- _. exists b, g1. split; [exact Eb|].
  set (Inv := fun (done : list Z) (acc : list (list row) * list ext_time) =>
    length (fst acc) = length done /\ length (snd acc) = length done /\
    forall k r, done !! k = Some r ->
                exists tr e, fst acc !! k = Some tr /\ snd acc !! k = Some e /\
                             replicate_result self
                               (seed_state (replicate_seed b r)) tr e).
  assert (H : Inv ([] ++ py_range 0 (n_replicates self)) acc).
  { eapply (for_each_Ok_from _ Inv); [| |exact Ea].
    - repeat split. intros k r [=].
    - intros done i rest [trs es] g3 acc2 g4 _ (L1 & L2 & Hk) Es.
      simpl in L1, L2, Hk.
      apply bind_Ok in Es. destruct Es as ([tr e] & g5 & Er & Es).
      injection Es as <- _. unfold run_replicate, bind in Er.
      rewrite np_random_seed_eq in Er. unfold Inv. simpl fst. simpl snd.
      split; [rewrite !length_app; simpl; lia|].
      split; [rewrite !length_app; simpl; lia|].
      intros k r Hr. apply lookup_app_Some in Hr.
      destruct Hr as [Hr|[Hge Hr]].
      + destruct (Hk k r Hr) as (tr0 & e0 & H1 & H2 & H3).
        exists tr0, e0. split; [apply lookup_app_l_Some, H1|].
        split; [apply lookup_app_l_Some, H2|exact H3].
      + destruct (k - length done)%nat as [|d] eqn:Ed; [|discriminate].
        injection Hr as <-. assert (k = length done) by lia. subst k.
        exists tr, e.
        split; [apply list_lookup_middle; lia|].
        split; [apply list_lookup_middle; lia|].
        exists g5. exact Er. }
  simpl in H. destruct H as (L1 & L2 & Hk). rewrite py_range_length in L1, L2.
  unfold replicates_of. simpl.
  split; [rewrite L1; f_equal; lia|]. split; [rewrite L2; f_equal; lia|].
  intros k Hlt. apply (Hk k (Z.of_nat k)).
  rewrite py_range_lookup_Some by lia. f_equal.
Qed.

(** The input domain of a simulation. *)
Definition wf_sim (self : Simulation) : Prop :=
  well_formed (initial_population self) (vital_rates self) (catastrophe self).

Lemma generation_loop_returns (self : Simulation) (gens : list Z)
  (pop : Population) (records : list row) :
  well_formed pop (vital_rates self) (catastrophe self) ->
  returns (generation_loop self gens pop records) (fun _ => True).
Proof.
  revert pop records. induction gens as [|gen gens IH]; intros pop records W.
  - apply returns_ret. exact I.
  - simpl. eapply returns_bind; [apply advance_generation_spec, W|].
    intros pop1 H1. destruct (is_extinct pop1 (q_threshold self)).
    + apply returns_ret. exact I.
    + apply IH. eapply advance_post_well_formed; eassumption.
Qed.

Lemma run_returns (self : Simulation) :
  wf_sim self -> returns (run self) (fun _ => True).
Proof.
  intros W. unfold run.
  eapply (returns_bind _ _ (fun _ => True)).
  { unfold resolve_base_seed. destruct (seed self); [apply returns_ret, I|].
    intros g. unfold np_random_randint. simpl. unfold lift_draw.
    destruct (draw_randint 0 (2 ^ 32 - 1) g) as [b g1].
    exists b, g1. split; [reflexivity|exact I]. }
  intros b _. eapply (returns_bind _ _ (fun _ => True)); [|intros; apply returns_ret, I].
  apply (returns_for_each _ (fun _ _ => True)); [exact I|].
  intros done i rest acc _ _.
  eapply (returns_bind _ _ (fun _ => True)); [|intros; apply returns_ret, I].
  unfold run_replicate.
  eapply (returns_bind _ _ (fun _ => True)).
  { intros g. rewrite np_random_seed_eq. eexists _, _. split; [reflexivity|exact I]. }
  intros _ _. unfold simulate_replicate.
  eapply returns_bind; [apply generation_loop_returns, W|].
  intros [records e] _. apply returns_ret. exact I.
Qed.

(** The same simulation with another seed argument. *)
Definition with_seed (self : Simulation) (s : option Z) : Simulation :=
  {| vital_rates := vital_rates self;
     initial_females := initial_females self;
     initial_males := initial_males self;
     catastrophe := catastrophe self;
     sim_carrying_capacity := sim_carrying_capacity self;
     n_generations := n_generations self;
     q_threshold := q_threshold self;
     n_replicates := n_replicates self;
     demo_noise := demo_noise self;
     env_noise := env_noise self;
     seed := s |}.

Lemma generation_loop_with_seed (self : Simulation) (s : option Z)
  (gens : list Z) (pop : Population) (records : list row) (g : rng) :
  generation_loop (with_seed self s) gens pop records g
  = generation_loop self gens pop records g.
Proof.
  revert pop records g. induction gens as [|gen gens IH]; intros pop records g.
  - reflexivity.
  - simpl. unfold bind.
    destruct (advance_generation pop _ _ _ _ g) as [[pop1 g1]|e];
      [|reflexivity].
    destruct (is_extinct pop1 (q_threshold self)); [reflexivity|apply IH].
Qed.

Lemma simulate_replicate_with_seed (self : Simulation) (s : option Z)
  (g : rng) :
  simulate_replicate (with_seed self s) g = simulate_replicate self g.
Proof.
  unfold simulate_replicate, bind. simpl.
  change (initial_population (with_seed self s))
    with (initial_population self).
  rewrite generation_loop_with_seed. reflexivity.
Qed.

End Replicates.

(** ** Mean and median *)

(** The number of elements of [l] that satisfy [p]. *)
Fixpoint count (p : Z -> bool) (l : list Z) : nat :=
  match l with
  | [] => 0
  | x :: l' => (if p x then 1 else 0) + count p l'
  end.

(** [m] is a median of [l]: at least half of the values are at or below
    it and at least half are at or above it. *)
Definition is_median (l : list Z) (m : Q) : Prop :=
  (length l <= 2 * count (fun x => Qle_bool (inject_Z x) m) l)%nat /\
  (length l <= 2 * count (fun x => Qle_bool m (inject_Z x)) l)%nat.

Lemma count_mono (p q : Z -> bool) (l : list Z) :
  (forall x, p x = true -> q x = true) -> (count p l <= count q l)%nat.
Proof.
  intros H. induction l as [|x l IH]; simpl; [lia|].
  destruct (p x) eqn:E; [rewrite (H x E); lia|destruct (q x); lia].
Qed.

Lemma count_insert_sorted (p : Z -> bool) (x : Z) (l : list Z) :
  count p (insert_sorted x l) = count p (x :: l).
Proof.
  induction l as [|y l IH]; simpl; [reflexivity|].
  destruct (x <=? y); simpl; [reflexivity|]. rewrite IH. simpl. lia.
Qed.

Lemma count_np_sort (p : Z -> bool) (l : list Z) :
  count p (np_sort l) = count p l.
Proof.
  induction l as [|x l IH]; simpl; [reflexivity|].
  rewrite count_insert_sorted. simpl. rewrite IH. reflexivity.
Qed.

Lemma length_insert_sorted (x : Z) (l : list Z) :
  length (insert_sorted x l) = S (length l).
Proof.
  induction l as [|y l IH]; simpl; [reflexivity|].
  destruct (x <=? y); simpl; [reflexivity|]. rewrite IH. reflexivity.
Qed.

Lemma length_np_sort (l : list Z) : length (np_sort l) = length l.
Proof.
  induction l as [|x l IH]; simpl; [reflexivity|].
  rewrite length_insert_sorted, IH. reflexivity.
Qed.

Lemma Forall_insert_sorted (P : Z -> Prop) (x : Z) (l : list Z) :
  P x -> Forall P l -> Forall P (insert_sorted x l).
Proof.
  intros Hx Hl. induction Hl as [|y l Hy Hl IH]; simpl.
  - constructor; [exact Hx|constructor].
  - destruct (x <=? y); constructor; try assumption.
    constructor; assumption.
Qed.

Lemma sorted_insert_sorted (x : Z) (l : list Z) :
  StronglySorted Z.le l -> StronglySorted Z.le (insert_sorted x l).
Proof.
  induction 1 as [|y l Hl IH Hy]; simpl.
  - constructor; constructor.
  - destruct (x <=? y) eqn:E.
    + apply Z.leb_le in E. constructor; [constructor; assumption|].
      constructor; [exact E|].
      eapply Forall_impl; [exact Hy|]. simpl. intros z Hz. lia.
    + apply Z.leb_gt in E. constructor; [exact IH|].
      apply Forall_insert_sorted; [lia|exact Hy].
Qed.

Lemma sorted_np_sort (l : list Z) : StronglySorted Z.le (np_sort l).
Proof.
  induction l as [|x l IH]; simpl; [constructor|].
  apply sorted_insert_sorted, IH.
Qed.

Lemma count_all (p : Z -> bool) (l : list Z) :
  Forall (fun x => p x = true) l -> count p l = length l.
Proof. induction 1 as [|x l Hx _ IH]; simpl; [reflexivity|]. rewrite Hx, IH. reflexivity. Qed.

(** In a sorted list the value at position [i] has at least [i + 1]
    values at or below it and all the values from [i] on at or above. *)
Lemma sorted_rank (s : list Z) (i : nat) :
  StronglySorted Z.le s -> (i < length s)%nat ->
  (i + 1 <= count (fun x => (x <=? nth i s 0)%Z) s)%nat /\
  (length s - i <= count (fun x => (nth i s 0 <=? x)%Z) s)%nat.
Proof.
  intros Hs. revert i. induction Hs as [|a s Hs IH Ha]; intros i Hi.
  - simpl in Hi. lia.
  - destruct i as [|i]; simpl.
    + rewrite Z.leb_refl. split; [lia|].
      rewrite (count_all (fun x => a <=? x) s).
      * lia.
      * eapply Forall_impl; [exact Ha|]. simpl. intros z Hz.
        apply Z.leb_le. exact Hz.
    + simpl in Hi. destruct (IH i ltac:(lia)) as [H1 H2].
      assert (Hle : a <= nth i s 0).
      { rewrite List.Forall_forall in Ha. apply Ha, nth_In. lia. }
      replace (a <=? nth i s 0) with true by (symmetry; apply Z.leb_le; exact Hle).
      split; [lia|]. destruct (nth i s 0 <=? a); lia.
Qed.

Lemma sorted_nth_le (s : list Z) (i j : nat) :
  StronglySorted Z.le s -> (i <= j)%nat -> (j < length s)%nat ->
  nth i s 0 <= nth j s 0.
Proof.
  intros Hs. revert i j. induction Hs as [|a s Hs IH Ha]; intros i j Hij Hj.
  - simpl in Hj. lia.
  - destruct i as [|i], j as [|j]; simpl in *; try lia.
    + rewrite List.Forall_forall in Ha. apply Ha, nth_In. lia.
    + apply IH; lia.
Qed.

Lemma np_median_is_median (l : list Z) : l <> [] -> is_median l (np_median l).
Proof.
  intros Hne. assert (Hn : (0 < length l)%nat) by (destruct l; simpl; [congruence|lia]).
  pose proof (sorted_np_sort l) as Hs.
  pose proof (length_np_sort l) as Ls.
  unfold is_median, np_median.
  set (s := np_sort l) in *. set (n := length l) in *.
  rewrite <- !(count_np_sort _ l). fold s.
  destruct (Nat.even n) eqn:En.
  - apply Nat.even_spec in En. destruct En as [k Ek].
    assert (Hk : (n / 2 = k)%nat)
      by (symmetry; apply (Nat.div_unique_exact n 2 k); lia).
    rewrite Hk.
    destruct (sorted_rank s (k - 1) Hs ltac:(lia)) as [H1 _].
    destruct (sorted_rank s k Hs ltac:(lia)) as [_ H2].
    pose proof (sorted_nth_le s (k - 1) k Hs ltac:(lia) ltac:(lia)) as Hlh.
    set (lo := nth (k - 1) s 0) in *. set (hi := nth k s 0) in *.
    assert (Hq : (inject_Z lo <= inject_Z hi)%Q) by (rewrite <- Zle_Qle; exact Hlh).
    split.
    + eapply Nat.le_trans; [|apply Nat.mul_le_mono_l, (count_mono (fun x => x <=? lo))].
      * lia.
      * intros x Hx. apply Z.leb_le in Hx. apply Qle_bool_iff.
        assert ((inject_Z x <= inject_Z lo)%Q) by (rewrite <- Zle_Qle; exact Hx).
        apply Qle_shift_div_l; [reflexivity|]. lra.
    + eapply Nat.le_trans; [|apply Nat.mul_le_mono_l, (count_mono (fun x => hi <=? x))].
      * lia.
      * intros x Hx. apply Z.leb_le in Hx. apply Qle_bool_iff.
        assert ((inject_Z hi <= inject_Z x)%Q) by (rewrite <- Zle_Qle; exact Hx).
        apply Qle_shift_div_r; [reflexivity|]. lra.
  - assert (Ho : Nat.odd n = true) by (rewrite <- Nat.negb_even, En; reflexivity).
    apply Nat.odd_spec in Ho. destruct Ho as [k Ek].
    assert (Hk : (n / 2 = k)%nat)
      by (symmetry; apply (Nat.div_unique n 2 k 1); lia).
    rewrite Hk.
    destruct (sorted_rank s k Hs ltac:(lia)) as [H1 H2].
    set (hi := nth k s 0) in *.
    split.
    + eapply Nat.le_trans; [|apply Nat.mul_le_mono_l, (count_mono (fun x => x <=? hi))].
      * lia.
      * intros x Hx. apply Z.leb_le in Hx. apply Qle_bool_iff.
        rewrite <- Zle_Qle. exact Hx.
    + eapply Nat.le_trans; [|apply Nat.mul_le_mono_l, (count_mono (fun x => hi <=? x))].
      * lia.
      * intros x Hx. apply Z.leb_le in Hx. apply Qle_bool_iff.
        rewrite <- Zle_Qle. exact Hx.
Qed.

Lemma np_mean_spec (l : list Z) :
  l <> [] ->
  (np_mean l * inject_Z (Z.of_nat (length l)) == inject_Z (sum l))%Q.
Proof.
  intros Hne. unfold np_mean. field.
  destruct l; [congruence|]. simpl length.
  intros H. unfold Qeq, inject_Z in H. simpl Qnum in H. simpl Qden in H. lia.
Qed.

Lemma count_finite_length (l : list ext_time) :
  count_finite l = Z.of_nat (length (finite_times l)).
Proof.
  induction l as [|[|t] l IH]; simpl length; simpl count_finite; lia.
Qed.

(** ** The range of the machine arithmetic

    The code holds its counts in 64-bit integers and multiplies them by
    rates in binary64; the model computes in [Z] and [Q].  A count above
    [2^53] is no binary64 value, a sum above [2^63] leaves the integer
    range, a fertility or a noise factor that is large enough overflows
    either: there the code wraps around or raises where the model goes
    on.  The predicates of this section delimit the inputs that stay
    clear of all this, with a margin; the statements that say what a
    transition or a run returns are made on these inputs.

    A product that the code rounds to binary64 is specified up to that
    rounding: [near x y] says that [y] is [x] with a relative error of at
    most [2^-50], which covers the few roundings of such a product (each
    is at most [2^-53]).  The exact product is one such [y]. *)

Definition machine_bound : Z := 2 ^ 50.

Definition float_unit : Q := 1 # 1125899906842624.

Definition near (x y : Q) : Prop :=
  (x * (1 - float_unit) <= y)%Q /\ (y <= x * (1 + float_unit))%Q.

(** [z] is [round(y)] for a floating-point value [y] of [x]. *)
Definition rounded (x : Q) (z : Z) : Prop :=
  exists y, near x y /\ z = py_round y.

(** Every female fertility is at most [F]. *)
Definition fertility_below (F : Z) (vr : VitalRates) : Prop :=
  0 <= F /\ Forall (fun f => (f <= inject_Z F)%Q) (female_fertility vr).

(** Environmental noise that cannot overflow a rate: a standard
    deviation of at most 1 for the survival rates, none for the
    fertilities. *)
Definition tame_noise (vr : VitalRates) (env_noise : bool) : Prop :=
  env_noise = true ->
  (env_sd_survival vr <= 1)%Q /\ (env_sd_fertility vr <= 0)%Q.

(** Environmental noise of a standard deviation of at most 1 on
    either kind of rate: enough for a population without births, where
    the noise on the fertilities multiplies zeros. *)
Definition bounded_noise (vr : VitalRates) (env_noise : bool) : Prop :=
  env_noise = true ->
  (env_sd_survival vr <= 1)%Q /\ (env_sd_fertility vr <= 1)%Q.

(** A transition of [self] stays in the machine range: even if every
    individual survives and every female gives [F] births (rounded up),
    the total is at most [2^50]. *)
Definition machine_sized (self : Population) (vr : VitalRates)
  (env_noise : bool) (F : Z) : Prop :=
  fertility_below F vr /\ tame_noise vr env_noise /\
  total_population self * (F + 2) <= machine_bound.

(** A run of [self] stays in the machine range: the bound of
    [machine_sized], compounded over the generations. *)
Definition machine_run (self : Simulation) (F : Z) : Prop :=
  fertility_below F (vital_rates self) /\
  tame_noise (vital_rates self) (env_noise self) /\
  total_population (initial_population self)
  * (F + 2) ^ Z.max 0 (n_generations self) <= machine_bound.

(** A run without demographic noise under a capacity [K] stays in the
    machine range: every total after generation 0 is at most [K]. *)
Definition machine_capped (self : Simulation) (K F : Z) : Prop :=
  fertility_below F (vital_rates self) /\
  tame_noise (vital_rates self) (env_noise self) /\
  Z.max (total_population (initial_population self)) K * (F + 2)
  <= machine_bound.

Lemma near_refl (x : Q) : (0 <= x)%Q -> near x x.
Proof.
  intros H. unfold near, float_unit.
  assert (H1 : (0 <= x * (1 # 1125899906842624))%Q)
    by (apply Qmult_le_0_compat; [exact H|discriminate]).
  split; lra.
Qed.

Lemma rounded_exact (x : Q) : (0 <= x)%Q -> rounded x (py_round x).
Proof. intros H. exists x. split; [apply near_refl, H|reflexivity]. Qed.

(** Membership of a concrete input in the domain. *)
Ltac concrete_domain :=
  constructor; simpl; try lia; try (intros ? [= <-]; simpl);
  repeat first [lia | (unfold Qle; simpl; lia) | discriminate | constructor].

(** Membership of a concrete input in the machine range. *)
Ltac concrete_range :=
  unfold machine_sized, machine_run, machine_capped, fertility_below,
    tame_noise, bounded_noise, machine_bound;
  repeat match goal with
         | |- _ /\ _ => split
         | |- Forall _ _ => constructor
         | |- (_ <= _)%Q => vm_compute; discriminate
         | |- (_ <= _)%Z => vm_compute; discriminate
         | |- _ = true -> _ => first [discriminate | intros _]
         end.

(** * The claims *)

(** ** C1: the carrying capacity *)







Section CapacityScaling.

Context {RS : RandomSource}.


End CapacityScaling.



(** ** C2: the last age class *)

Definition c2_rates : VitalRates :=
  {| female_survival := [1]%Q; male_survival := [1]%Q;
     female_fertility := [0]%Q; male_fertility := [0]%Q;
     env_sd_survival := 0; env_sd_fertility := 0 |}.

Definition c2_population : Population :=
  {| female := [50]; male := [50]; carrying_capacity := Some 50;
     reproduction_age := 1; male_birth_prop := 1 # 2 |}.

(** C2, the failing input.  With a single age class (the population of
    [test_carrying_capacity_deterministic]) all 50 females and 50 males
    survive at rate 1 and are added to class 0, the last class; the
    assignment of the births to class 0 then overwrites them, and the new
    state is empty. *)
Theorem C2_single_class_survivors_overwritten {RS : RandomSource} (g : rng) :
  class_survival false (female c2_population) (female_survival c2_rates)
    0 50 /\
  advance_generation c2_population c2_rates None false false g
  = Ok ({| female := [0]; male := [0]; carrying_capacity := Some 50;
           reproduction_age := 1; male_birth_prop := 1 # 2 |}, g).
Proof.
  split; [|reflexivity].
  exists 50, 1%Q. repeat split; try reflexivity; lia.
Qed.

Section PlusGroup.

Context {RS : RandomSource}.

(** With two classes or more the last class is absorbing: without
    catastrophe and capacity the new last class holds the survivors of
    the last two classes. *)
Lemma last_class_absorbing (self : Population) (vr : VitalRates)
  (demo_noise env_noise : bool) :
  well_formed self vr None ->
  carrying_capacity self = None ->
  (2 <= length (female self))%nat ->
  returns (advance_generation self vr None demo_noise env_noise)
    (fun self' =>
       let A := length (female self) in
       exists r s_prev s_last,
         rates_post vr env_noise r /\
         class_survival demo_noise (female self) (r_fs r) (A - 2) s_prev /\
         class_survival demo_noise (female self) (r_fs r) (A - 1) s_last /\
         female self' !! (A - 1)%nat = Some (s_prev + s_last)).
Proof.
  intros W HK HA.
  eapply returns_weaken; [apply advance_generation_spec, W|].
  intros self' (r & st1 & st2 & st3 & st4 & Hr & H1 & H2 & H3 & H4 & ->).
  simpl in H3. subst st3. destruct H4 as (_ & _ & H4 & _).
  rewrite (H4 HK). clear H4.
  destruct H1 as (sf & sm & s_f & s_m & Hsf & _ & Hf & _ & E1 & _).
  destruct H2 as (bs & n_male & _ & _ & _ & E2 & _).
  pose proof (Forall2_length _ _ _ Hsf) as Lf. rewrite py_range_length in Lf.
  set (A := length (female self)) in *.
  assert (Hl : (A - 2 < length sf)%nat) by lia.
  destruct (lookup_lt_is_Some_2 sf (A - 2) Hl) as [s_prev Hs].
  destruct (Forall2_lookup_r _ _ _ _ _ Hsf Hs) as (i & Hi & Hprev).
  apply py_range_lookup in Hi. destruct Hi as [-> _].
  replace (Z.to_nat (0 + Z.of_nat (A - 2))) with (A - 2)%nat in Hprev by lia.
  exists r, s_prev, s_f. split; [exact Hr|]. split; [exact Hprev|].
  split; [exact Hf|].
  simpl. rewrite E2, E1.
  rewrite list_lookup_insert_ne by lia.
  unfold plus_group. replace (A - 1)%nat with (length sf) by lia.
  rewrite list_lookup_alter_eq.
  replace (length sf) with (S (A - 2)) by lia. simpl. rewrite Hs. reflexivity.
Qed.

End PlusGroup.

(** ** C3: reproduction reads the aged females *)

Definition c3_rates : VitalRates :=
  {| female_survival := [1; 1]%Q; male_survival := [1; 1]%Q;
     female_fertility := [0; 2]%Q; male_fertility := [0; 2]%Q;
     env_sd_survival := 0; env_sd_fertility := 0 |}.

Definition c3_population : Population :=
  {| female := [0; 10]; male := [0; 10]; carrying_capacity := None;
     reproduction_age := 1; male_birth_prop := 1 # 2 |}.

(** The same rates on a population whose females are all in class 0:
    before the transition class 1 is empty, after aging it holds 10. *)
Definition c3_young_population : Population :=
  {| female := [10; 0]; male := [10; 0]; carrying_capacity := None;
     reproduction_age := 1; male_birth_prop := 1 # 2 |}.

Lemma c3_well_formed : well_formed c3_population c3_rates None.
Proof. concrete_domain. Qed.

Section FloatingPoint.

Context {RS : RandomSource}.

(** [s] survivors of [n] individuals at rate [p]: a binomial draw, or
    the rounded floating-point product. *)
Definition survivors_of (demo_noise : bool) (n : Z) (p : Q) (s : Z) : Prop :=
  0 <= s <= n /\
  if demo_noise then exists g, s = fst (draw_binomial n p g)
  else rounded (inject_Z n * p) s.

(** [b] births of [n] females at fertility [rate]: a Poisson draw whose
    mean is the floating-point product, or the rounded floating-point
    product. *)
Definition births_of (demo_noise : bool) (n : Z) (rate : Q) (b : Z) : Prop :=
  0 <= b /\
  if demo_noise
  then exists lam g, near (inject_Z n * rate) lam /\
                     b = fst (draw_poisson lam g)
  else rounded (inject_Z n * rate) b.

Definition class_survivors_of (demo_noise : bool) (cnt : list Z)
  (rate : list Q) (k : nat) (s : Z) : Prop :=
  exists n p, cnt !! k = Some n /\ rate !! k = Some p /\
              survivors_of demo_noise n p s.

Definition class_births_of (demo_noise : bool) (nf : list Z) (ff : list Q)
  (i : Z) (b : Z) : Prop :=
  exists n rate, nf !! Z.to_nat i = Some n /\ ff !! Z.to_nat i = Some rate /\
                 births_of demo_noise n rate b.

Lemma survivors_of_draw (demo_noise : bool) (n : Z) (p : Q) (s : Z) :
  (0 <= p)%Q -> survivor_draw demo_noise n p s -> 0 <= s <= n ->
  survivors_of demo_noise n p s.
Proof.
  intros Hp Hd Hs. split; [exact Hs|]. destruct demo_noise; [exact Hd|].
  simpl in Hd. subst s. apply rounded_exact.
  apply Qmult_le_0_compat; [|exact Hp]. rewrite <- (Zle_Qle 0). lia.
Qed.

Lemma class_survivors_of_survival (demo_noise : bool) (cnt : list Z)
  (rate : list Q) (k : nat) (s : Z) :
  unit_rates rate -> class_survival demo_noise cnt rate k s ->
  class_survivors_of demo_noise cnt rate k s.
Proof.
  intros U (n & p & Hn & Hp & Hd & Hs). exists n, p.
  split; [exact Hn|]. split; [exact Hp|].
  apply survivors_of_draw; try assumption.
  exact (proj1 (Forall_lookup_1 _ _ _ _ U Hp)).
Qed.

Lemma class_births_of_births (demo_noise : bool) (nf : list Z) (ff : list Q)
  (i : Z) (b : Z) :
  nonneg nf -> nonneg_rates ff -> class_births demo_noise nf ff i b ->
  class_births_of demo_noise nf ff i b.
Proof.
  intros Nf Nr (n & rate & Hn & Hr & Hd & Hb). exists n, rate.
  split; [exact Hn|]. split; [exact Hr|]. split; [exact Hb|].
  assert (Hx : (0 <= inject_Z n * rate)%Q).
  { apply Qmult_le_0_compat.
    - rewrite <- (Zle_Qle 0). exact (Forall_lookup_1 _ _ _ _ Nf Hn).
    - exact (Forall_lookup_1 _ _ _ _ Nr Hr). }
  destruct demo_noise; simpl in Hd.
  - destruct Hd as [g ->]. exists (inject_Z n * rate)%Q, g.
    split; [apply near_refl, Hx|reflexivity].
  - subst b. apply rounded_exact, Hx.
Qed.

End FloatingPoint.

(** C3.  A transition from a population in the input domain and in the
    machine range returns, and its new state is built as follows.  The
    aged female array [new_f] holds the survivors (binomial draws under
    demographic noise, rounded floating-point products without) moved up
    one class, those of the last class added to the last slot.  For
    every class [i] from the reproduction age on, [b_i] is a Poisson draw
    of mean [new_f[i] * fertility[i]] under demographic noise and
    [round(new_f[i] * fertility[i])] without, the product being the
    floating-point one; the births are their sum, of which [n_male] (a
    binomial draw, or the rounded product with the male proportion) are
    male; class 0 of the arrays [st2] left by the reproduction block
    holds exactly the births, the other female classes are those of
    [new_f].  Catastrophe and capacity then act on [st2]; without them
    [st2] is the new state.  On the example of the specification the new
    state is female = male = [10; 10]; started from females [10; 0] the
    20 births come from the 10 females aged into class 1. *)
Theorem C3_births_from_aged_females :
  (forall (RS : RandomSource) (self : Population) (vr : VitalRates)
          (cat : option Catastrophe) (demo_noise env_noise : bool) (F : Z)
          (g : rng),
      well_formed self vr cat ->
      machine_sized self vr env_noise F ->
      exists self' g' r sf s_f bs n_male st2 st3,
        advance_generation self vr cat demo_noise env_noise g
        = Ok (self', g') /\
        rates_post vr env_noise r /\
        Forall2 (fun i s => class_survivors_of demo_noise (female self)
                              (r_fs r) (Z.to_nat i) s)
          (py_range 0 (Z.of_nat (length (female self)) - 1)) sf /\
        class_survivors_of demo_noise (female self) (r_fs r)
          (length (female self) - 1) s_f /\
        Forall2 (class_births_of demo_noise (plus_group sf s_f) (r_ff r))
          (py_range (reproduction_age self)
             (Z.of_nat (length (female self)))) bs /\
        (0 < sum bs ->
         survivors_of demo_noise (sum bs) (male_birth_prop self) n_male) /\
        (sum bs = 0 -> n_male = 0) /\
        fst st2 = <[0%nat := sum bs - n_male]> (plus_group sf s_f) /\
        snd st2 !! 0%nat = Some n_male /\
        catastrophe_post cat st2 st3 /\
        capacity_post self demo_noise st3 (female self', male self')) /\
  (forall (RS : RandomSource) (g : rng),
      advance_generation c3_population c3_rates None false false g
      = Ok ({| female := [10; 10]; male := [10; 10];
               carrying_capacity := None; reproduction_age := 1;
               male_birth_prop := 1 # 2 |}, g)) /\
  (forall (RS : RandomSource) (g : rng),
      advance_generation c3_young_population c3_rates None false false g
      = Ok ({| female := [10; 10]; male := [10; 10];
               carrying_capacity := None; reproduction_age := 1;
               male_birth_prop := 1 # 2 |}, g)).
Proof.
  split; [|split; intros; reflexivity].
  intros RS self vr cat demo_noise env_noise F g W _.
  destruct (advance_generation_spec self vr cat demo_noise env_noise W g)
    as (self' & g' & E & r & st1 & st2 & st3 & st4 & Hr & H1 & H2 & H3 & H4 & ->).
  pose proof (survival_post_shape _ _ _ _ _ (wf_classes _ _ _ W) H1)
    as (_ & L2 & N1 & _).
  pose proof Hr as (_ & _ & _ & U1 & _ & U3 & _).
  destruct H1 as (sf & sm & s_f & s_m & Hsf & _ & Hf & _ & E1 & E1').
  destruct H2 as (bs & n_male & Hbs & Hd & Hb & E2 & E2').
  exists (updated self st4), g', r, sf, s_f, bs, n_male, st2, st3.
  rewrite E1 in Hbs, E2, N1.
  split; [exact E|]. split; [exact Hr|]. split.
  { eapply Forall2_impl; [exact Hsf|]. intros i s.
    apply class_survivors_of_survival, U1. }
  split; [exact (class_survivors_of_survival _ _ _ _ _ U1 Hf)|]. split.
  { eapply Forall2_impl; [exact Hbs|]. intros i b.
    apply class_births_of_births; assumption. }
  split.
  { intros Hpos. apply survivors_of_draw;
      [exact (proj1 (wf_prop _ _ _ W))|exact (Hd Hpos)|exact Hb]. }
  split; [lia|]. split; [exact E2|]. split.
  - rewrite E2'. apply list_lookup_insert_eq.
    pose proof (wf_classes _ _ _ W). lia.
  - split; [exact H3|]. simpl. destruct st4. exact H4.
Qed.

Section C3_instance.

#[local] Existing Instance tape_source.

Lemma C3_births_from_aged_females_witness :
  exists self' g' r sf s_f bs n_male st2 st3,
    advance_generation c3_population c3_rates None
      false false (tape []) = Ok (self', g') /\
    rates_post c3_rates false r /\
    Forall2 (fun i s => class_survivors_of false (female c3_population)
                          (r_fs r) (Z.to_nat i) s)
      (py_range 0 (Z.of_nat (length (female c3_population)) - 1)) sf /\
    class_survivors_of false (female c3_population) (r_fs r)
      (length (female c3_population) - 1) s_f /\
    Forall2 (class_births_of false (plus_group sf s_f) (r_ff r))
      (py_range (reproduction_age c3_population)
         (Z.of_nat (length (female c3_population)))) bs /\
    (0 < sum bs ->
     survivors_of false (sum bs) (male_birth_prop c3_population) n_male) /\
    (sum bs = 0 -> n_male = 0) /\
    fst st2 = <[0%nat := sum bs - n_male]> (plus_group sf s_f) /\
    snd st2 !! 0%nat = Some n_male /\
    catastrophe_post None st2 st3 /\
    capacity_post c3_population false st3 (female self', male self').
Proof.
  apply (proj1 C3_births_from_aged_females tape_source c3_population
           c3_rates None false false 2 (tape [])).
  - exact c3_well_formed.
  - concrete_range.
Defined.

End C3_instance.

(** ** C4: determinism without noise *)

Definition c4_rates : VitalRates :=
  {| female_survival := [1; 1]%Q; male_survival := [1; 1]%Q;
     female_fertility := [0; 0]%Q; male_fertility := [0; 0]%Q;
     env_sd_survival := 0; env_sd_fertility := 0 |}.

Definition c4_population : Population :=
  {| female := [10; 10]; male := [10; 10]; carrying_capacity := None;
     reproduction_age := 1; male_birth_prop := 1 # 2 |}.

Definition c4_catastrophe : Catastrophe :=
  {| probability := 1 # 2; mortality_rate := 1 # 2 |}.

(** The catastrophe of [test_catastrophe_deterministic]. *)
Definition c4_certain_catastrophe : Catastrophe :=
  {| probability := 1; mortality_rate := 1 # 2 |}.

(** C4, counterexample.  With both noise flags off and a catastrophe of
    probability 1/2, the same population and rates give two different new
    states: [Catastrophe.occurs] draws a uniform number whatever the
    flags, 0.25 fires the catastrophe and 0.75 does not. *)
Lemma C4_catastrophe_draw_breaks_determinism :
  value (advance_generation (RS := tape_source) c4_population c4_rates
           (Some c4_catastrophe) false false (tape [250]))
  = Ok (updated c4_population ([0; 10], [0; 10])) /\
  value (advance_generation (RS := tape_source) c4_population c4_rates
           (Some c4_catastrophe) false false (tape [750]))
  = Ok (updated c4_population ([0; 20], [0; 20])) /\
  value (advance_generation (RS := tape_source) c4_population c4_rates
           (Some c4_catastrophe) false false (tape [250]))
  <> value (advance_generation (RS := tape_source) c4_population c4_rates
              (Some c4_catastrophe) false false (tape [750])).
Proof.
  split; [vm_compute; reflexivity|]. split; [vm_compute; reflexivity|].
  vm_compute. discriminate.
Qed.

(** C4, amended.  With both noise flags off, and no catastrophe or a
    catastrophe whose probability is at most 0 or at least 1, the new
    state (or the exception raised) is a function of the population and
    the baseline rates alone: two invocations from the same state agree
    whatever the state of the random generator. *)
Theorem C4_deterministic_without_random_catastrophe {RS : RandomSource}
  (self : Population) (vr : VitalRates) (cat : option Catastrophe)
  (g g' : rng) :
  (forall c, cat = Some c -> certain c) ->
  value (advance_generation self vr cat false false g)
  = value (advance_generation self vr cat false false g').
Proof. intros Hc. apply si_advance_generation, Hc. Qed.

Lemma C4_deterministic_without_random_catastrophe_witness :
  value (advance_generation (RS := tape_source) c4_population c4_rates
           (Some c4_certain_catastrophe) false false (tape [250]))
  = value (advance_generation (RS := tape_source) c4_population c4_rates
             (Some c4_certain_catastrophe) false false (tape [750])).
Proof.
  apply (C4_deterministic_without_random_catastrophe (RS := tape_source)).
  intros c [= <-]. right. vm_compute. discriminate.
Defined.

(** ** C5: trajectories of full length, zero rows after extinction *)

Definition c5_simulation : Simulation :=
  {| vital_rates := c4_rates;
     initial_females := [10; 0]; initial_males := [10; 0];
     catastrophe := None; sim_carrying_capacity := None;
     n_generations := 3; q_threshold := 50; n_replicates := 2;
     demo_noise := false; env_noise := false; seed := Some 7 |}.

Lemma c5_well_formed : wf_sim c5_simulation.
Proof. unfold wf_sim. concrete_domain. Qed.

(** C5, counterexample.  The initial total 20 is at or below the
    threshold 50 at generation 0, yet the row of generation 1 is not a
    zero row: the threshold is first tested after the first transition. *)
Lemma C5_row_after_generation_zero_not_zero :
  exists res tr r0 r1,
    value (run (RS := tape_source) c5_simulation (tape [])) = Ok res /\
    trajectories res !! 0%nat = Some tr /\
    tr !! 0%nat = Some r0 /\ row_total r0 <= q_threshold c5_simulation /\
    tr !! 1%nat = Some r1 /\ row_total r1 = 20 /\ row_total r1 <> 0.
Proof.
  eexists _, _, _, _. split; [vm_compute; reflexivity|].
  split; [reflexivity|]. split; [reflexivity|].
  split; [vm_compute; discriminate|]. split; [reflexivity|].
  split; [reflexivity|]. vm_compute. discriminate.
Qed.

(** C5, amended.  For a horizon of [n_generations >= 0], whenever
    [run] returns there is one trajectory per replicate, every trajectory
    has exactly [n_generations + 1] rows, row [k] being that of
    generation [k], and once the total of a row of generation [g >= 1]
    is at or below the threshold every later row is the zero row of its
    generation. *)
Theorem C5_full_trajectories_zero_after_extinction {RS : RandomSource}
  (self : Simulation) (g g' : rng) (res : SimulationResult) :
  0 <= n_generations self ->
  run self g = Ok (res, g') ->
  length (trajectories res) = Z.to_nat (n_replicates self) /\
  Forall (fun tr => full_length self tr /\ zero_after_extinction self tr)
    (trajectories res).
Proof.
  intros Hn E. apply run_replicates in E.
  destruct E as (b & g1 & _ & L1 & L2 & Hk). split; [exact L1|].
  apply Forall_lookup_2. intros k tr Htr.
  pose proof (lookup_lt_Some _ _ _ Htr) as Hlt. rewrite L1 in Hlt.
  destruct (Hk k Hlt) as (tr' & e & Htr' & _ & Hres).
  rewrite Htr in Htr'. injection Htr' as <-.
  split.
  - eapply replicate_full_length; eassumption.
  - eapply replicate_zero_after_extinction; eassumption.
Qed.

Lemma C5_full_trajectories_zero_after_extinction_witness :
  exists res g',
    run (RS := tape_source) c5_simulation (tape []) = Ok (res, g') /\
    length (trajectories res) = Z.to_nat (n_replicates c5_simulation) /\
    Forall (fun tr => full_length c5_simulation tr /\
                      zero_after_extinction c5_simulation tr)
      (trajectories res).
Proof.
  destruct (run (RS := tape_source) c5_simulation (tape []))
    as [[res g']|e] eqn:E; [|vm_compute in E; discriminate].
  exists res, g'. split; [reflexivity|].
  apply (C5_full_trajectories_zero_after_extinction (RS := tape_source)
           c5_simulation (tape []) g' res).
  - simpl. lia.
  - exact E.
Defined.

(** ** C6: reproducibility under an explicit seed *)

Definition c6_rates : VitalRates :=
  {| female_survival := [1 # 2; 7 # 10; 1 # 5]%Q;
     male_survival := [1 # 2; 7 # 10; 1 # 5]%Q;
     female_fertility := [0; 2; 1]%Q; male_fertility := [0; 0; 0]%Q;
     env_sd_survival := 1 # 10; env_sd_fertility := 1 # 10 |}.

Definition c6_simulation : Simulation :=
  {| vital_rates := c6_rates;
     initial_females := [10; 10; 0]; initial_males := [10; 10; 0];
     catastrophe := Some {| probability := 1 # 10; mortality_rate := 1 # 2 |};
     sim_carrying_capacity := Some 60;
     n_generations := 4; q_threshold := 5; n_replicates := 3;
     demo_noise := true; env_noise := true; seed := Some 42 |}.

(** C6.  Two executions of [run] on the same simulation object with an
    explicit seed return the same result, trajectories and extinction
    times alike (or raise the same exception), whatever the state of the
    global generator at each call. *)
Theorem C6_same_seed_same_result {RS : RandomSource} (self : Simulation)
  (s : Z) (g g' : rng) :
  seed self = Some s -> value (run self g) = value (run self g').
Proof. intros Hs. exact (si_run self s Hs g g'). Qed.

Lemma C6_same_seed_same_result_witness :
  value (run (RS := tape_source) c6_simulation (tape [1; 2; 3]))
  = value (run (RS := tape_source) c6_simulation (tape [])).
Proof.
  apply (C6_same_seed_same_result (RS := tape_source) c6_simulation 42).
  reflexivity.
Defined.

(** ** C7: the summary table *)

(** Two floats are the same number, or both the NaN sentinel. *)
Definition same_float (a b : pyfloat) : Prop :=
  match a, b with
  | NaN, NaN => True
  | Fin x, Fin y => (x == y)%Q
  | _, _ => False
  end.

Definition c7_result : SimulationResult :=
  {| trajectories := [];
     extinction_times := [At 3; Never; At 5; Never];
     result_q_threshold := 50 |}.

(** C7.  The summary reports the number of extinction times as the
    replicate count and the number of finite ones as the extinct count;
    the extinction probability is their quotient, NaN without replicates;
    over the finite times alone, the mean is their sum divided by their
    number and the median is a median of them (the middle of the sorted
    values), both NaN when no time is finite.  For the times
    [3, inf, 5, inf] the summary is 4, 2, 0.5, 4.0, 4.0. *)
Theorem C7_summary_statistics :
  (forall res : SimulationResult,
      let times := finite_times (extinction_times res) in
      let s := summary res in
      replicates s = Z.of_nat (length (extinction_times res)) /\
      extinct s = Z.of_nat (length times) /\
      match extinction_times res with
      | [] => extinction_probability s = NaN
      | _ :: _ =>
          extinction_probability s
          = Fin (inject_Z (extinct s) / inject_Z (replicates s))
      end /\
      match times with
      | [] => mean_time_to_extinction s = NaN /\
              median_time_to_extinction s = NaN
      | _ :: _ =>
          exists mean median,
            mean_time_to_extinction s = Fin mean /\
            median_time_to_extinction s = Fin median /\
            (mean * inject_Z (Z.of_nat (length times))
             == inject_Z (sum times))%Q /\
            is_median times median
      end) /\
  (let s := summary c7_result in
   replicates s = 4 /\ extinct s = 2 /\
   same_float (extinction_probability s) (Fin (1 # 2)) /\
   same_float (mean_time_to_extinction s) (Fin 4) /\
   same_float (median_time_to_extinction s) (Fin 4)).
Proof.
  split.
  - intros res times s. unfold s, summary. simpl.
    split; [reflexivity|]. split; [apply count_finite_length|]. split.
    + destruct (extinction_times res) as [|e l]; reflexivity.
    + fold times. destruct times as [|t l] eqn:Et.
      * split; reflexivity.
      * exists (np_mean (t :: l)), (np_median (t :: l)).
        split; [reflexivity|]. split; [reflexivity|].
        split; [apply np_mean_spec; discriminate|].
        apply np_median_is_median. discriminate.
  - vm_compute. repeat split; reflexivity.
Qed.

(** ** C8: construction validates nothing *)

(** C8, counterexample.  A catastrophe with probability -1/2 and
    mortality 2, and vital rates with standard deviations -1, are
    constructed without any rejection. *)
Lemma C8_invalid_parameters_accepted :
  Catastrophe_init (- (1 # 2)) 2
  = Ok {| probability := - (1 # 2); mortality_rate := 2 |} /\
  VitalRates_init [1 # 2] [1 # 2] [1]%Q [0]%Q (- (1)) (- (1))
  = Ok {| female_survival := [1 # 2]; male_survival := [1 # 2];
          female_fertility := [1]%Q; male_fertility := [0]%Q;
          env_sd_survival := - (1); env_sd_fertility := - (1) |}.
Proof. split; reflexivity. Qed.

(** C8, amended.  The constructors of [Catastrophe] and [VitalRates]
    validate nothing: for every probability, mortality rate and pair of
    standard deviations they return an object holding the arguments as
    given. *)
Theorem C8_constructors_accept_every_value :
  (forall p m : Q,
      exists c, Catastrophe_init p m = Ok c /\
                probability c = p /\ mortality_rate c = m) /\
  (forall (fs ms ff mf : list Q) (sd_s sd_f : Q),
      exists vr, VitalRates_init fs ms ff mf sd_s sd_f = Ok vr /\
                 env_sd_survival vr = sd_s /\ env_sd_fertility vr = sd_f /\
                 female_survival vr = fs /\ male_survival vr = ms /\
                 female_fertility vr = ff /\ male_fertility vr = mf).
Proof.
  split.
  - intros p m. eexists. split; [reflexivity|]. split; reflexivity.
  - intros fs ms ff mf sd_s sd_f. eexists. split; [reflexivity|].
    repeat split.
Qed.

(** ** C9: no extinction at generation 0 *)






(** ** C10: the seed of a replicate *)

(** C10.  In a run that returned with base seed [b] (the explicit seed,
    or the one drawn at the start), replicate [k] is the replicate
    simulated from the generator seeded with [(b + k) mod (2^32 - 1)].
    Hence two replicates, of one run or of two runs that differ in the
    seed argument only, whose [b + k] agree modulo [2^32 - 1] have the
    same trajectory and the same extinction time.  Such pairs exist for
    every base seed: replicates 0 and [2^32 - 1] of one run, and every
    replicate of the runs seeded 0 and [2^32 - 1]. *)
Theorem C10_congruent_seeds_identical_replicates :
  (forall (RS : RandomSource) (self : Simulation) (g g' : rng)
          (res : SimulationResult),
      run self g = Ok (res, g') ->
      exists b g1,
        resolve_base_seed self g = Ok (b, g1) /\
        length (trajectories res) = Z.to_nat (n_replicates self) /\
        length (extinction_times res) = Z.to_nat (n_replicates self) /\
        forall k, (k < Z.to_nat (n_replicates self))%nat ->
                  exists tr e g2,
                    trajectories res !! k = Some tr /\
                    extinction_times res !! k = Some e /\
                    simulate_replicate self
                      (seed_state ((b + Z.of_nat k) mod (2 ^ 32 - 1)))
                    = Ok ((tr, e), g2)) /\
  (forall (RS : RandomSource) (self : Simulation) (s1 s2 : option Z)
          (g1 g2 g1' g2' gb1 gb2 : rng) (res1 res2 : SimulationResult)
          (b1 b2 : Z) (k1 k2 : nat),
      run (with_seed self s1) g1 = Ok (res1, g1') ->
      run (with_seed self s2) g2 = Ok (res2, g2') ->
      resolve_base_seed (with_seed self s1) g1 = Ok (b1, gb1) ->
      resolve_base_seed (with_seed self s2) g2 = Ok (b2, gb2) ->
      (k1 < Z.to_nat (n_replicates self))%nat ->
      (k2 < Z.to_nat (n_replicates self))%nat ->
      (b1 + Z.of_nat k1) mod (2 ^ 32 - 1)
      = (b2 + Z.of_nat k2) mod (2 ^ 32 - 1) ->
      is_Some (trajectories res1 !! k1) /\
      trajectories res1 !! k1 = trajectories res2 !! k2 /\
      extinction_times res1 !! k1 = extinction_times res2 !! k2) /\
  (forall b k, replicate_seed b k = (b + k) mod (2 ^ 32 - 1)) /\
  (forall b, (b + 0) mod (2 ^ 32 - 1)
             = (b + (2 ^ 32 - 1)) mod (2 ^ 32 - 1)) /\
  (forall k, (0 + k) mod (2 ^ 32 - 1)
             = (2 ^ 32 - 1 + k) mod (2 ^ 32 - 1)).
Proof.
  split.
  { intros RS self g g' res E. apply run_replicates in E.
    destruct E as (b & g1 & Eb & L1 & L2 & H). exists b, g1.
    split; [exact Eb|]. split; [exact L1|]. split; [exact L2|].
    intros k Hk. destruct (H k Hk) as (tr & e & Htr & He & [g2 R]).
    exists tr, e, g2. split; [exact Htr|]. split; [exact He|exact R]. }
  split.
  - intros RS self s1 s2 g1 g2 g1' g2' gb1 gb2 res1 res2 b1 b2 k1 k2
           E1 E2 B1 B2 Hk1 Hk2 Hc.
    apply run_replicates in E1, E2.
    destruct E1 as (b1' & gb1' & B1' & _ & _ & H1).
    destruct E2 as (b2' & gb2' & B2' & _ & _ & H2).
    rewrite B1 in B1'. injection B1' as <- _.
    rewrite B2 in B2'. injection B2' as <- _.
    destruct (H1 k1 Hk1) as (tr1 & e1 & T1 & X1 & [h1 R1]).
    destruct (H2 k2 Hk2) as (tr2 & e2 & T2 & X2 & [h2 R2]).
    rewrite simulate_replicate_with_seed in R1, R2.
    unfold replicate_seed in R1, R2. rewrite Hc in R1.
    rewrite R1 in R2. injection R2 as <- <- _.
    rewrite T1, T2, X1, X2. split; [eexists; reflexivity|].
    split; reflexivity.
  - split; [reflexivity|]. split.
    + intros b. set (m := 2 ^ 32 - 1).
      replace (b + m) with (b + 0 + 1 * m) by lia.
      rewrite Z.mod_add by discriminate. reflexivity.
    + intros k. set (m := 2 ^ 32 - 1).
      replace (m + k) with (0 + k + 1 * m) by lia.
      rewrite Z.mod_add by discriminate. reflexivity.
Qed.

(** The simulation of C6 with base seeds 5 and [5 + (2^32 - 1)]. *)
Lemma C10_congruent_seeds_identical_replicates_witness :
  exists res1 res2 g1' g2',
    run (RS := tape_source) (with_seed c6_simulation (Some 5)) (tape [])
    = Ok (res1, g1') /\
    run (RS := tape_source) (with_seed c6_simulation (Some 4294967300))
      (tape [9]) = Ok (res2, g2') /\
    trajectories res1 !! 1%nat = trajectories res2 !! 1%nat /\
    extinction_times res1 !! 1%nat = extinction_times res2 !! 1%nat.
Proof.
  destruct (run (RS := tape_source) (with_seed c6_simulation (Some 5))
              (tape [])) as [[res1 g1']|e] eqn:E1; [|vm_compute in E1; discriminate].
  destruct (run (RS := tape_source) (with_seed c6_simulation (Some 4294967300))
              (tape [9])) as [[res2 g2']|e] eqn:E2; [|vm_compute in E2; discriminate].
  exists res1, res2, g1', g2'. split; [reflexivity|]. split; [reflexivity|].
  apply (proj1 (proj2 C10_congruent_seeds_identical_replicates)
           tape_source c6_simulation (Some 5) (Some 4294967300)
           (tape []) (tape [9]) g1' g2' (tape []) (tape [9])
           res1 res2 5 4294967300 1%nat 1%nat E1 E2).
  - reflexivity.
  - reflexivity.
  - vm_compute. lia.
  - vm_compute. lia.
  - reflexivity.
Defined.


(** * Further properties of the code *)

(** Example inputs. *)

Definition ex_rates : VitalRates :=
  {| female_survival := [1 # 2; 3 # 4]%Q; male_survival := [1 # 2; 3 # 4]%Q;
     female_fertility := [0; 2]%Q; male_fertility := [0; 0]%Q;
     env_sd_survival := 1 # 10; env_sd_fertility := 1 # 5 |}.

(** The same rates, with environmental noise on the survival rates
    only. *)
Definition ex_tame_rates : VitalRates :=
  {| female_survival := [1 # 2; 3 # 4]%Q; male_survival := [1 # 2; 3 # 4]%Q;
     female_fertility := [0; 2]%Q; male_fertility := [0; 0]%Q;
     env_sd_survival := 1 # 10; env_sd_fertility := 0 |}.

Definition ex_population : Population :=
  {| female := [6; 4]; male := [5; 3]; carrying_capacity := Some 12;
     reproduction_age := 1; male_birth_prop := 1 # 2 |}.

Definition ex_catastrophe : Catastrophe :=
  {| probability := 1 # 10; mortality_rate := 1 # 2 |}.

Lemma ex_well_formed :
  well_formed ex_population ex_rates (Some ex_catastrophe).
Proof. concrete_domain. Qed.

Lemma ex_tame_well_formed :
  well_formed ex_population ex_tame_rates (Some ex_catastrophe).
Proof. concrete_domain. Qed.

Definition ex_single_rates : VitalRates :=
  {| female_survival := [9 # 10]%Q; male_survival := [4 # 5]%Q;
     female_fertility := [3]%Q; male_fertility := [0]%Q;
     env_sd_survival := 0; env_sd_fertility := 0 |}.

Definition ex_single_population : Population :=
  {| female := [7]; male := [9]; carrying_capacity := None;
     reproduction_age := 1; male_birth_prop := 1 # 2 |}.

(** ** More arithmetic *)

Lemma py_round_integer (x : Q) (n : Z) : (x == inject_Z n)%Q -> py_round x = n.
Proof.
  intros H. unfold py_round.
  assert (Hf : Qfloor x = n) by (rewrite H; apply Qfloor_Z).
  rewrite Hf.
  assert (Hd : (x - inject_Z n < 1 # 2)%Q) by (rewrite H; lra).
  destruct (Qcompare _ _) eqn:Ec; [|reflexivity|].
  - apply Qeq_alt in Ec. lra.
  - apply Qgt_alt in Ec. lra.
Qed.

Lemma py_round_unit_rate (n : Z) (p : Q) :
  (p == 1)%Q -> py_round (inject_Z n * p) = n.
Proof. intros H. apply py_round_integer. rewrite H. ring. Qed.

Lemma py_round_zero_rate (n : Z) (p : Q) :
  (p == 0)%Q -> py_round (inject_Z n * p) = 0.
Proof. intros H. apply py_round_integer. rewrite H. ring. Qed.

Lemma py_round_zero_count (p : Q) : py_round (inject_Z 0 * p) = 0.
Proof. apply py_round_integer. ring. Qed.

Lemma sum_alter_last (a : Z) (sv : list Z) (s : Z) :
  sum (alter (fun x => x + s) (length sv) (a :: sv)) = a + sum sv + s.
Proof.
  revert a. induction sv as [|x sv IH]; intros a; [simpl; lia|].
  change (a + sum (alter (fun y => y + s) (length sv) (x :: sv))
          = a + (x + sum sv) + s).
  rewrite IH. lia.
Qed.

Lemma sum_plus_group (sv : list Z) (s : Z) :
  sum (plus_group sv s) = sum sv + s.
Proof. unfold plus_group. rewrite sum_alter_last. lia. Qed.

Lemma py_range_empty_above (a b : Z) : b <= a -> py_range a b = [].
Proof.
  intros H. unfold py_range. replace (Z.to_nat (b - a)) with 0%nat by lia.
  reflexivity.
Qed.

Lemma sum_take_drop (l : list Z) (k : nat) :
  sum l = sum (take k l) + sum (drop k l).
Proof. rewrite <- (take_drop k l) at 1. apply sum_app. Qed.

Lemma sum_replicate_zero (n : nat) : sum (replicate n 0) = 0.
Proof. induction n as [|n IH]; simpl; [reflexivity|exact IH]. Qed.



Lemma shrunk_sum (l l' : list Z) : shrunk l l' -> sum l' <= sum l.
Proof. induction 1; simpl; lia. Qed.

(** ** The transition, further *)

Section TransitionFacts.

Context {RS : RandomSource}.

Lemma returns_and {A} (m : M A) (P R : A -> Prop) :
  returns m P -> returns m R -> returns m (fun a => P a /\ R a).
Proof.
  intros HP HR g. destruct (HP g) as (a & g1 & E & Ha).
  destruct (HR g) as (a' & g1' & E' & Ha').
  rewrite E in E'. injection E' as <- _.
  exists a, g1. split; [exact E|]. split; assumption.
Qed.

(** What a computation returned is what its specification says. *)
Lemma returns_Ok {A} (m : M A) (P : A -> Prop) (g g' : rng) (a : A) :
  returns m P -> m g = Ok (a, g') -> P a.
Proof.
  intros H E. destruct (H g) as (a' & g1 & E' & Ha).
  rewrite E in E'. injection E' as <- _. exact Ha.
Qed.

Lemma bind_Ok_eq {A B} (m : M A) (k : A -> M B) (g g1 : rng) (a : A) :
  m g = Ok (a, g1) -> bind m k g = k a g1.
Proof. intros E. unfold bind. rewrite E. reflexivity. Qed.

Definition r_mf (r : rates) : list Q := snd r.

Definition zero_rates (l : list Q) : Prop := Forall (fun x => (x == 0)%Q) l.
Definition one_rates (l : list Q) : Prop := Forall (fun x => (x == 1)%Q) l.

Lemma clipped_zero (l noise : list Q) :
  zero_rates l -> zero_rates (map (clip_below 0) (times l noise)).
Proof.
  intros H. revert noise. unfold times.
  induction H as [|x l Hx Hl IH]; intros [|y noise]; simpl; try constructor.
  - unfold clip_below.
    assert (E : (x * y == 0)%Q) by (rewrite Hx; ring).
    destruct (Qltb (x * y) 0) eqn:El; [reflexivity|exact E].
  - apply IH.
Qed.

(** [apply_environmental_noise] raises nothing and keeps the four
    shapes; a channel whose standard deviation is not positive is the
    baseline; a noisy survival lies in [0, 1] and a noisy fertility is
    non-negative, whatever the baseline; zero fertility stays zero. *)
Definition noise_post (vr : VitalRates) (r : rates) : Prop :=
  length (r_fs r) = length (female_survival vr) /\
  length (r_ms r) = length (male_survival vr) /\
  length (r_ff r) = length (female_fertility vr) /\
  length (r_mf r) = length (male_fertility vr) /\
  ((env_sd_survival vr <= 0)%Q ->
   r_fs r = female_survival vr /\ r_ms r = male_survival vr) /\
  ((env_sd_fertility vr <= 0)%Q ->
   r_ff r = female_fertility vr /\ r_mf r = male_fertility vr) /\
  ((0 < env_sd_survival vr)%Q -> unit_rates (r_fs r) /\ unit_rates (r_ms r)) /\
  ((0 < env_sd_fertility vr)%Q ->
   nonneg_rates (r_ff r) /\ nonneg_rates (r_mf r)) /\
  (zero_rates (female_fertility vr) -> zero_rates (r_ff r)).

Lemma apply_environmental_noise_post (vr : VitalRates) :
  returns (apply_environmental_noise vr) (noise_post vr).
Proof.
  unfold apply_environmental_noise.
  eapply (returns_bind _ _
            (fun sv => length (fst sv) = length (female_survival vr) /\
                       length (snd sv) = length (male_survival vr) /\
                       ((env_sd_survival vr <= 0)%Q ->
                        fst sv = female_survival vr /\
                        snd sv = male_survival vr) /\
                       ((0 < env_sd_survival vr)%Q ->
                        unit_rates (fst sv) /\ unit_rates (snd sv)))).
  { destruct (Qltb 0 (env_sd_survival vr)) eqn:E.
    - apply Qltb_lt in E.
      eapply returns_bind; [apply returns_normal; lra|]. intros n1 L1.
      eapply returns_bind; [apply returns_normal; lra|]. intros n2 L2.
      apply returns_ret. simpl.
      rewrite !length_map, !times_length by assumption.
      split; [reflexivity|]. split; [reflexivity|]. split; [intros; lra|].
      intros _. split; apply clipped_unit.
    - apply Qltb_ge in E. apply returns_ret. simpl.
      split; [reflexivity|]. split; [reflexivity|].
      split; [intros _; split; reflexivity|]. intros; lra. }
  intros sv (L1 & L2 & B1 & U1).
  eapply (returns_bind _ _
            (fun ft => length (fst ft) = length (female_fertility vr) /\
                       length (snd ft) = length (male_fertility vr) /\
                       ((env_sd_fertility vr <= 0)%Q ->
                        fst ft = female_fertility vr /\
                        snd ft = male_fertility vr) /\
                       ((0 < env_sd_fertility vr)%Q ->
                        nonneg_rates (fst ft) /\ nonneg_rates (snd ft)) /\
                       (zero_rates (female_fertility vr) ->
                        zero_rates (fst ft)))).
  { destruct (Qltb 0 (env_sd_fertility vr)) eqn:E.
    - apply Qltb_lt in E.
      eapply returns_bind; [apply returns_normal; lra|]. intros n1 L3.
      eapply returns_bind; [apply returns_normal; lra|]. intros n2 L4.
      apply returns_ret. simpl.
      rewrite !length_map, !times_length by assumption.
      split; [reflexivity|]. split; [reflexivity|]. split; [intros; lra|].
      split; [intros _; split; apply clipped_nonneg|].
      apply clipped_zero.
    - apply Qltb_ge in E. apply returns_ret. simpl.
      split; [reflexivity|]. split; [reflexivity|].
      split; [intros _; split; reflexivity|]. split; [intros; lra|].
      intros H; exact H. }
  intros ft (L3 & L4 & B2 & U2 & Z2). apply returns_ret.
  unfold noise_post, r_fs, r_ms, r_ff, r_mf. simpl.
  repeat (split; [assumption|]). assumption.
Qed.

(** The rates of a generation keep zero fertility at zero and, without
    environmental noise or with non-positive standard deviations, are
    the baseline. *)
Definition rates_kept (vr : VitalRates) (env_noise : bool) (r : rates)
  : Prop :=
  (zero_rates (female_fertility vr) -> zero_rates (r_ff r)) /\
  (env_noise = false \/
   ((env_sd_survival vr <= 0)%Q /\ (env_sd_fertility vr <= 0)%Q) ->
   r = baseline vr).

Lemma effective_rates_kept (vr : VitalRates) (env_noise : bool) :
  returns (effective_rates vr env_noise) (rates_kept vr env_noise).
Proof.
  unfold effective_rates. destruct env_noise.
  - eapply returns_weaken; [apply apply_environmental_noise_post|].
    intros [[[fs ms] ff] mf] (_ & _ & _ & _ & B1 & B2 & _ & _ & Z).
    unfold r_fs, r_ms, r_ff, r_mf in *. simpl in *.
    split; [exact Z|]. intros [H|[H1 H2]]; [discriminate|].
    destruct (B1 H1) as [-> ->]. destruct (B2 H2) as [-> ->]. reflexivity.
  - apply returns_ret. split; [intros H; exact H|reflexivity].
Qed.

(** The block-by-block description of a transition, with the facts
    [rates_kept] about the rates it used. *)
Lemma advance_generation_blocks (self : Population) (vr : VitalRates)
  (cat : option Catastrophe) (demo_noise env_noise : bool) :
  well_formed self vr cat ->
  returns (advance_generation self vr cat demo_noise env_noise)
    (fun self' =>
       exists r st1 st2 st3 st4,
         rates_kept vr env_noise r /\
         rates_post vr env_noise r /\
         survival_post self demo_noise (r_fs r) (r_ms r) st1 /\
         reproduction_post self demo_noise (r_ff r) (fst st1) (snd st1) st2 /\
         catastrophe_post cat st2 st3 /\
         capacity_post self demo_noise st3 st4 /\
         self' = updated self st4).
Proof.
  intros W. pose proof W as W0. destruct W. unfold advance_generation.
  eapply returns_bind.
  { apply returns_and;
      [apply effective_rates_kept|apply effective_rates_spec; assumption]. }
  intros [[[fs ms] ff] mf] [Hk Hr].
  pose proof Hr as (L1 & L2 & L3 & U1 & U2 & U3 & _).
  unfold r_fs, r_ms, r_ff in L1, L2, L3, U1, U2, U3.
  simpl in L1, L2, L3, U1, U2, U3.
  eapply returns_bind.
  { apply (survival_spec self demo_noise fs ms); try assumption; lia. }
  intros st1 H1.
  destruct (survival_post_shape _ _ _ _ _ wf_classes0 H1)
    as (A1 & A2 & A3 & A4).
  eapply returns_bind.
  { apply (reproduction_spec self demo_noise ff (fst st1) (snd st1));
      try assumption; try lia; apply wf_prop0. }
  intros st2 H2.
  destruct (reproduction_post_shape _ _ _ st1 st1 st2 A3 A4 H2)
    as (B1 & B2 & B3 & B4).
  eapply (returns_bind _ _ (catastrophe_post cat st2)).
  { destruct cat as [c|]; simpl.
    - destruct (wf_mortality0 c eq_refl).
      apply apply_spec; try assumption; lia.
    - apply returns_ret. reflexivity. }
  intros st3 H3.
  assert (C : length (fst st3) = length (female self) /\
              length (snd st3) = length (female self) /\
              nonneg (fst st3) /\ nonneg (snd st3)).
  { destruct cat; simpl in H3.
    - destruct H3 as [Hf Hm].
      rewrite (shrunk_length _ _ Hf), (shrunk_length _ _ Hm).
      repeat split; try lia; eapply shrunk_nonneg; eassumption.
    - subst st3. repeat split; try assumption; lia. }
  destruct C as (C1 & C2 & C3 & C4).
  eapply returns_bind.
  { apply (enforce_capacity_spec self demo_noise (fst st3) (snd st3));
      assumption. }
  intros st4 H4. apply returns_ret.
  exists (fs, ms, ff, mf), st1, st2, st3, st4.
  destruct st3 as [f3 m3].
  split; [exact Hk|]. split; [exact Hr|]. split; [exact H1|].
  split; [exact H2|]. split; [exact H3|]. split; [exact H4|]. reflexivity.
Qed.

End TransitionFacts.

Section TransitionTotals.

Context {RS : RandomSource}.

(** The survivors of the classes of a range, class by class: each is
    drawn from the count of its class at a rate of the array and lies
    between zero and that count. *)
Lemma survivors_by_class (demo_noise : bool) (cnt : list Z) (rate : list Q)
  (a : nat) (b : Z) (sv : list Z) :
  Forall2 (fun i s => class_survival demo_noise cnt rate (Z.to_nat i) s)
    (py_range (Z.of_nat a) b) sv ->
  Forall2 (fun n s => 0 <= s <= n /\
                      exists p, In p rate /\ survivor_draw demo_noise n p s)
    (take (Z.to_nat b - a) (drop a cnt)) sv.
Proof.
  revert a. induction sv as [|s sv IH]; intros a H.
  - apply Forall2_nil_inv_r in H.
    pose proof (f_equal (@length Z) H) as L. rewrite py_range_length in L.
    simpl in L. replace (Z.to_nat b - a)%nat with 0%nat by lia. constructor.
  - assert (Hab : Z.of_nat a < b).
    { pose proof (Forall2_length _ _ _ H) as L. rewrite py_range_length in L.
      simpl in L. lia. }
    rewrite py_range_cons in H by exact Hab.
    inversion H as [|i s' l sv' Hc Hrest]; subst.
    destruct Hc as (n & p & Hn & Hp & Hd & Hb).
    rewrite Nat2Z.id in Hn, Hp.
    replace (Z.of_nat a + 1) with (Z.of_nat (S a)) in Hrest by lia.
    apply IH in Hrest.
    rewrite (drop_S cnt n a Hn).
    replace (Z.to_nat b - a)%nat with (S (Z.to_nat b - S a)) by lia.
    simpl. constructor; [|exact Hrest].
    split; [exact Hb|]. exists p. split; [|exact Hd].
    apply list_elem_of_In, list_elem_of_lookup. exists a. exact Hp.
Qed.

Lemma bounded_sum (l sv : list Z) :
  Forall2 (fun n s => 0 <= s <= n) l sv -> sum sv <= sum l.
Proof. induction 1; simpl; lia. Qed.

(** The survival block never creates individuals. *)
Lemma survival_post_total (self : Population) (demo_noise : bool)
  (fs ms : list Q) (st : list Z * list Z) :
  (0 < length (female self))%nat ->
  length (male self) = length (female self) ->
  survival_post self demo_noise fs ms st ->
  sum (fst st) <= sum (female self) /\ sum (snd st) <= sum (male self).
Proof.
  intros HA Lm (sf & sm & s_f & s_m & Hsf & Hsm & Hf & Hm & -> & ->).
  set (A := length (female self)) in *.
  apply (survivors_by_class _ _ _ 0) in Hsf, Hsm.
  rewrite drop_0, Nat.sub_0_r in Hsf, Hsm.
  destruct Hf as (nf & pf & Hnf & _ & _ & Hbf).
  destruct Hm as (nm & pm & Hnm & _ & _ & Hbm).
  rewrite !sum_plus_group.
  rewrite (sum_take_drop (female self) (A - 1)).
  rewrite (sum_take_drop (male self) (A - 1)).
  rewrite (drop_S _ _ _ Hnf), (drop_S _ _ _ Hnm).
  rewrite !drop_ge by lia. simpl.
  replace (Z.to_nat (Z.of_nat A - 1)) with (A - 1)%nat in Hsf, Hsm by lia.
  assert (Bf : sum sf <= sum (take (A - 1) (female self))).
  { apply bounded_sum. eapply Forall2_impl; [exact Hsf|]. simpl. tauto. }
  assert (Bm : sum sm <= sum (take (A - 1) (male self))).
  { apply bounded_sum. eapply Forall2_impl; [exact Hsm|]. simpl. tauto. }
  lia.
Qed.

Lemma sum_insert_head (l : list Z) (v : Z) :
  (0 < length l)%nat ->
  sum (<[0%nat := v]> l) = sum l - default 0 (l !! 0%nat) + v.
Proof. destruct l as [|x l]; simpl; [lia|]. intros _. lia. Qed.

(** Without demographic noise, females of zero fertility bear nothing,
    and so do zero females. *)
Lemma births_zero (nf : list Z) (ff : list Q) (l bs : list Z) :
  zero_rates ff \/ nf = replicate (length nf) 0 ->
  Forall2 (class_births false nf ff) l bs -> sum bs = 0.
Proof.
  intros Hz. induction 1 as [|i b l bs (n & rate & Hn & Hr & Hd & _) _ IH];
    simpl; [reflexivity|].
  rewrite IH. simpl in Hd. subst b. destruct Hz as [Hz|Hz].
  - rewrite py_round_zero_rate; [reflexivity|].
    exact (Forall_lookup_1 _ _ _ _ Hz Hr).
  - rewrite Hz in Hn. apply lookup_replicate_1 in Hn. destruct Hn as [-> _].
    rewrite py_round_zero_count. reflexivity.
Qed.

(** The total after a transition without demographic noise in which
    the females bear nothing is at most the total before. *)
Lemma barren_total (self self' : Population) (vr : VitalRates)
  (cat : option Catastrophe) (r : rates) (st1 st2 st3 st4 : list Z * list Z) :
  well_formed self vr cat ->
  zero_rates (r_ff r) \/ fst st1 = replicate (length (fst st1)) 0 ->
  survival_post self false (r_fs r) (r_ms r) st1 ->
  reproduction_post self false (r_ff r) (fst st1) (snd st1) st2 ->
  catastrophe_post cat st2 st3 ->
  capacity_post self false st3 st4 ->
  sum (fst st4) + sum (snd st4) <= sum (fst st1) + sum (snd st1) /\
  sum (fst st1) <= sum (female self) /\ sum (snd st1) <= sum (male self) /\
  nonneg (fst st4) /\ nonneg (snd st4).
Proof.
  intros W Hz H1 H2 H3 H4. destruct W.
  destruct (survival_post_shape _ _ _ _ _ wf_classes0 H1) as (A1 & A2 & A3 & A4).
  destruct (survival_post_total _ _ _ _ _ wf_classes0 wf_male0 H1) as [T1 T2].
  destruct (reproduction_post_shape _ _ _ st1 st1 st2 A3 A4 H2)
    as (_ & _ & B3 & B4).
  destruct H2 as (bs & n_male & Hbs & _ & Hb & E2 & E2').
  pose proof (births_zero _ _ _ _ Hz Hbs) as Hs. rewrite Hs in *.
  assert (n_male = 0) by lia. subst n_male.
  assert (S2 : sum (fst st2) + sum (snd st2) <= sum (fst st1) + sum (snd st1)).
  { rewrite E2, E2', !sum_insert_head by lia.
    destruct (lookup_lt_is_Some_2 (fst st1) 0 ltac:(lia)) as [x Hx].
    destruct (lookup_lt_is_Some_2 (snd st1) 0 ltac:(lia)) as [y Hy].
    pose proof (Forall_lookup_1 _ _ _ _ A3 Hx) as Px.
    pose proof (Forall_lookup_1 _ _ _ _ A4 Hy) as Py.
    cbv beta in Px, Py. rewrite Hx, Hy. simpl. lia. }
  assert (S3 : sum (fst st3) + sum (snd st3) <= sum (fst st2) + sum (snd st2)
               /\ nonneg (fst st3) /\ nonneg (snd st3)).
  { destruct cat; simpl in H3.
    - destruct H3 as [Hf Hm].
      pose proof (shrunk_sum _ _ Hf). pose proof (shrunk_sum _ _ Hm).
      split; [lia|]. split; eapply shrunk_nonneg; eassumption.
    - subst st3. split; [lia|]. split; assumption. }
  destruct S3 as (S3 & N3f & N3m).
  destruct H4 as (Hf & Hm & _).
  pose proof (shrunk_sum _ _ Hf). pose proof (shrunk_sum _ _ Hm).
  split; [lia|]. split; [exact T1|]. split; [exact T2|].
  split; eapply shrunk_nonneg; eassumption.
Qed.

End TransitionTotals.

Section TransitionGrowth.

Context {RS : RandomSource}.

(** Under tame noise the fertilities of a generation are the baseline
    ones. *)
Lemma effective_fertility_tame (vr : VitalRates) (env_noise : bool) :
  tame_noise vr env_noise ->
  returns (effective_rates vr env_noise)
    (fun r => r_ff r = female_fertility vr).
Proof.
  intros Ht. unfold effective_rates. destruct env_noise.
  - destruct (Ht eq_refl) as [_ Hf].
    eapply returns_weaken; [apply apply_environmental_noise_post|].
    intros r (_ & _ & _ & _ & _ & B2 & _). exact (proj1 (B2 Hf)).
  - apply returns_ret. reflexivity.
Qed.

(** The block-by-block description of a transition, with a fact [P]
    about the rates it used. *)
Lemma advance_generation_blocks_with (P : rates -> Prop) (self : Population)
  (vr : VitalRates) (cat : option Catastrophe) (demo_noise env_noise : bool) :
  returns (effective_rates vr env_noise) P ->
  well_formed self vr cat ->
  returns (advance_generation self vr cat demo_noise env_noise)
    (fun self' =>
       exists r st1 st2 st3 st4,
         P r /\
         rates_post vr env_noise r /\
         survival_post self demo_noise (r_fs r) (r_ms r) st1 /\
         reproduction_post self demo_noise (r_ff r) (fst st1) (snd st1) st2 /\
         catastrophe_post cat st2 st3 /\
         capacity_post self demo_noise st3 st4 /\
         self' = updated self st4).
Proof.
  intros HP W. pose proof W as W0. destruct W. unfold advance_generation.
  eapply returns_bind.
  { apply returns_and;
      [exact HP|apply effective_rates_spec; assumption]. }
  intros [[[fs ms] ff] mf] [Hk Hr].
  pose proof Hr as (L1 & L2 & L3 & U1 & U2 & U3 & _).
  unfold r_fs, r_ms, r_ff in L1, L2, L3, U1, U2, U3.
  simpl in L1, L2, L3, U1, U2, U3.
  eapply returns_bind.
  { apply (survival_spec self demo_noise fs ms); try assumption; lia. }
  intros st1 H1.
  destruct (survival_post_shape _ _ _ _ _ wf_classes0 H1)
    as (A1 & A2 & A3 & A4).
  eapply returns_bind.
  { apply (reproduction_spec self demo_noise ff (fst st1) (snd st1));
      try assumption; try lia; apply wf_prop0. }
  intros st2 H2.
  destruct (reproduction_post_shape _ _ _ st1 st1 st2 A3 A4 H2)
    as (B1 & B2 & B3 & B4).
  eapply (returns_bind _ _ (catastrophe_post cat st2)).
  { destruct cat as [c|]; simpl.
    - destruct (wf_mortality0 c eq_refl).
      apply apply_spec; try assumption; lia.
    - apply returns_ret. reflexivity. }
  intros st3 H3.
  assert (C : length (fst st3) = length (female self) /\
              length (snd st3) = length (female self) /\
              nonneg (fst st3) /\ nonneg (snd st3)).
  { destruct cat; simpl in H3.
    - destruct H3 as [Hf Hm].
      rewrite (shrunk_length _ _ Hf), (shrunk_length _ _ Hm).
      repeat split; try lia; eapply shrunk_nonneg; eassumption.
    - subst st3. repeat split; try assumption; lia. }
  destruct C as (C1 & C2 & C3 & C4).
  eapply returns_bind.
  { apply (enforce_capacity_spec self demo_noise (fst st3) (snd st3));
      assumption. }
  intros st4 H4. apply returns_ret.
  exists (fs, ms, ff, mf), st1, st2, st3, st4.
  destruct st3 as [f3 m3].
  split; [exact Hk|]. split; [exact Hr|]. split; [exact H1|].
  split; [exact H2|]. split; [exact H3|]. split; [exact H4|]. reflexivity.
Qed.

(** Without demographic noise the females of the classes from [a] on
    bear at most [F] young each. *)
Lemma births_bounded (nf : list Z) (ff : list Q) (F : Z) (bs : list Z)
  (b : Z) :
  nonneg nf -> 0 <= F -> Forall (fun f => (f <= inject_Z F)%Q) ff ->
  forall a : nat,
    Forall2 (class_births false nf ff) (py_range (Z.of_nat a) b) bs ->
    sum bs <= F * sum (drop a nf).
Proof.
  intros Nf HF Hf. induction bs as [|b0 bs IH]; intros a H.
  - simpl. pose proof (sum_nonneg _ (Forall_drop _ a _ Nf)). nia.
  - assert (Hab : Z.of_nat a < b).
    { pose proof (Forall2_length _ _ _ H) as L. rewrite py_range_length in L.
      simpl in L. lia. }
    rewrite py_range_cons in H by exact Hab.
    inversion H as [|i b' l bs' Hc Hrest]; subst.
    destruct Hc as (n & rate & Hn & Hr & Hd & _).
    rewrite Nat2Z.id in Hn, Hr. simpl in Hd.
    replace (Z.of_nat a + 1) with (Z.of_nat (S a)) in Hrest by lia.
    apply IH in Hrest. rewrite (drop_S nf n a Hn). simpl.
    pose proof (Forall_lookup_1 _ _ _ _ Nf Hn) as Hn0. cbv beta in Hn0.
    pose proof (Forall_lookup_1 _ _ _ _ Hf Hr) as Hr0. cbv beta in Hr0.
    assert (Hb : b0 <= n * F).
    { rewrite Hd. apply py_round_le. rewrite inject_Z_mult.
      rewrite (Qmult_comm (inject_Z n) rate).
      rewrite (Qmult_comm (inject_Z n) (inject_Z F)).
      apply Qmult_le_compat_r; [exact Hr0|].
      rewrite <- (Zle_Qle 0). exact Hn0. }
    nia.
Qed.

(** Without demographic noise and with fertilities of at most [F], the
    total after a transition is at most [F + 1] times the total
    before. *)
Lemma growth_total (self : Population) (vr : VitalRates)
  (cat : option Catastrophe) (r : rates) (F : Z)
  (st1 st2 st3 st4 : list Z * list Z) :
  well_formed self vr cat ->
  0 <= F -> Forall (fun f => (f <= inject_Z F)%Q) (r_ff r) ->
  survival_post self false (r_fs r) (r_ms r) st1 ->
  reproduction_post self false (r_ff r) (fst st1) (snd st1) st2 ->
  catastrophe_post cat st2 st3 ->
  capacity_post self false st3 st4 ->
  sum (fst st4) + sum (snd st4)
  <= (sum (female self) + sum (male self)) * (F + 1).
Proof.
  intros W HF Hf H1 H2 H3 H4. destruct W.
  destruct (survival_post_shape _ _ _ _ _ wf_classes0 H1) as (A1 & A2 & A3 & A4).
  destruct (survival_post_total _ _ _ _ _ wf_classes0 wf_male0 H1) as [T1 T2].
  destruct H2 as (bs & n_male & Hbs & _ & Hb & E2 & E2').
  replace (reproduction_age self)
    with (Z.of_nat (Z.to_nat (reproduction_age self))) in Hbs by lia.
  pose proof (births_bounded _ _ F _ _ A3 HF Hf _ Hbs) as Bb.
  assert (Bd : sum (drop (Z.to_nat (reproduction_age self)) (fst st1))
               <= sum (fst st1)).
  { rewrite (sum_take_drop (fst st1) (Z.to_nat (reproduction_age self))).
    pose proof (sum_nonneg _ (Forall_take _ (Z.to_nat (reproduction_age self))
                                _ A3)). lia. }
  assert (S2 : sum (fst st2) + sum (snd st2)
               <= sum (fst st1) + sum (snd st1) + sum bs).
  { rewrite E2, E2', !sum_insert_head by lia.
    destruct (lookup_lt_is_Some_2 (fst st1) 0 ltac:(lia)) as [x Hx].
    destruct (lookup_lt_is_Some_2 (snd st1) 0 ltac:(lia)) as [y Hy].
    pose proof (Forall_lookup_1 _ _ _ _ A3 Hx) as Px.
    pose proof (Forall_lookup_1 _ _ _ _ A4 Hy) as Py.
    cbv beta in Px, Py. rewrite Hx, Hy. simpl. lia. }
  assert (S3 : sum (fst st3) + sum (snd st3) <= sum (fst st2) + sum (snd st2)).
  { destruct cat; simpl in H3.
    - destruct H3 as [Hf3 Hm3].
      pose proof (shrunk_sum _ _ Hf3). pose proof (shrunk_sum _ _ Hm3). lia.
    - subst st3. lia. }
  destruct H4 as (Hf4 & Hm4 & _).
  pose proof (shrunk_sum _ _ Hf4). pose proof (shrunk_sum _ _ Hm4).
  pose proof (sum_nonneg _ A3). pose proof (sum_nonneg _ A4).
  pose proof (sum_nonneg _ wf_female_counts0).
  pose proof (sum_nonneg _ wf_male_counts0).
  nia.
Qed.

End TransitionGrowth.

(** X1.  A transition from a population in the input domain and in the
    machine range returns a population in the input domain: the same
    number of age classes for both sexes, non-negative counts, and the
    capacity, reproduction age and male birth proportion it had; in
    every mode.  Without demographic noise the new total is at most
    [F + 1] times the total before, [F] bounding the fertilities, and so
    within the machine range again. *)
Theorem advance_generation_keeps_domain {RS : RandomSource}
  (self : Population) (vr : VitalRates) (cat : option Catastrophe)
  (demo_noise env_noise : bool) (F : Z) (g : rng) :
  well_formed self vr cat ->
  machine_sized self vr env_noise F ->
  exists self' g',
    advance_generation self vr cat demo_noise env_noise g = Ok (self', g') /\
    well_formed self' vr cat /\
    length (female self') = length (female self) /\
    length (male self') = length (male self) /\
    carrying_capacity self' = carrying_capacity self /\
    reproduction_age self' = reproduction_age self /\
    male_birth_prop self' = male_birth_prop self /\
    (demo_noise = false ->
     total_population self' <= total_population self * (F + 1)
     <= machine_bound).
Proof.
  intros W ([HF Hf] & Ht & Hb).
  destruct (advance_generation_blocks_with _ self vr cat demo_noise env_noise
              (effective_fertility_tame vr env_noise Ht) W g)
    as (self' & g' & E & r & st1 & st2 & st3 & st4
        & Hff & Hr & H1 & H2 & H3 & H4 & ->).
  assert (H : advance_post self vr cat demo_noise env_noise
                (updated self st4)).
  { exists r, st1, st2, st3, st4. repeat (split; [assumption|]). reflexivity. }
  exists (updated self st4), g'. split; [exact E|].
  split; [eapply advance_post_well_formed; eassumption|].
  destruct (advance_post_shape _ _ _ _ _ _ W H) as (L1 & L2 & _ & _).
  split; [exact L1|]. split; [rewrite L2; symmetry; apply W|].
  split; [reflexivity|]. split; [reflexivity|]. split; [reflexivity|].
  intros ->. rewrite <- Hff in Hf.
  pose proof (growth_total self vr cat r F st1 st2 st3 st4 W HF Hf H1 H2 H3 H4)
    as G.
  pose proof (sum_nonneg _ (wf_female_counts _ _ _ W)).
  pose proof (sum_nonneg _ (wf_male_counts _ _ _ W)).
  unfold total_population in *. simpl. split; [exact G|]. nia.
Qed.

Lemma advance_generation_keeps_domain_witness :
  exists self' g',
    advance_generation (RS := tape_source) ex_population ex_tame_rates
      (Some ex_catastrophe) false true (tape [3; 1; 4; 1; 5])
    = Ok (self', g') /\
    well_formed self' ex_tame_rates (Some ex_catastrophe) /\
    length (female self') = length (female ex_population) /\
    length (male self') = length (male ex_population) /\
    carrying_capacity self' = carrying_capacity ex_population /\
    reproduction_age self' = reproduction_age ex_population /\
    male_birth_prop self' = male_birth_prop ex_population /\
    (false = false ->
     total_population self' <= total_population ex_population * (2 + 1)
     <= machine_bound).
Proof.
  apply (advance_generation_keeps_domain (RS := tape_source) ex_population
           ex_tame_rates (Some ex_catastrophe) false true 2 (tape [3; 1; 4; 1; 5])).
  - exact ex_tame_well_formed.
  - concrete_range.
Defined.

Section EmptyArrays.

Context {RS : RandomSource}.

Lemma effective_rates_returns (vr : VitalRates) (env_noise : bool) :
  returns (effective_rates vr env_noise) (fun _ => True).
Proof.
  unfold effective_rates. destruct env_noise; [|apply returns_ret, I].
  eapply returns_weaken; [apply apply_environmental_noise_post|].
  intros; exact I.
Qed.

Lemma survival_empty (self : Population) (demo_noise : bool) (fs ms : list Q)
  (g : rng) :
  female self = [] -> survival self demo_noise fs ms g = Raise IndexError.
Proof.
  destruct self as [f m K ra p]. simpl. intros ->.
  destruct demo_noise; reflexivity.
Qed.

End EmptyArrays.

(** X2.  On a population whose female array is empty a transition
    raises [IndexError] (the read of the last class, index -1), in
    every mode and whatever the rates, the catastrophe and the
    capacity. *)
Theorem advance_generation_empty_raises {RS : RandomSource}
  (self : Population) (vr : VitalRates) (cat : option Catastrophe)
  (demo_noise env_noise : bool) (g : rng) :
  female self = [] ->
  advance_generation self vr cat demo_noise env_noise g = Raise IndexError.
Proof.
  intros H. unfold advance_generation, bind.
  destruct (effective_rates_returns vr env_noise g) as (r & g1 & E & _).
  rewrite E. destruct r as [[[fs ms] ff] mf].
  rewrite (survival_empty self demo_noise fs ms g1 H). reflexivity.
Qed.

Lemma advance_generation_empty_raises_witness :
  advance_generation (RS := tape_source)
    {| female := []; male := []; carrying_capacity := Some 10;
       reproduction_age := 1; male_birth_prop := 1 # 2 |}
    ex_rates (Some ex_catastrophe) true true (tape [])
  = Raise IndexError.
Proof.
  apply (advance_generation_empty_raises (RS := tape_source)). reflexivity.
Defined.



Lemma plus_group_snoc (l : list Z) (x s : Z) :
  plus_group (l ++ [x]) s = 0 :: l ++ [x + s].
Proof.
  unfold plus_group. rewrite length_app. simpl length.
  replace (length l + 1)%nat with (S (length l)) by lia.
  change (alter (fun y => y + s) (S (length l)) (0 :: l ++ [x]))
    with (0 :: alter (fun y => y + s) (length l) (l ++ [x])).
  f_equal. induction l as [|y l IH]; simpl; [reflexivity|].
  f_equal. exact IH.
Qed.

Section SurvivalAtOne.

Context {RS : RandomSource}.

(** Without demographic noise, survival at rate 1 keeps everybody. *)
Lemma survivors_all (rate : list Q) (l sv : list Z) :
  one_rates rate ->
  Forall2 (fun n s => 0 <= s <= n /\
                      exists p, In p rate /\ survivor_draw false n p s) l sv ->
  sv = l.
Proof.
  intros H1. induction 1 as [|n s l sv (_ & p & Hp & Hd) _ IH];
    [reflexivity|].
  f_equal; [|exact IH]. simpl in Hd. subst s.
  apply py_round_unit_rate.
  unfold one_rates in H1. rewrite List.Forall_forall in H1. apply H1, Hp.
Qed.

End SurvivalAtOne.

(** X4.  Aging.  Without demographic noise, catastrophe and capacity,
    with every survival rate 1 and every female fertility 0 (the baseline
    rates being the ones used: no environmental noise, or standard
    deviations that are not positive), a transition on two classes or
    more of a population in the machine range moves every count up one
    class, leaves class 0 empty and adds the two oldest classes into the
    last one; the total is unchanged. *)
Theorem aging_shifts_and_conserves {RS : RandomSource}
  (self : Population) (vr : VitalRates) (env_noise : bool) (g : rng) :
  well_formed self vr None ->
  total_population self <= machine_bound ->
  carrying_capacity self = None ->
  (2 <= length (female self))%nat ->
  one_rates (female_survival vr) -> one_rates (male_survival vr) ->
  zero_rates (female_fertility vr) ->
  env_noise = false \/
  ((env_sd_survival vr <= 0)%Q /\ (env_sd_fertility vr <= 0)%Q) ->
  exists self' g',
    advance_generation self vr None false env_noise g = Ok (self', g') /\
    (let A := length (female self) in
     female self'
     = 0 :: take (A - 2) (female self) ++ [sum (drop (A - 2) (female self))] /\
     male self'
     = 0 :: take (A - 2) (male self) ++ [sum (drop (A - 2) (male self))]) /\
    total_population self' = total_population self.
Proof.
  intros W _ HK HA Of Om Zf Henv.
  destruct (advance_generation_blocks self vr None false env_noise W g)
    as (self' & g' & E & r & st1 & st2 & st3 & st4
        & [_ Hb] & _ & H1 & H2 & H3 & H4 & ->).
  exists (updated self st4), g'. split; [exact E|].
  rewrite (Hb Henv) in H1, H2. clear Hb. unfold r_fs, r_ms, r_ff in H1, H2.
  simpl in H1, H2, H3. subst st3. destruct H4 as (_ & _ & H4 & _).
  rewrite (H4 HK). clear H4.
  pose proof (wf_male _ _ _ W) as Lm.
  cbv zeta. remember (length (female self)) as A eqn:EA.
  destruct H1 as (sf & sm & s_f & s_m & Hsf & Hsm & Hf & Hm & E1 & E1').
  destruct Hf as (nf & pf & Hnf & Hpf & Hdf & _).
  destruct Hm as (nm & pm & Hnm & Hpm & Hdm & _).
  rewrite <- EA in *.
  apply (survivors_by_class _ _ _ 0) in Hsf, Hsm.
  rewrite drop_0, Nat.sub_0_r in Hsf, Hsm.
  replace (Z.to_nat (Z.of_nat A - 1)) with (A - 1)%nat in * by lia.
  apply (survivors_all _ _ _ Of) in Hsf. apply (survivors_all _ _ _ Om) in Hsm.
  simpl in Hdf, Hdm.
  rewrite py_round_unit_rate in Hdf
    by exact (Forall_lookup_1 _ _ _ _ Of Hpf).
  rewrite py_round_unit_rate in Hdm
    by exact (Forall_lookup_1 _ _ _ _ Om Hpm).
  subst sf sm s_f s_m.
  destruct (lookup_lt_is_Some_2 (female self) (A - 2) ltac:(lia)) as [xf Hxf].
  destruct (lookup_lt_is_Some_2 (male self) (A - 2) ltac:(lia)) as [xm Hxm].
  replace (A - 1)%nat with (S (A - 2)) in * by lia.
  rewrite (take_S_r _ _ _ Hxf), plus_group_snoc in E1.
  rewrite (take_S_r _ _ _ Hxm), plus_group_snoc in E1'.
  assert (Df : sum (drop (A - 2) (female self)) = xf + nf).
  { rewrite (drop_S _ _ _ Hxf), (drop_S _ _ _ Hnf), drop_ge by lia.
    simpl. lia. }
  assert (Dm : sum (drop (A - 2) (male self)) = xm + nm).
  { rewrite (drop_S _ _ _ Hxm), (drop_S _ _ _ Hnm), drop_ge by lia.
    simpl. lia. }
  destruct H2 as (bs & n_male & Hbs & _ & Hbd & E2 & E2').
  rewrite (births_zero _ _ _ _ (or_introl Zf) Hbs) in *.
  assert (n_male = 0) by lia. subst n_male.
  rewrite E1 in E2. rewrite E1' in E2'. simpl in E2, E2'.
  assert (Ef : female (updated self st2)
               = 0 :: take (A - 2) (female self)
                   ++ [sum (drop (A - 2) (female self))])
    by (simpl; rewrite E2, Df; reflexivity).
  assert (Em : male (updated self st2)
               = 0 :: take (A - 2) (male self)
                   ++ [sum (drop (A - 2) (male self))])
    by (simpl; rewrite E2', Dm; reflexivity).
  split; [split; assumption|].
  unfold total_population. rewrite Ef, Em. simpl. rewrite !sum_app. simpl.
  rewrite (sum_take_drop (female self) (A - 2)).
  rewrite (sum_take_drop (male self) (A - 2)). lia.
Qed.

Definition ex_aging_rates : VitalRates :=
  {| female_survival := [1; 1; 1]%Q; male_survival := [1; 1; 1]%Q;
     female_fertility := [0; 0; 0]%Q; male_fertility := [0; 0; 0]%Q;
     env_sd_survival := 0; env_sd_fertility := 0 |}.

Definition ex_aging_population : Population :=
  {| female := [5; 3; 2]; male := [4; 0; 1]; carrying_capacity := None;
     reproduction_age := 1; male_birth_prop := 1 # 2 |}.

Lemma aging_shifts_and_conserves_witness :
  exists self' g',
    advance_generation (RS := tape_source) ex_aging_population
      ex_aging_rates None false true (tape []) = Ok (self', g') /\
    (female self' = [0; 5; 5] /\ male self' = [0; 4; 1]) /\
    total_population self' = total_population ex_aging_population.
Proof.
  apply (aging_shifts_and_conserves (RS := tape_source) ex_aging_population
           ex_aging_rates true (tape [])).
  - concrete_domain.
  - vm_compute. discriminate.
  - reflexivity.
  - simpl. lia.
  - repeat constructor.
  - repeat constructor.
  - repeat constructor.
  - right. split; vm_compute; discriminate.
Defined.

(** X5.  Without demographic noise, a population in the machine range
    whose females all have fertility 0 never grows: after a transition,
    with or without catastrophe, capacity and environmental noise, the
    total is at most the total before. *)
Theorem barren_population_never_grows {RS : RandomSource}
  (self : Population) (vr : VitalRates) (cat : option Catastrophe)
  (env_noise : bool) (g : rng) :
  well_formed self vr cat ->
  total_population self <= machine_bound ->
  bounded_noise vr env_noise ->
  zero_rates (female_fertility vr) ->
  exists self' g',
    advance_generation self vr cat false env_noise g = Ok (self', g') /\
    0 <= total_population self' <= total_population self.
Proof.
  intros W _ _ Zf.
  destruct (advance_generation_blocks self vr cat false env_noise W g)
    as (self' & g' & E & r & st1 & st2 & st3 & st4
        & [Hz _] & _ & H1 & H2 & H3 & H4 & ->).
  exists (updated self st4), g'. split; [exact E|].
  destruct (barren_total self (updated self st4) vr cat r st1 st2 st3 st4 W
              (or_introl (Hz Zf)) H1 H2 H3 H4) as (T4 & Tf & Tm & Nf & Nm).
  unfold total_population. simpl.
  pose proof (sum_nonneg _ Nf). pose proof (sum_nonneg _ Nm). lia.
Qed.

Definition ex_barren_rates : VitalRates :=
  {| female_survival := [1 # 2; 3 # 4]%Q; male_survival := [1 # 2; 3 # 4]%Q;
     female_fertility := [0; 0]%Q; male_fertility := [0; 0]%Q;
     env_sd_survival := 1 # 10; env_sd_fertility := 1 # 5 |}.

Lemma barren_population_never_grows_witness :
  exists self' g',
    advance_generation (RS := tape_source) ex_population ex_barren_rates
      (Some ex_catastrophe) false true (tape [1; 2; 3]) = Ok (self', g') /\
    0 <= total_population self' <= total_population ex_population.
Proof.
  apply (barren_population_never_grows (RS := tape_source)).
  - concrete_domain.
  - vm_compute. discriminate.
  - concrete_range.
  - repeat constructor.
Defined.



(** ** [Catastrophe.occurs] and [Catastrophe.apply] *)

Definition ex_sure_catastrophe : Catastrophe :=
  {| probability := 1; mortality_rate := 1 # 4 |}.

Section CatastropheFacts.

Context {RS : RandomSource}.

Lemma occurs_never (c : Catastrophe) (g : rng) :
  (probability c <= 0)%Q -> exists g', occurs c g = Ok (false, g').
Proof.
  intros Hp. unfold occurs, bind, np_random_random, lift_draw, ret.
  pose proof (random_support g) as [H0 _].
  destruct (draw_random g) as [u g']. simpl in H0. exists g'.
  rewrite (proj2 (Qltb_ge u (probability c))) by lra. reflexivity.
Qed.

Lemma occurs_always (c : Catastrophe) (g : rng) :
  (1 <= probability c)%Q -> exists g', occurs c g = Ok (true, g').
Proof.
  intros Hp. unfold occurs, bind, np_random_random, lift_draw, ret.
  pose proof (random_support g) as [_ H1].
  destruct (draw_random g) as [u g']. simpl in H1. exists g'.
  rewrite (proj2 (Qltb_lt u (probability c))) by lra. reflexivity.
Qed.

(** The count left of [n] by the catastrophe without demographic
    noise. *)
Definition struck (c : Catastrophe) (n : Z) : Z :=
  py_round (inject_Z n * (1 - mortality_rate c)).

Lemma getitem_middle {A} (pre : list A) (x : A) (l : list A) (k : nat) :
  k = length pre -> getitem (pre ++ x :: l) (Z.of_nat k) = ret x.
Proof.
  intros ->. apply (getitem_eq _ _ (length pre)).
  - apply norm_index_nat. rewrite length_app. simpl. lia.
  - apply list_lookup_middle. reflexivity.
Qed.

Lemma setitem_middle {A} (pre : list A) (x : A) (l : list A) (k : nat)
  (v : A) :
  k = length pre -> setitem (pre ++ x :: l) (Z.of_nat k) v = ret (pre ++ v :: l).
Proof.
  intros ->. rewrite (setitem_eq _ _ (length pre))
    by (apply norm_index_nat; rewrite length_app; simpl; lia).
  f_equal. induction pre as [|y pre IH]; simpl; [reflexivity|].
  f_equal. exact IH.
Qed.

Lemma strike_loop (c : Catastrophe) (nf : list Z) :
  forall (nm pre_f pre_m : list Z) (g : rng),
    length nm = length nf -> length pre_m = length pre_f ->
    for_each (apply_class c false)
      (py_range (Z.of_nat (length pre_f))
         (Z.of_nat (length pre_f) + Z.of_nat (length nf)))
      (pre_f ++ nf, pre_m ++ nm) g
    = Ok ((pre_f ++ map (struck c) nf, pre_m ++ map (struck c) nm), g).
Proof.
  induction nf as [|x nf IH]; intros nm pre_f pre_m g Lm Lp.
  - destruct nm; [|discriminate]. rewrite py_range_empty_above by (simpl; lia).
    reflexivity.
  - destruct nm as [|y nm]; [discriminate|]. injection Lm as Lm.
    rewrite py_range_cons by (simpl length; lia).
    cbn [for_each apply_class].
    rewrite (getitem_middle pre_f x nf _ eq_refl), bind_ret_l.
    rewrite (setitem_middle pre_f x nf _ _ eq_refl), bind_ret_l.
    rewrite (getitem_middle pre_m y nm _ (eq_sym Lp)), bind_ret_l.
    rewrite (setitem_middle pre_m y nm _ _ (eq_sym Lp)), !bind_ret_l.
    specialize (IH nm (pre_f ++ [struck c x]) (pre_m ++ [struck c y]) g Lm).
    rewrite !length_app in IH. simpl length in IH.
    rewrite <- !app_assoc in IH. simpl app in IH.
    replace (Z.of_nat (length pre_f + 1)) with (Z.of_nat (length pre_f) + 1)
      in IH by lia.
    replace (Z.of_nat (length pre_f) + 1 + Z.of_nat (length nf))
      with (Z.of_nat (length pre_f) + Z.of_nat (S (length nf))) in IH by lia.
    fold (struck c x). fold (struck c y). simpl length.
    apply IH. lia.
Qed.

(** X7.  A catastrophe whose probability is zero or less never fires:
    [apply] returns both arrays as they were, whatever the mortality
    rate, the noise mode, the counts and the draw. *)
Theorem catastrophe_impossible_changes_nothing (c : Catastrophe)
  (nf nm : list Z) (demo_noise : bool) (g : rng) :
  (probability c <= 0)%Q ->
  exists g', apply c nf nm demo_noise g = Ok ((nf, nm), g').
Proof.
  intros Hp. destruct (occurs_never c g Hp) as [g' E]. exists g'.
  unfold apply, bind. rewrite E. reflexivity.
Qed.

(** [n'] is left of [n] by the catastrophe without demographic noise:
    the rounded floating-point product [n * (1 - mortality_rate)], at
    most [n]. *)
Definition struck_of (c : Catastrophe) (n n' : Z) : Prop :=
  0 <= n' <= n /\ rounded (inject_Z n * (1 - mortality_rate c)) n'.

Lemma struck_of_struck (c : Catastrophe) (l : list Z) :
  (0 <= mortality_rate c)%Q -> (mortality_rate c <= 1)%Q ->
  Forall (fun n => 0 <= n <= machine_bound) l ->
  Forall2 (struck_of c) l (map (struck c) l).
Proof.
  intros H0 H1. induction 1 as [|n l [Hn _] _ IH]; simpl; constructor;
    [|exact IH].
  assert (Hq : (0 <= inject_Z n)%Q) by (rewrite <- (Zle_Qle 0); exact Hn).
  assert (Hx : (0 <= inject_Z n * (1 - mortality_rate c))%Q)
    by (apply Qmult_le_0_compat; [exact Hq|lra]).
  unfold struck_of, struck. split; [split|].
  - apply py_round_nonneg, Hx.
  - apply py_round_le.
    rewrite <- (Qmult_1_r (inject_Z n)) at 2.
    rewrite (Qmult_comm (inject_Z n) (1 - mortality_rate c)).
    rewrite (Qmult_comm (inject_Z n) 1).
    apply Qmult_le_compat_r; [lra|exact Hq].
  - apply rounded_exact, Hx.
Qed.

(** X8.  A catastrophe whose probability is one or more always fires,
    and without demographic noise it replaces every count [n] of both
    arrays by [round(n * (1 - mortality_rate))], the product being the
    floating-point one, and never by more than [n]; for a mortality rate
    in [0, 1] and counts in the machine range. *)
Theorem catastrophe_certain_strikes_every_class (c : Catastrophe)
  (nf nm : list Z) (g : rng) :
  (1 <= probability c)%Q -> length nm = length nf ->
  (0 <= mortality_rate c)%Q -> (mortality_rate c <= 1)%Q ->
  Forall (fun n => 0 <= n <= machine_bound) nf ->
  Forall (fun n => 0 <= n <= machine_bound) nm ->
  exists nf' nm' g',
    apply c nf nm false g = Ok ((nf', nm'), g') /\
    Forall2 (struck_of c) nf nf' /\ Forall2 (struck_of c) nm nm'.
Proof.
  intros Hp Lm H0 H1 Bf Bm. destruct (occurs_always c g Hp) as [g' E].
  exists (map (struck c) nf), (map (struck c) nm), g'. split.
  - unfold apply, bind. rewrite E.
    exact (strike_loop c nf nm [] [] g' Lm eq_refl).
  - split; apply struck_of_struck; assumption.
Qed.

Lemma apply_refused (c : Catastrophe) (nf nm : list Z) (g : rng) :
  (1 <= probability c)%Q -> nf <> [] ->
  (mortality_rate c < 0)%Q \/ (1 < mortality_rate c)%Q ->
  apply c nf nm true g = Raise ValueError.
Proof.
  intros Hp Hne Hm. destruct (occurs_always c g Hp) as [g' E].
  unfold apply, bind at 1. rewrite E.
  destruct nf as [|x nf]; [contradiction|].
  rewrite py_range_cons by (simpl length; lia).
  cbn [for_each apply_class].
  rewrite (getitem_eq (x :: nf) 0 0%nat x)
    by (try apply (norm_index_nat _ 0); simpl; try lia; reflexivity).
  rewrite bind_ret_l. unfold np_random_binomial.
  assert (Hb : (x <? 0) || Qltb (1 - mortality_rate c) 0
               || Qltb 1 (1 - mortality_rate c) = true).
  { destruct Hm as [Hm|Hm].
    - rewrite (proj2 (Qltb_lt 1 (1 - mortality_rate c))) by lra.
      apply orb_true_r.
    - rewrite (proj2 (Qltb_lt (1 - mortality_rate c) 0)) by lra.
      rewrite orb_true_r. reflexivity. }
  rewrite Hb. reflexivity.
Qed.

(** A mortality rate outside [0, 1] by one unit in the last place of a
    binary64 value near 1 at least: every binary64 value above 1, and
    the negative ones whose difference to 1 is not rounded back to 1. *)
Definition mortality_outside (c : Catastrophe) : Prop :=
  (mortality_rate c <= - (1 # 4503599627370496))%Q \/
  (1 + (1 # 4503599627370496) <= mortality_rate c)%Q.

Lemma mortality_outside_unit (c : Catastrophe) :
  mortality_outside c ->
  (mortality_rate c < 0)%Q \/ (1 < mortality_rate c)%Q.
Proof. intros [H|H]; [left|right]; lra. Qed.

(** X9.  With demographic noise, a catastrophe that always fires with a
    mortality rate outside [0, 1], by [2^-52] at least, makes [apply]
    raise [ValueError] on every non-empty female array: the binomial
    draw of the first class is refused. *)
Theorem catastrophe_invalid_mortality_raises (c : Catastrophe)
  (nf nm : list Z) (g : rng) :
  (1 <= probability c)%Q -> nf <> [] ->
  mortality_outside c ->
  apply c nf nm true g = Raise ValueError.
Proof.
  intros Hp Hne Hm.
  exact (apply_refused c nf nm g Hp Hne (mortality_outside_unit c Hm)).
Qed.


End CatastropheFacts.

Lemma catastrophe_impossible_changes_nothing_witness :
  exists g',
    apply (RS := tape_source) {| probability := 0; mortality_rate := 5 |}
      [3; 4] [7] true (tape [1]) = Ok (([3; 4], [7]), g').
Proof.
  apply (catastrophe_impossible_changes_nothing (RS := tape_source)
           {| probability := 0; mortality_rate := 5 |} [3; 4] [7] true
           (tape [1])).
  vm_compute. discriminate.
Defined.

Lemma catastrophe_certain_strikes_every_class_witness :
  exists nf' nm' g',
    apply (RS := tape_source) ex_sure_catastrophe [10; 6] [3; 0] false
      (tape [1]) = Ok ((nf', nm'), g') /\
    Forall2 (struck_of ex_sure_catastrophe) [10; 6] nf' /\
    Forall2 (struck_of ex_sure_catastrophe) [3; 0] nm'.
Proof.
  apply (catastrophe_certain_strikes_every_class (RS := tape_source)
           ex_sure_catastrophe [10; 6] [3; 0] (tape [1])).
  - vm_compute. discriminate.
  - reflexivity.
  - vm_compute. discriminate.
  - vm_compute. discriminate.
  - repeat constructor; vm_compute; discriminate.
  - repeat constructor; vm_compute; discriminate.
Defined.

Lemma catastrophe_invalid_mortality_raises_witness :
  apply (RS := tape_source) {| probability := 1; mortality_rate := 3 # 2 |}
    [10; 6] [3; 0] true (tape [1]) = Raise ValueError.
Proof.
  apply (catastrophe_invalid_mortality_raises (RS := tape_source)
           {| probability := 1; mortality_rate := 3 # 2 |} [10; 6] [3; 0]
           (tape [1])).
  - vm_compute. discriminate.
  - discriminate.
  - right. vm_compute. discriminate.
Defined.


(** ** [VitalRates.apply_environmental_noise] *)

Section EnvironmentalNoise.

Context {RS : RandomSource}.

Lemma noise_off (vr : VitalRates) (g : rng) :
  (env_sd_survival vr <= 0)%Q -> (env_sd_fertility vr <= 0)%Q ->
  apply_environmental_noise vr g
  = Ok ((female_survival vr, male_survival vr,
         female_fertility vr, male_fertility vr), g).
Proof.
  intros Hs Hf. unfold apply_environmental_noise.
  rewrite (proj2 (Qltb_ge 0 (env_sd_survival vr)) Hs).
  rewrite (proj2 (Qltb_ge 0 (env_sd_fertility vr)) Hf).
  reflexivity.
Qed.


(** X12.  With both standard deviations zero or less, the environmental
    noise flag changes nothing: a transition with [env_noise] set is the
    transition without it, result and generator state alike, for every
    population, rates, catastrophe and noise mode. *)
Theorem environmental_noise_inert_without_deviation (self : Population)
  (vr : VitalRates) (cat : option Catastrophe) (demo_noise : bool) (g : rng) :
  (env_sd_survival vr <= 0)%Q -> (env_sd_fertility vr <= 0)%Q ->
  advance_generation self vr cat demo_noise true g
  = advance_generation self vr cat demo_noise false g.
Proof.
  intros Hs Hf. unfold advance_generation. unfold bind at 1 6.
  unfold effective_rates. rewrite (noise_off vr g Hs Hf). reflexivity.
Qed.

End EnvironmentalNoise.

Lemma environmental_noise_inert_without_deviation_witness :
  advance_generation (RS := tape_source) ex_single_population ex_single_rates
    (Some ex_catastrophe) true true (tape [1; 2; 3])
  = advance_generation (RS := tape_source) ex_single_population
      ex_single_rates (Some ex_catastrophe) true false (tape [1; 2; 3]).
Proof.
  apply (environmental_noise_inert_without_deviation (RS := tape_source)
           ex_single_population ex_single_rates (Some ex_catastrophe) true
           (tape [1; 2; 3])); vm_compute; discriminate.
Defined.

(** ** [Simulation.run]: what the trajectories hold *)

Definition ex_simulation : Simulation :=
  {| vital_rates := ex_tame_rates;
     initial_females := [6; 4]; initial_males := [5; 3];
     catastrophe := Some ex_catastrophe; sim_carrying_capacity := Some 12;
     n_generations := 3; q_threshold := 2; n_replicates := 2;
     demo_noise := true; env_noise := true; seed := Some 11 |}.

Lemma ex_simulation_well_formed : wf_sim ex_simulation.
Proof. unfold wf_sim. concrete_domain. Qed.

Definition ex_fixed_simulation : Simulation :=
  {| vital_rates := ex_rates;
     initial_females := [6; 4]; initial_males := [5; 3];
     catastrophe := Some ex_sure_catastrophe; sim_carrying_capacity := Some 12;
     n_generations := 3; q_threshold := 2; n_replicates := 2;
     demo_noise := false; env_noise := false; seed := None |}.

Lemma ex_fixed_simulation_well_formed : wf_sim ex_fixed_simulation.
Proof. unfold wf_sim. concrete_domain. Qed.

Section RunFacts.

Context {RS : RandomSource}.

(** On its domain [run] returns, and its replicates are the ones
    simulated from the seeded generators. *)
Lemma run_on_domain (self : Simulation) (g : rng) :
  wf_sim self ->
  exists res g' b, run self g = Ok (res, g') /\ replicates_of self b res.
Proof.
  intros W. destruct (run_returns self W g) as (res & g' & E & _).
  destruct (run_replicates self g g' res E) as (b & g1 & _ & H).
  exists res, g', b. split; [exact E|exact H].
Qed.

Lemma replicates_of_lookup (self : Simulation) (b : Z)
  (res : SimulationResult) (k : nat) (tr : list row) (e : ext_time) :
  replicates_of self b res ->
  trajectories res !! k = Some tr -> extinction_times res !! k = Some e ->
  replicate_result self (seed_state (replicate_seed b (Z.of_nat k))) tr e.
Proof.
  intros (L1 & L2 & H) Htr He.
  pose proof (lookup_lt_Some _ _ _ Htr) as Hlt. rewrite L1 in Hlt.
  destruct (H k Hlt) as (tr' & e' & Htr' & He' & Hres).
  rewrite Htr in Htr'. rewrite He in He'.
  injection Htr' as <-. injection He' as <-. exact Hres.
Qed.

Lemma replicates_of_trajectory (self : Simulation) (b : Z)
  (res : SimulationResult) (k : nat) (tr : list row) :
  replicates_of self b res -> trajectories res !! k = Some tr ->
  exists e, extinction_times res !! k = Some e /\
            replicate_result self
              (seed_state (replicate_seed b (Z.of_nat k))) tr e.
Proof.
  intros (L1 & L2 & H) Htr.
  pose proof (lookup_lt_Some _ _ _ Htr) as Hlt. rewrite L1 in Hlt.
  destruct (H k Hlt) as (tr' & e' & Htr' & He' & Hres).
  rewrite Htr in Htr'. injection Htr' as <-.
  exists e'. split; [exact He'|exact Hres].
Qed.

(** *** The extinction time is the first crossing of the threshold *)

Lemma loop_rows_crossing (q : Z) (gens : list Z) (new : list row)
  (e : ext_time) :
  loop_rows q gens new e ->
  (forall k r, new !! k = Some r -> (S k < length new)%nat ->
               q < row_total r) /\
  match e with
  | Never => forall k r, new !! k = Some r -> q < row_total r
  | At x => exists k r, length new = S k /\ new !! k = Some r /\
                        gens !! k = Some x /\ row_total r <= q
  end.
Proof.
  induction 1 as [|gen gens r Hg Hq|gen gens r new e Hg Hq H [IH1 IH2]].
  - split; intros; discriminate.
  - split.
    + intros [|k] r' Hk Hlt; simpl in Hlt; lia.
    + exists 0%nat, r. repeat split. exact Hq.
  - split.
    + intros [|k] r' Hk Hlt; simpl in Hk, Hlt.
      * injection Hk as <-. exact Hq.
      * apply (IH1 k r' Hk). lia.
    + destruct e as [|x].
      * intros [|k] r' Hk; simpl in Hk.
        -- injection Hk as <-. exact Hq.
        -- exact (IH2 k r' Hk).
      * destruct IH2 as (k & r' & L & Hk & Hx & Hr).
        exists (S k), r'. simpl. split; [lia|]. split; [exact Hk|].
        split; [exact Hx|exact Hr].
Qed.

(** The extinction time [e] of the trajectory [tr]: from generation 1
    on, every row before it is above the threshold and its own row is at
    or below it; without extinction every row from 1 on is above. *)
Definition first_crossing (self : Simulation) (tr : list row) (e : ext_time)
  : Prop :=
  match e with
  | Never => forall j r, (1 <= j)%nat -> tr !! j = Some r ->
                         q_threshold self < row_total r
  | At x =>
      1 <= x /\
      (exists r, tr !! Z.to_nat x = Some r /\ generation r = x /\
                 row_total r <= q_threshold self) /\
      forall j r, (1 <= j)%nat -> Z.of_nat j < x -> tr !! j = Some r ->
                  q_threshold self < row_total r
  end.

Lemma replicate_first_crossing (self : Simulation) (g : rng) (tr : list row)
  (e : ext_time) :
  replicate_result self g tr e -> first_crossing self tr e.
Proof.
  intros H. apply replicate_shape in H. destruct H as (new & Hnew & ->).
  destruct (loop_rows_lookup _ _ _ _ Hnew) as (_ & Hgen & _ & _).
  destruct (loop_rows_crossing _ _ _ _ Hnew) as [Hbefore He].
  destruct e as [|x]; simpl.
  - intros [|j] r Hj Hr; [lia|]. simpl in Hr. exact (He j r Hr).
  - destruct He as (k & r & L & Hk & Hx & Hr).
    pose proof (Hgen k r Hk) as Hg. rewrite Hx in Hg. injection Hg as Hg.
    apply py_range_lookup in Hx. destruct Hx as [Ex _].
    assert (Hin : forall j, (j < S (S k))%nat ->
              (if x <? n_generations self
               then (record_of 0 (initial_population self) :: new)
                    ++ map zero_row (py_range (x + 1) (n_generations self + 1))
               else record_of 0 (initial_population self) :: new) !! j
              = (record_of 0 (initial_population self) :: new) !! j).
    { intros j Hj. destruct (x <? n_generations self); [|reflexivity].
      apply lookup_app_l. simpl. lia. }
    split; [lia|]. split.
    + exists r. replace (Z.to_nat x) with (S k) by lia.
      rewrite Hin by lia. simpl. split; [exact Hk|].
      split; [symmetry; exact Hg|exact Hr].
    + intros [|j] r' Hj Hlt Hr'; [lia|].
      rewrite Hin in Hr' by lia. simpl in Hr'.
      apply (Hbefore j r' Hr'). lia.
Qed.

(** X13.  Whenever [run] returns, the extinction time of each
    replicate is the first generation, counted from 1, whose recorded
    total is at or below the threshold: the row of that generation is at
    or below it and every earlier row from generation 1 on is above; a
    replicate without extinction has every row from generation 1 on
    above the threshold. *)
Theorem extinction_time_is_first_crossing (self : Simulation) (g g' : rng)
  (res : SimulationResult) :
  run self g = Ok (res, g') ->
  forall k tr e,
    trajectories res !! k = Some tr -> extinction_times res !! k = Some e ->
    first_crossing self tr e.
Proof.
  intros E k tr e Htr He.
  destruct (run_replicates self g g' res E) as (b & g1 & _ & H).
  eapply replicate_first_crossing.
  exact (replicates_of_lookup _ _ _ _ _ _ H Htr He).
Qed.

(** *** The rows are records of reachable populations *)

(** [pop'] is returned by a transition from a population of the domain
    that has the capacity of the simulation. *)
Definition reached (self : Simulation) (pop' : Population) : Prop :=
  exists pop,
    well_formed pop (vital_rates self) (catastrophe self) /\
    carrying_capacity pop = sim_carrying_capacity self /\
    advance_post pop (vital_rates self) (catastrophe self) (demo_noise self)
      (env_noise self) pop'.

Lemma advance_post_keeps_capacity (self self' : Population) (vr : VitalRates)
  (cat : option Catastrophe) (demo_noise env_noise : bool) :
  advance_post self vr cat demo_noise env_noise self' ->
  carrying_capacity self' = carrying_capacity self.
Proof.
  intros (r & st1 & st2 & st3 & st4 & _ & _ & _ & _ & _ & ->). reflexivity.
Qed.

Lemma generation_loop_reached (self : Simulation) (gens : list Z)
  (pop : Population) (records records' : list row) (e : ext_time)
  (g g' : rng) :
  well_formed pop (vital_rates self) (catastrophe self) ->
  carrying_capacity pop = sim_carrying_capacity self ->
  generation_loop self gens pop records g = Ok ((records', e), g') ->
  exists new,
    records' = records ++ new /\
    Forall (fun r => exists pop', reached self pop' /\
                                  r = record_of (generation r) pop') new.
Proof.
  revert pop records g.
  induction gens as [|gen gens IH]; intros pop records g W HK E.
  - simpl in E. injection E as <- _ _. exists []. rewrite app_nil_r.
    split; [reflexivity|constructor].
  - simpl in E. apply bind_Ok in E. destruct E as (pop1 & g1 & E1 & E2).
    pose proof (returns_Ok _ _ _ _ _
                  (advance_generation_spec pop _ _ (demo_noise self)
                     (env_noise self) W) E1) as P.
    assert (R : exists pop', reached self pop' /\
                  record_of gen pop1 = record_of
                    (generation (record_of gen pop1)) pop').
    { exists pop1. split; [|reflexivity]. exists pop.
      split; [exact W|]. split; [exact HK|exact P]. }
    destruct (is_extinct pop1 (q_threshold self)).
    + injection E2 as <- _ _. exists [record_of gen pop1].
      split; [reflexivity|]. constructor; [exact R|constructor].
    + apply IH in E2.
      * destruct E2 as (new & -> & Hnew).
        exists (record_of gen pop1 :: new). rewrite <- app_assoc.
        split; [reflexivity|]. constructor; [exact R|exact Hnew].
      * eapply advance_post_well_formed; eassumption.
      * rewrite (advance_post_keeps_capacity _ _ _ _ _ _ P). exact HK.
Qed.

Lemma pad_lookup (self : Simulation) (records : list row) (e : ext_time)
  (k : nat) (r : row) :
  pad self records e !! k = Some r ->
  records !! k = Some r \/
  ((length records <= k)%nat /\ exists j, r = zero_row j).
Proof.
  unfold pad. destruct e as [|x]; [left; assumption|].
  destruct (x <? n_generations self); [|left; assumption].
  rewrite lookup_app_Some. intros [H|[L H]]; [left; exact H|].
  right. split; [exact L|]. eexists. exact (padding_lookup _ _ _ _ H).
Qed.

(** Row 0 is the record of the initial population; a later row is the
    record of a reached population or a zero row. *)
Lemma replicate_rows (self : Simulation) (g : rng) (tr : list row)
  (e : ext_time) (k : nat) (r : row) :
  wf_sim self -> replicate_result self g tr e -> tr !! k = Some r ->
  (k = 0%nat /\ r = record_of 0 (initial_population self)) \/
  ((1 <= k)%nat /\
   ((exists pop', reached self pop' /\ r = record_of (generation r) pop') \/
    exists j, r = zero_row j)).
Proof.
  intros W [g' E] Hk. unfold simulate_replicate in E.
  apply bind_Ok in E. destruct E as ([records e'] & g1 & E1 & E2).
  injection E2 as <- <- _.
  apply (generation_loop_reached self _ _ _ _ _ _ _ W eq_refl) in E1.
  destruct E1 as (new & -> & Hnew).
  apply pad_lookup in Hk. destruct Hk as [Hk|[L Hz]].
  - destruct k as [|k]; simpl in Hk.
    + left. injection Hk as <-. split; reflexivity.
    + right. split; [lia|]. left.
      exact (Forall_lookup_1 _ _ _ _ Hnew Hk).
  - simpl in L. right. split; [lia|right; exact Hz].
Qed.

End RunFacts.

Lemma extinction_time_is_first_crossing_witness :
  exists res g',
    run (RS := tape_source) ex_simulation (tape [1]) = Ok (res, g') /\
    forall k tr e,
      trajectories res !! k = Some tr -> extinction_times res !! k = Some e ->
      first_crossing ex_simulation tr e.
Proof.
  destruct (run (RS := tape_source) ex_simulation (tape [1]))
    as [[res g']|e] eqn:E; [|vm_compute in E; discriminate].
  exists res, g'. split; [reflexivity|].
  exact (extinction_time_is_first_crossing (RS := tape_source) ex_simulation
           (tape [1]) g' res E).
Defined.

(** A row whose counts are not negative and whose total is their sum. *)
Definition row_consistent (r : row) : Prop :=
  0 <= row_female r /\ 0 <= row_male r /\
  row_total r = row_female r + row_male r.

Section RunRows.

Context {RS : RandomSource}.

Lemma reached_shape (self : Simulation) (pop' : Population) :
  reached self pop' -> nonneg (female pop') /\ nonneg (male pop').
Proof.
  intros (pop & W & _ & P).
  destruct (advance_post_shape _ _ _ _ _ _ W P) as (_ & _ & Nf & Nm).
  split; assumption.
Qed.

(** X14.  On its domain and in the machine range [run] returns, and
    in every row of every trajectory the female and male counts are not
    negative and the total is their sum. *)
Theorem trajectory_rows_consistent (self : Simulation) (F : Z) (g : rng) :
  wf_sim self -> machine_run self F ->
  exists res g',
    run self g = Ok (res, g') /\
    Forall (Forall row_consistent) (trajectories res).
Proof.
  intros W _. destruct (run_on_domain self g W) as (res & g' & b & E & H).
  exists res, g'. split; [exact E|].
  apply Forall_lookup_2. intros k tr Htr.
  destruct (replicates_of_trajectory _ _ _ _ _ H Htr) as (e & _ & Hres).
  apply Forall_lookup_2. intros j r Hj.
  destruct (replicate_rows self _ tr e j r W Hres Hj)
    as [[_ ->]|[_ [(pop' & Hp & ->)|[i ->]]]].
  - unfold row_consistent, record_of, total_population. simpl.
    pose proof (sum_nonneg _ (wf_female_counts _ _ _ W)) as Hf.
    pose proof (sum_nonneg _ (wf_male_counts _ _ _ W)) as Hm.
    simpl in Hf, Hm. repeat split; assumption.
  - destruct (reached_shape self pop' Hp) as [Nf Nm].
    unfold row_consistent, record_of, total_population. simpl.
    split; [exact (sum_nonneg _ Nf)|]. split; [exact (sum_nonneg _ Nm)|].
    reflexivity.
  - unfold row_consistent. simpl. lia.
Qed.

(** X15.  Without demographic noise and with a carrying capacity [K],
    on its domain and in the machine range [run] returns trajectories
    whose rows from generation 1 on all have a total of at most [K]; the
    row of generation 0 holds the initial total, which the capacity does
    not bound. *)
Theorem deterministic_run_within_capacity (self : Simulation) (K F : Z)
  (g : rng) :
  wf_sim self -> machine_capped self K F -> demo_noise self = false ->
  sim_carrying_capacity self = Some K ->
  exists res g',
    run self g = Ok (res, g') /\
    forall k tr j r,
      trajectories res !! k = Some tr -> (1 <= j)%nat -> tr !! j = Some r ->
      row_total r <= K.
Proof.
  intros W _ Hd HK. destruct (run_on_domain self g W) as (res & g' & b & E & H).
  exists res, g'. split; [exact E|]. intros k tr j r Htr Hj Hr.
  destruct (replicates_of_trajectory _ _ _ _ _ H Htr) as (e & _ & Hres).
  destruct (replicate_rows self _ tr e j r W Hres Hr)
    as [[-> _]|[_ [(pop' & (pop & _ & Hc & P) & ->)|[i ->]]]].
  - lia.
  - rewrite Hd in P. rewrite HK in Hc. simpl.
    exact (advance_post_capacity _ _ _ _ _ K P Hc).
  - simpl. exact (wf_capacity _ _ _ W K HK).
Qed.

(** *** Replicates of a run without randomness *)

Lemma si_generation_loop (self : Simulation) (gens : list Z) :
  demo_noise self = false -> env_noise self = false ->
  (forall c, catastrophe self = Some c -> certain c) ->
  forall pop records,
    state_independent (generation_loop self gens pop records).
Proof.
  intros Hd He Hc. induction gens as [|gen gens IH]; intros pop records.
  - apply si_ret.
  - simpl. rewrite Hd, He.
    apply si_bind; [apply si_advance_generation, Hc|]. intros pop1.
    destruct (is_extinct pop1 (q_threshold self)); [apply si_ret|apply IH].
Qed.

Lemma si_simulate_replicate (self : Simulation) :
  demo_noise self = false -> env_noise self = false ->
  (forall c, catastrophe self = Some c -> certain c) ->
  state_independent (simulate_replicate self).
Proof.
  intros Hd He Hc. unfold simulate_replicate.
  apply si_bind; [apply si_generation_loop; assumption|].
  intros [records e]. apply si_ret.
Qed.

Lemma simulate_replicate_returns (self : Simulation) :
  wf_sim self -> returns (simulate_replicate self) (fun _ => True).
Proof.
  intros W. unfold simulate_replicate.
  eapply returns_bind; [apply generation_loop_returns, W|].
  intros [records e] _. apply returns_ret. exact I.
Qed.

(** X16.  Without demographic and environmental noise, and with no
    catastrophe or one that never or always fires, the replicates of a
    run do not depend on their seeds: whenever [run] returns, its result
    is one trajectory and one extinction time, repeated for every
    replicate. *)
Theorem deterministic_replicates_identical (self : Simulation) (g g' : rng)
  (res : SimulationResult) :
  run self g = Ok (res, g') ->
  demo_noise self = false -> env_noise self = false ->
  (forall c, catastrophe self = Some c -> certain c) ->
  exists tr e,
    trajectories res = replicate (Z.to_nat (n_replicates self)) tr /\
    extinction_times res = replicate (Z.to_nat (n_replicates self)) e.
Proof.
  intros E Hd He Hc.
  destruct (run_replicates self g g' res E) as (b & g0 & _ & L1 & L2 & H).
  assert (Hsame : forall k1 k2 tr1 e1 tr2 e2,
            replicate_result self
              (seed_state (replicate_seed b (Z.of_nat k1))) tr1 e1 ->
            replicate_result self
              (seed_state (replicate_seed b (Z.of_nat k2))) tr2 e2 ->
            tr1 = tr2 /\ e1 = e2).
  { intros k1 k2 tr1 e1 tr2 e2 [h1 E1] [h2 E2].
    pose proof (si_simulate_replicate self Hd He Hc
                  (seed_state (replicate_seed b (Z.of_nat k1)))
                  (seed_state (replicate_seed b (Z.of_nat k2)))) as Hv.
    rewrite E1, E2 in Hv. simpl in Hv. injection Hv as -> ->.
    split; reflexivity. }
  destruct (Z.to_nat (n_replicates self)) as [|n] eqn:En.
  - exists [], Never. split.
    + destruct (trajectories res); [reflexivity|discriminate].
    + destruct (extinction_times res); [reflexivity|discriminate].
  - destruct (H 0%nat ltac:(lia)) as (tr0 & e0 & _ & _ & R0).
    exists tr0, e0. split; symmetry; apply replicate_as_Forall.
    + split; [exact L1|]. apply Forall_lookup_2. intros k tr' Hk.
      pose proof (lookup_lt_Some _ _ _ Hk) as Hlt. rewrite L1 in Hlt.
      destruct (H k Hlt) as (tr1 & e1 & Htr1 & _ & Hres).
      rewrite Hk in Htr1. injection Htr1 as <-.
      exact (proj1 (Hsame _ _ _ _ _ _ R0 Hres)).
    + split; [exact L2|]. apply Forall_lookup_2. intros k e' Hk.
      pose proof (lookup_lt_Some _ _ _ Hk) as Hlt. rewrite L2 in Hlt.
      destruct (H k Hlt) as (tr1 & e1 & _ & He1 & Hres).
      rewrite Hk in He1. injection He1 as <-.
      exact (proj2 (Hsame _ _ _ _ _ _ R0 Hres)).
Qed.

(** *** Runs without replicates or without generations *)

Lemma resolve_base_seed_returns (self : Simulation) (g : rng) :
  exists b g1, resolve_base_seed self g = Ok (b, g1).
Proof.
  unfold resolve_base_seed. destruct (seed self) as [s|].
  - exists s, g. reflexivity.
  - unfold np_random_randint.
    change (2 ^ 32 - 1 <=? 0) with false. cbv iota. unfold lift_draw.
    destruct (draw_randint 0 (2 ^ 32 - 1) g) as [b g1].
    exists b, g1. reflexivity.
Qed.

(** X17.  With a replicate count of zero or less, [run] returns, on
    valid and invalid parameters alike, a result without trajectories
    and extinction times; its summary counts 0 replicates, 0 extinctions
    and holds NaN for the probability, the mean and the median. *)
Theorem run_without_replicates (self : Simulation) (g : rng) :
  n_replicates self <= 0 ->
  exists res g',
    run self g = Ok (res, g') /\
    trajectories res = [] /\ extinction_times res = [] /\
    summary res = {| replicates := 0; extinct := 0;
                     extinction_probability := NaN;
                     mean_time_to_extinction := NaN;
                     median_time_to_extinction := NaN |}.
Proof.
  intros Hn. destruct (resolve_base_seed_returns self g) as (b & g1 & Eb).
  exists {| trajectories := []; extinction_times := [];
            result_q_threshold := q_threshold self |}, g1.
  split; [|repeat split].
  unfold run, bind. rewrite Eb.
  rewrite py_range_empty_above by exact Hn. reflexivity.
Qed.



End RunRows.

(** X19.  Two replicates of one run whose numbers differ by less than
    [2^32 - 1] are seeded differently, whatever the base seed: the seeds
    of a run only repeat after [2^32 - 1] replicates. *)
Theorem replicate_seeds_distinct (b k1 k2 : Z) :
  k1 < k2 -> k2 - k1 < 2 ^ 32 - 1 ->
  replicate_seed b k1 <> replicate_seed b k2.
Proof.
  unfold replicate_seed. change (2 ^ 32 - 1) with 4294967295.
  intros H1 H2 E.
  assert (H : (b + k2 - (b + k1)) mod 4294967295 = 0)
    by (rewrite Zminus_mod, E, Z.sub_diag; reflexivity).
  replace (b + k2 - (b + k1)) with (k2 - k1) in H by lia.
  rewrite Z.mod_small in H by lia. lia.
Qed.

Lemma replicate_seeds_distinct_witness :
  replicate_seed 4294967290 3 <> replicate_seed 4294967290 7.
Proof.
  apply (replicate_seeds_distinct 4294967290 3 7); vm_compute; reflexivity.
Defined.

Lemma trajectory_rows_consistent_witness :
  exists res g',
    run (RS := tape_source) ex_simulation (tape [1]) = Ok (res, g') /\
    Forall (Forall row_consistent) (trajectories res).
Proof.
  apply (trajectory_rows_consistent (RS := tape_source) ex_simulation 2
           (tape [1])).
  - exact ex_simulation_well_formed.
  - concrete_range.
Defined.

Lemma deterministic_run_within_capacity_witness :
  exists res g',
    run (RS := tape_source) ex_fixed_simulation (tape [5]) = Ok (res, g') /\
    forall k tr j r,
      trajectories res !! k = Some tr -> (1 <= j)%nat -> tr !! j = Some r ->
      row_total r <= 12.
Proof.
  apply (deterministic_run_within_capacity (RS := tape_source)
           ex_fixed_simulation 12 2 (tape [5])).
  - exact ex_fixed_simulation_well_formed.
  - concrete_range.
  - reflexivity.
  - reflexivity.
Defined.

Lemma deterministic_replicates_identical_witness :
  exists res g' tr e,
    run (RS := tape_source) ex_fixed_simulation (tape [5]) = Ok (res, g') /\
    trajectories res = replicate 2 tr /\
    extinction_times res = replicate 2 e.
Proof.
  destruct (run (RS := tape_source) ex_fixed_simulation (tape [5]))
    as [[res g']|e] eqn:E; [|vm_compute in E; discriminate].
  destruct (deterministic_replicates_identical (RS := tape_source)
              ex_fixed_simulation (tape [5]) g' res E eq_refl eq_refl)
    as (tr & e & H).
  - intros c [= <-]. right. vm_compute. discriminate.
  - exists res, g', tr, e. split; [reflexivity|exact H].
Defined.

Lemma run_without_replicates_witness :
  exists res g',
    run (RS := tape_source)
      {| vital_rates := ex_rates; initial_females := [6; 4];
         initial_males := [5]; catastrophe := None;
         sim_carrying_capacity := None; n_generations := 3;
         q_threshold := 2; n_replicates := -1;
         demo_noise := true; env_noise := true; seed := None |}
      (tape [1]) = Ok (res, g') /\
    trajectories res = [] /\ extinction_times res = [] /\
    summary res = {| replicates := 0; extinct := 0;
                     extinction_probability := NaN;
                     mean_time_to_extinction := NaN;
                     median_time_to_extinction := NaN |}.
Proof.
  apply (run_without_replicates (RS := tape_source)).
  simpl. lia.
Defined.


(** *** Runs of a population without births *)

(** The totals of the rows never rise, starting from [t], and are not
    negative. *)
Fixpoint declining (t : Z) (l : list row) : Prop :=
  match l with
  | [] => True
  | r :: l' => 0 <= row_total r <= t /\ declining (row_total r) l'
  end.

Lemma declining_zero_rows (t : Z) (js : list Z) :
  0 <= t -> declining t (map zero_row js).
Proof.
  revert t. induction js as [|j js IH]; intros t Ht; simpl; [exact I|].
  split; [lia|]. apply IH. lia.
Qed.

Lemma declining_app (t : Z) (l : list row) (js : list Z) :
  0 <= t -> declining t l -> declining t (l ++ map zero_row js).
Proof.
  revert t. induction l as [|r l IH]; intros t Ht H; simpl.
  - apply declining_zero_rows, Ht.
  - destruct H as [Hr H]. split; [exact Hr|]. apply IH; [lia|exact H].
Qed.

Lemma declining_lookup (l : list row) :
  forall (r0 : row) (j : nat) (r r' : row),
    declining (row_total r0) l ->
    (r0 :: l) !! j = Some r -> (r0 :: l) !! S j = Some r' ->
    row_total r' <= row_total r.
Proof.
  induction l as [|r1 l IH]; intros r0 j r r' H Hj Hj'.
  - destruct j; discriminate.
  - destruct H as [H1 H]. destruct j as [|j].
    + simpl in Hj, Hj'. injection Hj as <-. injection Hj' as <-. lia.
    + exact (IH r1 j r r' H Hj Hj').
Qed.

Definition ex_barren_simulation : Simulation :=
  {| vital_rates :=
       {| female_survival := [1 # 2; 3 # 4]%Q;
          male_survival := [1 # 2; 3 # 4]%Q;
          female_fertility := [0; 0]%Q; male_fertility := [0; 0]%Q;
          env_sd_survival := 1 # 10; env_sd_fertility := 1 # 5 |};
     initial_females := [6; 4]; initial_males := [5; 3];
     catastrophe := Some ex_catastrophe; sim_carrying_capacity := Some 12;
     n_generations := 3; q_threshold := 2; n_replicates := 2;
     demo_noise := false; env_noise := true; seed := Some 11 |}.

Lemma ex_barren_simulation_well_formed : wf_sim ex_barren_simulation.
Proof. unfold wf_sim. concrete_domain. Qed.

Section BarrenRun.

Context {RS : RandomSource}.

Lemma barren_step (self self' : Population) (vr : VitalRates)
  (cat : option Catastrophe) (env_noise : bool) (g g' : rng) :
  well_formed self vr cat -> zero_rates (female_fertility vr) ->
  advance_generation self vr cat false env_noise g = Ok (self', g') ->
  0 <= total_population self' <= total_population self /\
  well_formed self' vr cat.
Proof.
  intros W Zf E. split.
  - pose proof (returns_Ok _ _ _ _ _
                  (advance_generation_blocks self vr cat false env_noise W) E)
      as (r & st1 & st2 & st3 & st4 & [Hz _] & _ & H1 & H2 & H3 & H4 & ->).
    destruct (barren_total self (updated self st4) vr cat r st1 st2 st3 st4 W
                (or_introl (Hz Zf)) H1 H2 H3 H4) as (T4 & Tf & Tm & Nf & Nm).
    unfold total_population. simpl.
    pose proof (sum_nonneg _ Nf). pose proof (sum_nonneg _ Nm). lia.
  - eapply advance_post_well_formed; [exact W|].
    exact (returns_Ok _ _ _ _ _
             (advance_generation_spec self vr cat false env_noise W) E).
Qed.

Lemma generation_loop_declining (self : Simulation) (gens : list Z) :
  demo_noise self = false ->
  zero_rates (female_fertility (vital_rates self)) ->
  forall pop records records' e g g',
    well_formed pop (vital_rates self) (catastrophe self) ->
    generation_loop self gens pop records g = Ok ((records', e), g') ->
    exists new, records' = records ++ new /\
                declining (total_population pop) new.
Proof.
  intros Hd Zf. induction gens as [|gen gens IH];
    intros pop records records' e g g' W E.
  - simpl in E. injection E as <- _ _. exists []. rewrite app_nil_r.
    split; [reflexivity|exact I].
  - simpl in E. rewrite Hd in E.
    apply bind_Ok in E. destruct E as (pop1 & g1 & E1 & E2).
    destruct (barren_step _ _ _ _ _ _ _ W Zf E1) as [Ht W1].
    destruct (is_extinct pop1 (q_threshold self)).
    + injection E2 as <- _ _. exists [record_of gen pop1].
      split; [reflexivity|]. simpl. split; [exact Ht|exact I].
    + destruct (IH _ _ _ _ _ _ W1 E2) as (new & -> & Hnew).
      exists (record_of gen pop1 :: new). rewrite <- app_assoc.
      split; [reflexivity|]. simpl. split; [exact Ht|exact Hnew].
Qed.

(** X20.  Without demographic noise and with every female fertility 0,
    on its domain and from an initial total in the machine range [run]
    returns trajectories whose totals never rise from one generation to
    the next, with or without catastrophe, capacity and environmental
    noise. *)
Theorem barren_run_declines (self : Simulation) (g : rng) :
  wf_sim self ->
  total_population (initial_population self) <= machine_bound ->
  bounded_noise (vital_rates self) (env_noise self) ->
  demo_noise self = false ->
  zero_rates (female_fertility (vital_rates self)) ->
  exists res g',
    run self g = Ok (res, g') /\
    forall k tr j r r',
      trajectories res !! k = Some tr ->
      tr !! j = Some r -> tr !! S j = Some r' ->
      row_total r' <= row_total r.
Proof.
  intros W _ _ Hd Zf.
  destruct (run_on_domain self g W) as (res & g' & b & E & H).
  exists res, g'. split; [exact E|]. intros k tr j r r' Htr Hj Hj'.
  destruct (replicates_of_trajectory _ _ _ _ _ H Htr) as (e & _ & [g1 Er]).
  unfold simulate_replicate in Er. apply bind_Ok in Er.
  destruct Er as ([records e'] & g2 & E1 & E2). injection E2 as <- <- _.
  destruct (generation_loop_declining self _ Hd Zf _ _ _ _ _ _ W E1)
    as (new & -> & Hnew).
  assert (H0 : 0 <= total_population (initial_population self)).
  { unfold total_population.
    pose proof (sum_nonneg _ (wf_female_counts _ _ _ W)).
    pose proof (sum_nonneg _ (wf_male_counts _ _ _ W)). lia. }
  assert (Hall : exists rest,
            pad self ([record_of 0 (initial_population self)] ++ new) e'
            = record_of 0 (initial_population self) :: rest /\
            declining (total_population (initial_population self)) rest).
  { unfold pad. destruct e' as [|x].
    - exists new. split; [reflexivity|exact Hnew].
    - destruct (x <? n_generations self).
      + exists (new ++ map zero_row (py_range (x + 1) (n_generations self + 1))).
        split; [reflexivity|]. apply declining_app; assumption.
      + exists new. split; [reflexivity|exact Hnew]. }
  destruct Hall as (rest & Epad & Hrest). rewrite Epad in Hj, Hj'.
  exact (declining_lookup rest (record_of 0 (initial_population self)) j r r'
           Hrest Hj Hj').
Qed.

End BarrenRun.

Lemma barren_run_declines_witness :
  exists res g',
    run (RS := tape_source) ex_barren_simulation (tape [1]) = Ok (res, g') /\
    forall k tr j r r',
      trajectories res !! k = Some tr ->
      tr !! j = Some r -> tr !! S j = Some r' ->
      row_total r' <= row_total r.
Proof.
  apply (barren_run_declines (RS := tape_source) ex_barren_simulation
           (tape [1])).
  - exact ex_barren_simulation_well_formed.
  - vm_compute. discriminate.
  - concrete_range.
  - reflexivity.
  - repeat constructor.
Defined.

(** ** [SimulationResult.summary]: ranges and order *)

(** A float that is NaN or lies between two integers. *)
Definition float_within (lo hi : Z) (x : pyfloat) : Prop :=
  match x with
  | NaN => True
  | Fin q => (inject_Z lo <= q)%Q /\ (q <= inject_Z hi)%Q
  end.

(** Every finite extinction time lies between [lo] and [hi]. *)
Definition times_within (lo hi : Z) (l : list ext_time) : Prop :=
  Forall (fun e => match e with Never => True | At t => lo <= t <= hi end) l.

Definition ex_result : SimulationResult :=
  {| trajectories := [];
     extinction_times := [At 4; Never; At 2; At 9; Never];
     result_q_threshold := 5 |}.

Lemma sum_bounds (l : list Z) (lo hi : Z) :
  Forall (fun t => lo <= t <= hi) l ->
  lo * Z.of_nat (length l) <= sum l <= hi * Z.of_nat (length l).
Proof.
  induction 1 as [|t l Ht _ IH]; [simpl; lia|].
  simpl sum. simpl length. lia.
Qed.

Lemma np_mean_bounds (l : list Z) (lo hi : Z) :
  l <> [] -> Forall (fun t => lo <= t <= hi) l ->
  (inject_Z lo <= np_mean l)%Q /\ (np_mean l <= inject_Z hi)%Q.
Proof.
  intros Hne H. pose proof (sum_bounds l lo hi H) as [Hl Hh].
  assert (Hn : (0 < inject_Z (Z.of_nat (length l)))%Q).
  { rewrite <- (Zlt_Qlt 0). destruct l; [congruence|simpl length; lia]. }
  unfold np_mean. split.
  - apply Qle_shift_div_l; [exact Hn|].
    rewrite <- inject_Z_mult, <- Zle_Qle. exact Hl.
  - apply Qle_shift_div_r; [exact Hn|].
    rewrite <- inject_Z_mult, <- Zle_Qle. exact Hh.
Qed.

Lemma Forall_np_sort (P : Z -> Prop) (l : list Z) :
  Forall P l -> Forall P (np_sort l).
Proof.
  induction 1 as [|x l Hx _ IH]; simpl; [constructor|].
  apply Forall_insert_sorted; assumption.
Qed.

Lemma np_median_bounds (l : list Z) (lo hi : Z) :
  l <> [] -> Forall (fun t => lo <= t <= hi) l ->
  (inject_Z lo <= np_median l)%Q /\ (np_median l <= inject_Z hi)%Q.
Proof.
  intros Hne H.
  assert (Hn : (0 < length l)%nat) by (destruct l; simpl; [congruence|lia]).
  pose proof (Forall_np_sort _ _ H) as Hs.
  rewrite List.Forall_forall in Hs.
  assert (Hnth : forall i, (i < length l)%nat ->
                           lo <= nth i (np_sort l) 0 <= hi).
  { intros i Hi. apply Hs, nth_In. rewrite length_np_sort. exact Hi. }
  assert (H2 : (length l / 2 < length l)%nat)
    by (apply Nat.div_lt; lia).
  assert (H1 : (length l / 2 - 1 < length l)%nat) by lia.
  destruct (Hnth _ H1) as [A1 A2]. destruct (Hnth _ H2) as [B1 B2].
  rewrite Zle_Qle in A1, A2, B1, B2.
  unfold np_median. destruct (Nat.even (length l)).
  - split.
    + apply Qle_shift_div_l; [reflexivity|]. lra.
    + apply Qle_shift_div_r; [reflexivity|]. lra.
  - split; assumption.
Qed.

Lemma finite_times_within (lo hi : Z) (l : list ext_time) :
  times_within lo hi l -> Forall (fun t => lo <= t <= hi) (finite_times l).
Proof.
  induction 1 as [|[|t] l He _ IH]; simpl; [constructor|exact IH|].
  constructor; assumption.
Qed.

Lemma finite_times_length (l : list ext_time) :
  (length (finite_times l) <= length l)%nat.
Proof. induction l as [|[|t] l IH]; simpl; lia. Qed.

Lemma summary_range (res : SimulationResult) (lo hi : Z) :
  times_within lo hi (extinction_times res) ->
  0 <= extinct (summary res) <= replicates (summary res) /\
  float_within 0 1 (extinction_probability (summary res)) /\
  float_within lo hi (mean_time_to_extinction (summary res)) /\
  float_within lo hi (median_time_to_extinction (summary res)).
Proof.
  intros H. apply finite_times_within in H.
  pose proof (finite_times_length (extinction_times res)) as L.
  pose proof (count_finite_length (extinction_times res)) as C.
  unfold summary. cbn [extinct replicates extinction_probability
                         mean_time_to_extinction median_time_to_extinction].
  split; [lia|]. split.
  - destruct (Z.of_nat (length (extinction_times res)) =? 0) eqn:E;
      [exact I|]. apply Z.eqb_neq in E. simpl.
    assert (Hn : (0 < inject_Z (Z.of_nat (length (extinction_times res))))%Q)
      by (rewrite <- (Zlt_Qlt 0); lia).
    split.
    + apply Qle_shift_div_l; [exact Hn|].
      rewrite <- inject_Z_mult, <- Zle_Qle. lia.
    + apply Qle_shift_div_r; [exact Hn|].
      rewrite <- inject_Z_mult, <- Zle_Qle. lia.
  - destruct (finite_times (extinction_times res)) as [|t l] eqn:E;
      [split; exact I|].
    split; simpl.
    + apply np_mean_bounds; [discriminate|exact H].
    + apply np_median_bounds; [discriminate|exact H].
Qed.

(** X21.  When every finite extinction time lies between [lo] and
    [hi], the summary reports an extinct count between 0 and the
    replicate count, a probability in [0, 1] and a mean and a median
    between [lo] and [hi], each of the three possibly NaN. *)
Theorem summary_statistics_within_range (res : SimulationResult)
  (lo hi : Z) :
  times_within lo hi (extinction_times res) ->
  0 <= extinct (summary res) <= replicates (summary res) /\
  float_within 0 1 (extinction_probability (summary res)) /\
  float_within lo hi (mean_time_to_extinction (summary res)) /\
  float_within lo hi (median_time_to_extinction (summary res)).
Proof. exact (summary_range res lo hi). Qed.

Lemma summary_statistics_within_range_witness :
  0 <= extinct (summary ex_result) <= replicates (summary ex_result) /\
  float_within 0 1 (extinction_probability (summary ex_result)) /\
  float_within 2 9 (mean_time_to_extinction (summary ex_result)) /\
  float_within 2 9 (median_time_to_extinction (summary ex_result)).
Proof.
  apply (summary_statistics_within_range ex_result 2 9).
  repeat constructor; lia.
Defined.

(** X22.  Whenever [run] returns, the summary of its result counts
    [n_replicates] replicates (none for a negative number), an extinct
    count between 0 and that number, a probability in [0, 1], and a mean
    and a median time to extinction between 1 and [n_generations] when
    they are not NaN. *)
Theorem run_summary_within_horizon {RS : RandomSource} (self : Simulation)
  (g g' : rng) (res : SimulationResult) :
  run self g = Ok (res, g') ->
  replicates (summary res) = Z.max 0 (n_replicates self) /\
  0 <= extinct (summary res) <= replicates (summary res) /\
  float_within 0 1 (extinction_probability (summary res)) /\
  float_within 1 (n_generations self)
    (mean_time_to_extinction (summary res)) /\
  float_within 1 (n_generations self)
    (median_time_to_extinction (summary res)).
Proof.
  intros E. destruct (run_replicates self g g' res E) as (b & g1 & _ & H).
  split.
  - destruct H as (_ & L2 & _). simpl. rewrite L2. lia.
  - apply summary_range. apply Forall_lookup_2. intros k e He.
    destruct H as (_ & L2 & H).
    pose proof (lookup_lt_Some _ _ _ He) as Hlt. rewrite L2 in Hlt.
    destruct (H k Hlt) as (tr & e' & _ & He' & Hres).
    rewrite He in He'. injection He' as <-.
    destruct (replicate_never_at_zero _ _ _ _ Hres) as [_ H0].
    destruct e; [exact I|exact H0].
Qed.

Lemma run_summary_within_horizon_witness :
  exists res g',
    run (RS := tape_source) ex_simulation (tape [1]) = Ok (res, g') /\
    replicates (summary res) = 2 /\
    0 <= extinct (summary res) <= replicates (summary res) /\
    float_within 0 1 (extinction_probability (summary res)) /\
    float_within 1 3 (mean_time_to_extinction (summary res)) /\
    float_within 1 3 (median_time_to_extinction (summary res)).
Proof.
  destruct (run (RS := tape_source) ex_simulation (tape [1]))
    as [[res g']|e] eqn:E; [|vm_compute in E; discriminate].
  exists res, g'. split; [reflexivity|].
  exact (run_summary_within_horizon (RS := tape_source) ex_simulation
           (tape [1]) g' res E).
Defined.

(** *** The summary does not depend on the order of the replicates *)

Lemma insert_sorted_perm (x : Z) (l : list Z) :
  Permutation (insert_sorted x l) (x :: l).
Proof.
  induction l as [|y l IH]; simpl; [reflexivity|].
  destruct (x <=? y); [reflexivity|].
  rewrite IH. apply perm_swap.
Qed.

Lemma np_sort_perm (l : list Z) : Permutation (np_sort l) l.
Proof.
  induction l as [|x l IH]; simpl; [reflexivity|].
  rewrite insert_sorted_perm, IH. reflexivity.
Qed.

Lemma sorted_perm_eq (l1 l2 : list Z) :
  StronglySorted Z.le l1 -> StronglySorted Z.le l2 -> Permutation l1 l2 ->
  l1 = l2.
Proof.
  intros H1. revert l2.
  induction H1 as [|a l1 H1 IH Ha]; intros l2 H2 P.
  - apply Permutation_nil in P. symmetry. exact P.
  - destruct H2 as [|b l2 H2 Hb].
    + symmetry in P. apply Permutation_nil in P. discriminate.
    + assert (E : a = b).
      { rewrite List.Forall_forall in Ha, Hb.
        assert (Ia : In a (b :: l2))
          by (apply (Permutation_in _ P); left; reflexivity).
        assert (Ib : In b (a :: l1))
          by (apply (Permutation_in _ (Permutation_sym P)); left;
              reflexivity).
        destruct Ia as [Ia|Ia]; [congruence|].
        destruct Ib as [Ib|Ib]; [congruence|].
        pose proof (Ha b Ib). pose proof (Hb a Ia). lia. }
      subst b. f_equal. apply IH; [exact H2|].
      exact (Permutation_cons_inv P).
Qed.

Lemma np_sort_order (l l' : list Z) :
  Permutation l l' -> np_sort l = np_sort l'.
Proof.
  intros P. apply sorted_perm_eq; try apply sorted_np_sort.
  rewrite !np_sort_perm. exact P.
Qed.

Lemma sum_perm (l l' : list Z) : Permutation l l' -> sum l = sum l'.
Proof.
  induction 1 as [|x l l' _ IH|x y l|l l' l'' _ IH1 _ IH2]; simpl; lia.
Qed.

Lemma finite_times_perm (l l' : list ext_time) :
  Permutation l l' -> Permutation (finite_times l) (finite_times l').
Proof.
  induction 1 as [|[|x] l l' _ IH|[|x] [|y] l|l l' l'' _ IH1 _ IH2]; simpl;
    try reflexivity; try assumption.
  - apply perm_skip, IH.
  - apply perm_swap.
  - etransitivity; eassumption.
Qed.

(** X23.  The summary depends on the extinction times only, and not on
    their order: two results whose extinction times are permutations of
    each other have the same summary, whatever their trajectories and
    thresholds. *)
Theorem summary_ignores_order (res res' : SimulationResult) :
  Permutation (extinction_times res) (extinction_times res') ->
  summary res = summary res'.
Proof.
  intros P. pose proof (finite_times_perm _ _ P) as Pf.
  pose proof (Permutation_length P) as L.
  pose proof (Permutation_length Pf) as Lf.
  unfold summary. rewrite !count_finite_length, L, Lf.
  assert (Em : np_mean (finite_times (extinction_times res))
               = np_mean (finite_times (extinction_times res')))
    by (unfold np_mean; rewrite (sum_perm _ _ Pf), Lf; reflexivity).
  assert (Ed : np_median (finite_times (extinction_times res))
               = np_median (finite_times (extinction_times res')))
    by (unfold np_median; rewrite (np_sort_order _ _ Pf), Lf; reflexivity).
  destruct (finite_times (extinction_times res)) as [|t l] eqn:E1,
           (finite_times (extinction_times res')) as [|t' l'] eqn:E2;
    try discriminate Lf; [reflexivity|].
  rewrite Em, Ed. reflexivity.
Qed.

Lemma summary_ignores_order_witness :
  summary ex_result
  = summary {| trajectories := [[zero_row 0]];
               extinction_times := [Never; At 4; Never; At 2; At 9];
               result_q_threshold := 0 |}.
Proof.
  apply (summary_ignores_order ex_result
           {| trajectories := [[zero_row 0]];
              extinction_times := [Never; At 4; Never; At 2; At 9];
              result_q_threshold := 0 |}).
  simpl. etransitivity; [apply perm_swap|]. do 2 apply perm_skip.
  exact (Permutation_sym (Permutation_cons_append [At 2; At 9] Never)).
Defined.

(** ** A mortality rate outside [0, 1] reaches the binomial sampler *)

Section InvalidMortality.

Context {RS : RandomSource}.

(** The transition runs its survival and reproduction blocks and then
    raises in the catastrophe. *)
Lemma advance_generation_refused (self : Population) (vr : VitalRates)
  (c : Catastrophe) (env_noise : bool) (g : rng) :
  well_formed self vr None ->
  (1 <= probability c)%Q ->
  (mortality_rate c < 0)%Q \/ (1 < mortality_rate c)%Q ->
  advance_generation self vr (Some c) true env_noise g = Raise ValueError.
Proof.
  intros W Hp Hm. destruct W. unfold advance_generation.
  destruct (effective_rates_spec vr env_noise ltac:(assumption)
              ltac:(assumption) ltac:(assumption) g)
    as ([[[fs ms] ff] mf] & g1 & E1 & Hr).
  rewrite (bind_Ok_eq _ _ _ _ _ E1). cbv beta iota.
  pose proof Hr as (L1 & L2 & L3 & U1 & U2 & U3 & _).
  unfold r_fs, r_ms, r_ff in L1, L2, L3, U1, U2, U3.
  simpl in L1, L2, L3, U1, U2, U3.
  assert (S1 : returns (survival self true fs ms)
                 (survival_post self true fs ms))
    by (apply (survival_spec self true fs ms); try assumption; lia).
  destruct (S1 g1) as (st1 & g2 & E2 & H1).
  rewrite (bind_Ok_eq _ _ _ _ _ E2).
  destruct (survival_post_shape _ _ _ _ _ wf_classes0 H1)
    as (A1 & A2 & A3 & A4).
  assert (S2 : returns (reproduction self true ff (fst st1) (snd st1))
                 (reproduction_post self true ff (fst st1) (snd st1)))
    by (apply (reproduction_spec self true ff (fst st1) (snd st1));
        try assumption; try lia; apply wf_prop0).
  destruct (S2 g2) as (st2 & g3 & E3 & H2).
  rewrite (bind_Ok_eq _ _ _ _ _ E3).
  destruct (reproduction_post_shape _ _ _ st1 st1 st2 A3 A4 H2)
    as (B1 & _ & _ & _).
  unfold bind. rewrite apply_refused; [reflexivity|exact Hp| |exact Hm].
  intros E. rewrite E in B1. simpl in B1. lia.
Qed.

(** X24.  [run] validates no parameter: with demographic noise, a
    catastrophe that always fires and whose mortality rate lies outside
    [0, 1], by [2^-52] at least, makes a run of one replicate and one
    generation or more raise [ValueError], everything else being in the
    domain and in the machine range. *)
Theorem run_invalid_mortality_raises (self : Simulation) (c : Catastrophe)
  (F : Z) (g : rng) :
  well_formed (initial_population self) (vital_rates self) None ->
  machine_sized (initial_population self) (vital_rates self)
    (env_noise self) F ->
  catastrophe self = Some c -> demo_noise self = true ->
  (1 <= probability c)%Q ->
  mortality_outside c ->
  1 <= n_replicates self -> 1 <= n_generations self ->
  run self g = Raise ValueError.
Proof.
  intros W _ Hc Hd Hp Hm Hr Hn. apply mortality_outside_unit in Hm.
  destruct (resolve_base_seed_returns self g) as (b & g1 & Eb).
  unfold run. rewrite (bind_Ok_eq _ _ _ _ _ Eb).
  rewrite py_range_cons by lia. cbn [for_each].
  assert (E : run_replicate self b 0 g1 = Raise ValueError).
  { unfold run_replicate.
    rewrite (bind_Ok_eq _ _ _ _ _ (np_random_seed_eq b 0 g1)).
    unfold simulate_replicate. rewrite py_range_cons by lia.
    cbn [generation_loop]. rewrite Hc, Hd.
    unfold bind.
    rewrite (advance_generation_refused _ _ c _ _ W Hp Hm). reflexivity. }
  unfold bind. rewrite E. reflexivity.
Qed.

End InvalidMortality.

Lemma run_invalid_mortality_raises_witness :
  run (RS := tape_source)
    {| vital_rates := ex_rates; initial_females := [6; 4];
       initial_males := [5; 3];
       catastrophe := Some {| probability := 1; mortality_rate := 3 # 2 |};
       sim_carrying_capacity := None; n_generations := 2; q_threshold := 0;
       n_replicates := 1; demo_noise := true; env_noise := false;
       seed := Some 5 |} (tape []) = Raise ValueError.
Proof.
  apply (run_invalid_mortality_raises (RS := tape_source)
           {| vital_rates := ex_rates; initial_females := [6; 4];
              initial_males := [5; 3];
              catastrophe :=
                Some {| probability := 1; mortality_rate := 3 # 2 |};
              sim_carrying_capacity := None; n_generations := 2;
              q_threshold := 0; n_replicates := 1; demo_noise := true;
              env_noise := false; seed := Some 5 |}
           {| probability := 1; mortality_rate := 3 # 2 |} 2 (tape [])).
  - concrete_domain.
  - concrete_range.
  - reflexivity.
  - reflexivity.
  - vm_compute. discriminate.
  - right. vm_compute. discriminate.
  - simpl. lia.
  - simpl. lia.
Defined.

(** ** [main.py]: from the parsed arguments to the simulation *)

From Stdlib Require String.
Import String.StringSyntax.

(** The fields of the [argparse] namespace that [main] reads. *)
Module Args.
Record t : Type := {
  years : Z;
  n_sim : Z;
  q_threshold : Z;
  carrying_capacity : option Z;
  env_sd_survival : Q;
  env_sd_fertility : Q;
  no_demo_noise : bool;
  no_env_noise : bool;
  catastrophe_prob : Q;
  catastrophe_mort : Q;
  seed : option Z
}.
End Args.

(** How the set-up of [main] ends: [sys.exit] with a message, an
    exception of a constructor, or the simulation object. *)
Inductive main_outcome : Type :=
| SystemExit (message : String.string)
| Raised (e : exn)
| Configured (s : Simulation).

Local Open Scope string_scope.
Definition length_error : String.string :=
  "Error: All rate and initial count lists must have the same length.".
Local Close Scope string_scope.

(** [main] from the six parsed arrays to the [Simulation] object (the
    parsing of the command line and of the comma-separated lists, the
    printing and the plots are not modelled). *)
Definition main_setup (args : Args.t) (f_survival m_survival f_fertility
  m_fertility : list Q) (init_females init_males : list Z) : main_outcome :=
  let n_age := length f_survival in
  if negb ((length m_survival =? n_age)%nat
           && (length f_fertility =? n_age)%nat
           && (length m_fertility =? n_age)%nat
           && (length init_females =? n_age)%nat
           && (length init_males =? n_age)%nat)
  then SystemExit length_error
  else
    match VitalRates_init f_survival m_survival f_fertility m_fertility
            (Args.env_sd_survival args) (Args.env_sd_fertility args) with
    | Raise e => Raised e
    | Ok rates_object =>
        let built :=
          if Qltb 0 (Args.catastrophe_prob args)
             && Qltb 0 (Args.catastrophe_mort args)
          then match Catastrophe_init (Args.catastrophe_prob args)
                       (Args.catastrophe_mort args) with
               | Ok c => Ok (Some c)
               | Raise e => Raise e
               end
          else Ok None in
        match built with
        | Raise e => Raised e
        | Ok cat =>
            Configured
              {| vital_rates := rates_object;
                 initial_females := init_females;
                 initial_males := init_males;
                 catastrophe := cat;
                 sim_carrying_capacity := Args.carrying_capacity args;
                 n_generations := Args.years args;
                 q_threshold := Args.q_threshold args;
                 n_replicates := Args.n_sim args;
                 demo_noise := negb (Args.no_demo_noise args);
                 env_noise := negb (Args.no_env_noise args);
                 seed := Args.seed args |}
        end
    end.

(** The six arrays have one length. *)
Definition same_lengths (f_survival m_survival f_fertility m_fertility
  : list Q) (init_females init_males : list Z) : Prop :=
  length m_survival = length f_survival /\
  length f_fertility = length f_survival /\
  length m_fertility = length f_survival /\
  length init_females = length f_survival /\
  length init_males = length f_survival.

Definition ex_args : Args.t :=
  {| Args.years := 3; Args.n_sim := 2; Args.q_threshold := 2;
     Args.carrying_capacity := Some 12;
     Args.env_sd_survival := 1 # 10; Args.env_sd_fertility := 1 # 5;
     Args.no_demo_noise := false; Args.no_env_noise := true;
     Args.catastrophe_prob := 1 # 10; Args.catastrophe_mort := - (1 # 2);
     Args.seed := None |}.

Lemma same_lengths_test (f_survival m_survival f_fertility m_fertility
  : list Q) (init_females init_males : list Z) :
  (length m_survival =? length f_survival)%nat
  && (length f_fertility =? length f_survival)%nat
  && (length m_fertility =? length f_survival)%nat
  && (length init_females =? length f_survival)%nat
  && (length init_males =? length f_survival)%nat = true
  <-> same_lengths f_survival m_survival f_fertility m_fertility
        init_females init_males.
Proof.
  unfold same_lengths. rewrite !andb_true_iff, !Nat.eqb_eq. tauto.
Qed.

(** X25.  The set-up of [main] raises nothing.  It exits, with the
    message on the lengths, exactly when the six arrays do not have one
    length.  Otherwise it builds the simulation, with a catastrophe only
    when the probability and the mortality given are both positive, and
    then with these two values, which nothing bounds above; the noise
    flags are the negations of the switches. *)
Theorem main_setup_outcome (args : Args.t) (f_survival m_survival
  f_fertility m_fertility : list Q) (init_females init_males : list Z) :
  match main_setup args f_survival m_survival f_fertility m_fertility
          init_females init_males with
  | SystemExit message =>
      message = length_error /\
      ~ same_lengths f_survival m_survival f_fertility m_fertility
          init_females init_males
  | Raised _ => False
  | Configured s =>
      same_lengths f_survival m_survival f_fertility m_fertility
        init_females init_males /\
      match catastrophe s with
      | None => (Args.catastrophe_prob args <= 0)%Q \/
                (Args.catastrophe_mort args <= 0)%Q
      | Some c => (0 < probability c)%Q /\ (0 < mortality_rate c)%Q /\
                  probability c = Args.catastrophe_prob args /\
                  mortality_rate c = Args.catastrophe_mort args
      end /\
      demo_noise s = negb (Args.no_demo_noise args) /\
      env_noise s = negb (Args.no_env_noise args)
  end.
Proof.
  unfold main_setup.
  pose proof (same_lengths_test f_survival m_survival f_fertility
                m_fertility init_females init_males) as T.
  destruct (_ && _ && _ && _ && _) eqn:E; cbn [negb].
  - unfold VitalRates_init, Catastrophe_init.
    destruct (Qltb 0 (Args.catastrophe_prob args)) eqn:Ep;
      destruct (Qltb 0 (Args.catastrophe_mort args)) eqn:Em; cbn.
    + apply Qltb_lt in Ep, Em. split; [apply T; reflexivity|].
      repeat split; assumption.
    + apply Qltb_ge in Em. split; [apply T; reflexivity|].
      split; [right; exact Em|]. split; reflexivity.
    + apply Qltb_ge in Ep. split; [apply T; reflexivity|].
      split; [left; exact Ep|]. split; reflexivity.
    + apply Qltb_ge in Ep. split; [apply T; reflexivity|].
      split; [left; exact Ep|]. split; reflexivity.
  - split; [reflexivity|]. intros H. apply T in H. discriminate.
Qed.

(** X26.  From arrays of one positive length, survival rates in
    [0, 1], fertilities and counts that are not negative, a capacity
    that is not negative, a catastrophe mortality of at most 1, and sizes
    in the machine range for the number of years asked, the set-up of
    [main] builds a simulation of the domain and in the machine range, on
    which [run] returns; a mortality that is negative is no obstacle, the
    catastrophe is then left out. *)
Theorem main_setup_simulation_runs {RS : RandomSource} (args : Args.t)
  (f_survival m_survival f_fertility m_fertility : list Q)
  (init_females init_males : list Z) (F : Z) :
  same_lengths f_survival m_survival f_fertility m_fertility
    init_females init_males ->
  (0 < length f_survival)%nat ->
  unit_rates f_survival -> unit_rates m_survival ->
  nonneg_rates f_fertility ->
  nonneg init_females -> nonneg init_males ->
  (forall K, Args.carrying_capacity args = Some K -> 0 <= K) ->
  (Args.catastrophe_mort args <= 1)%Q ->
  0 <= F -> Forall (fun f => (f <= inject_Z F)%Q) f_fertility ->
  (Args.no_env_noise args = false ->
   (Args.env_sd_survival args <= 1)%Q /\
   (Args.env_sd_fertility args <= 0)%Q) ->
  (sum init_females + sum init_males) * (F + 2) ^ Z.max 0 (Args.years args)
  <= machine_bound ->
  exists s,
    main_setup args f_survival m_survival f_fertility m_fertility
      init_females init_males = Configured s /\
    wf_sim s /\ machine_run s F /\
    forall g, exists res g', run s g = Ok (res, g').
Proof.
  intros L Hpos Uf Um Nf Cf Cm HK Hm HF Hf Hnoise Hsize.
  pose proof (proj2 (same_lengths_test _ _ _ _ _ _) L) as T.
  destruct L as (L1 & L2 & L3 & L4 & L5).
  assert (W : forall cat,
    (forall c, cat = Some c ->
               (0 <= mortality_rate c)%Q /\ (mortality_rate c <= 1)%Q) ->
    let s :=
      {| vital_rates :=
           {| female_survival := f_survival; male_survival := m_survival;
              female_fertility := f_fertility;
              male_fertility := m_fertility;
              env_sd_survival := Args.env_sd_survival args;
              env_sd_fertility := Args.env_sd_fertility args |};
         initial_females := init_females; initial_males := init_males;
         catastrophe := cat;
         sim_carrying_capacity := Args.carrying_capacity args;
         n_generations := Args.years args;
         q_threshold := Args.q_threshold args;
         n_replicates := Args.n_sim args;
         demo_noise := negb (Args.no_demo_noise args);
         env_noise := negb (Args.no_env_noise args);
         seed := Args.seed args |} in
    wf_sim s /\ machine_run s F).
  { intros cat Hcat. split.
    - unfold wf_sim. constructor; simpl; try assumption; try lia.
      split; unfold Qle; simpl; lia.
    - split; [split; assumption|]. split; [|exact Hsize].
      intros He. simpl in He. apply Hnoise.
      destruct (Args.no_env_noise args); [discriminate|reflexivity]. }
  unfold main_setup. rewrite T. cbn [negb].
  unfold VitalRates_init, Catastrophe_init.
  destruct (Qltb 0 (Args.catastrophe_prob args)
            && Qltb 0 (Args.catastrophe_mort args)) eqn:Ec.
  - apply andb_true_iff in Ec. destruct Ec as [_ Em]. apply Qltb_lt in Em.
    eexists. split; [reflexivity|].
    destruct (W (Some {| probability := Args.catastrophe_prob args;
                         mortality_rate := Args.catastrophe_mort args |})
                ltac:(intros c [= <-]; simpl; split; lra)) as [W1 M1].
    split; [exact W1|]. split; [exact M1|]. intros g.
    destruct (run_returns _ W1 g) as (res & g' & E & _).
    exists res, g'. exact E.
  - eexists. split; [reflexivity|].
    destruct (W None ltac:(intros c; discriminate)) as [W1 M1].
    split; [exact W1|]. split; [exact M1|]. intros g.
    destruct (run_returns _ W1 g) as (res & g' & E & _).
    exists res, g'. exact E.
Qed.

Lemma main_setup_simulation_runs_witness :
  exists s,
    main_setup ex_args [1 # 2; 3 # 4] [1 # 2; 3 # 4] [0; 2]%Q [0; 0]%Q
      [6; 4] [5; 3] = Configured s /\
    wf_sim s /\ machine_run s 2 /\
    forall g, exists res g', run (RS := tape_source) s g = Ok (res, g').
Proof.
  apply (main_setup_simulation_runs (RS := tape_source) ex_args
           [1 # 2; 3 # 4] [1 # 2; 3 # 4] [0; 2]%Q [0; 0]%Q [6; 4] [5; 3] 2).
  - repeat split.
  - simpl. lia.
  - repeat constructor; unfold Qle; simpl; lia.
  - repeat constructor; unfold Qle; simpl; lia.
  - repeat constructor; unfold Qle; simpl; lia.
  - repeat constructor; lia.
  - repeat constructor; lia.
  - intros K [= <-]. lia.
  - vm_compute. discriminate.
  - lia.
  - repeat constructor; vm_compute; discriminate.
  - discriminate.
  - vm_compute. discriminate.
Defined.
